(** * TelegramCalls: a shallow embedding of the plugin runtime

    The development follows [plugins/TelegramCalls/src/index.ts] (module
    locator, capability handles, monkey patching of the voice connection,
    call-start / call-end policy, watchdog timer, load / unload) and the
    binding of the settings form in [plugins/TelegramCalls/src/settings.tsx].

    JavaScript objects live in a heap indexed by locations, so that object
    identity, aliasing and in-place mutation are the ones of the source.
    Calls into host functions are opaque: each one is recorded in a trace
    and its result is supplied by the host (a function of the history).

    The last part follows the pure core of [build.mjs]: the base URL, the
    normalisation of authors, the descriptor of a plugin, the discovery of
    plugins over a file system that is only read, and the name of the
    index.  Bundling, hashing and the writes to [dist] are not modelled. *)

From stdpp Require Import base option list strings gmap.
From Stdlib Require Import ZArith.

Local Open Scope Z_scope.
Local Open Scope string_scope.
Local Open Scope list_scope.

(** ** Values and objects *)

Definition loc := positive.

Inductive value : Type :=
| VUndef
| VNull
| VBool (b : bool)
| VNum (n : Z)
| VStr (s : string)
| VRef (l : loc).

Arguments VRef l%_positive.

#[global] Instance value_eq_dec : EqDecision value.
Proof. solve_decision. Defined.

(** A property is a data property, or an accessor whose getter and setter
    throw [e] (the "throwing module accessor" of the locator). *)
Inductive prop : Type :=
| Data (v : value)
| Accessor (e : value).

(** The two async wrappers created by [patchVoiceJoinLeave] close over the
    original method; every other function is host code. *)
Inductive code : Type :=
| Native
| JoinHook (orig : value)
| LeaveHook (orig : value).

Inductive kind : Type :=
| Plain
| Array (elems : list value)
| Function (c : code).

(** [own]: own enumerable properties in [Object.values] order;
    [inherited]: the properties visible through the prototype chain. *)
Record obj : Type := Obj {
  own : list (string * prop);
  inherited : list (string * prop);
  okind : kind
}.

Definition empty_obj : obj := Obj [] [] Plain.

(** The closure returned by [monkeyPatch]: it captures [obj], [method] and
    [orig]. *)
Record Unpatch : Type := MkUnpatch {
  u_obj : value;
  u_method : string;
  u_orig : value
}.

(** Marks record that a function of index.ts was entered; they let the
    statements count how often a function ran.  The host does not see
    them. *)
Inductive mark : Type :=
| InGetModules
| InOnCallStart
| InOnCallEnd
| InRevert (u : Unpatch).

Inductive event : Type :=
| Call (recv : value) (method : string) (args : list value)
| Apply (callee this : value) (args : list value)
| ConsoleLog (args : list value)
| Enter (m : mark).

Inductive outcome (A : Type) : Type :=
| Ok (a : A)
| Throw (e : value).
Arguments Ok {A} a.
Arguments Throw {A} e.

(** ** Program state *)

Record State : Type := MkState {
  heap : gmap loc obj;
  host : list event -> outcome value;
  trace : list event;
  timers : gmap positive Z;
  (* bindings of index.ts *)
  Settings : loc;
  VoiceStore : value;
  MediaEngine : value;
  AttenuationStore : value;
  AudioManagerNative : value;
  DeviceManager : value;
  VoiceConnection : value;
  patches : list Unpatch;
  intervalId : option positive;
  (* binding of settings.tsx *)
  ui_Settings : value
}.

Definition set_heap (h : gmap loc obj) (st : State) : State :=
  MkState h (host st) (trace st) (timers st) (Settings st) (VoiceStore st)
    (MediaEngine st) (AttenuationStore st) (AudioManagerNative st)
    (DeviceManager st) (VoiceConnection st) (patches st) (intervalId st)
    (ui_Settings st).

Definition set_trace (tr : list event) (st : State) : State :=
  MkState (heap st) (host st) tr (timers st) (Settings st) (VoiceStore st)
    (MediaEngine st) (AttenuationStore st) (AudioManagerNative st)
    (DeviceManager st) (VoiceConnection st) (patches st) (intervalId st)
    (ui_Settings st).

Definition set_patches (ps : list Unpatch) (st : State) : State :=
  MkState (heap st) (host st) (trace st) (timers st) (Settings st)
    (VoiceStore st) (MediaEngine st) (AttenuationStore st)
    (AudioManagerNative st) (DeviceManager st) (VoiceConnection st) ps
    (intervalId st) (ui_Settings st).

Definition set_timer (ts : gmap positive Z) (i : option positive)
    (st : State) : State :=
  MkState (heap st) (host st) (trace st) ts (Settings st) (VoiceStore st)
    (MediaEngine st) (AttenuationStore st) (AudioManagerNative st)
    (DeviceManager st) (VoiceConnection st) (patches st) i (ui_Settings st).

(** The six capability handles resolved when index.ts is evaluated. *)
Record Handles : Type := MkHandles {
  h_VoiceStore : value;
  h_MediaEngine : value;
  h_AttenuationStore : value;
  h_AudioManagerNative : value;
  h_DeviceManager : value;
  h_VoiceConnection : value
}.

Definition handles (st : State) : Handles :=
  MkHandles (VoiceStore st) (MediaEngine st) (AttenuationStore st)
    (AudioManagerNative st) (DeviceManager st) (VoiceConnection st).

Definition set_handles (hs : Handles) (st : State) : State :=
  MkState (heap st) (host st) (trace st) (timers st) (Settings st)
    (h_VoiceStore hs) (h_MediaEngine hs) (h_AttenuationStore hs)
    (h_AudioManagerNative hs) (h_DeviceManager hs) (h_VoiceConnection hs)
    (patches st) (intervalId st) (ui_Settings st).

Definition set_bindings (s : loc) (ui : value) (st : State) : State :=
  MkState (heap st) (host st) (trace st) (timers st) s (VoiceStore st)
    (MediaEngine st) (AttenuationStore st) (AudioManagerNative st)
    (DeviceManager st) (VoiceConnection st) (patches st) (intervalId st) ui.

(** ** The monad of the embedding: state and exceptions *)

Definition M (A : Type) : Type := State -> outcome A * State.

Definition ret {A} (a : A) : M A := fun st => (Ok a, st).

Definition throw {A} (e : value) : M A := fun st => (Throw e, st).

Definition bind {A B} (m : M A) (k : A -> M B) : M B :=
  fun st =>
    match m st with
    | (Ok a, st') => k a st'
    | (Throw e, st') => (Throw e, st')
    end.

(** [try { m } catch (e) { handler e }] *)
Definition try_catch {A} (m : M A) (handler : value -> M A) : M A :=
  fun st =>
    match m st with
    | (Ok a, st') => (Ok a, st')
    | (Throw e, st') => handler e st'
    end.

(** [try { m } finally { fin }]: [fin] always runs; when it completes
    normally the outcome of [m] stands. *)
Definition try_finally {A} (m : M A) (fin : M unit) : M A :=
  fun st =>
    match m st with
    | (r, st') =>
        match fin st' with
        | (Ok _, st'') => (r, st'')
        | (Throw e, st'') => (Throw e, st'')
        end
    end.

Definition gets {A} (f : State -> A) : M A := fun st => (Ok (f st), st).

Definition modify (f : State -> State) : M unit := fun st => (Ok tt, f st).

Definition lift {A} (f : State -> outcome A) : M A := fun st => (f st, st).

Definition emit (e : event) : M unit :=
  modify (fun st => set_trace (trace st ++ [e]) st).

(** A call into host code: recorded, then answered by the host. *)
Definition host_call (e : event) : M value :=
  fun st =>
    let st' := set_trace (trace st ++ [e]) st in
    (host st' (trace st'), st').

Definition when (b : bool) (m : M unit) : M unit :=
  if b then m else ret tt.

Declare Scope js_scope.
Delimit Scope js_scope with js.
Notation "'let*' x ':=' m 'in' k" := (bind m (fun x => k))
  (at level 10, x name, m at level 100, k at level 200) : js_scope.
Notation "m '>>' k" := (bind m (fun _ => k))
  (at level 90, right associativity) : js_scope.
Local Open Scope js_scope.

(** ** JavaScript primitives used by the plugin *)

Definition TypeError : value := VStr "TypeError".

Definition truthy (v : value) : bool :=
  match v with
  | VUndef | VNull => false
  | VBool b => b
  | VNum n => negb (Z.eqb n 0)
  | VStr s => negb (String.eqb s "")
  | VRef _ => true
  end.

Definition nullish (v : value) : bool :=
  match v with
  | VUndef | VNull => true
  | _ => false
  end.

Definition obj_at (h : gmap loc obj) (l : loc) : obj :=
  default empty_obj (h !! l).

Definition typeof (h : gmap loc obj) (v : value) : string :=
  match v with
  | VUndef => "undefined"
  | VNull => "object"
  | VBool _ => "boolean"
  | VNum _ => "number"
  | VStr _ => "string"
  | VRef l =>
      match okind (obj_at h l) with
      | Function _ => "function"
      | _ => "object"
      end
  end.

Fixpoint assoc {A} (k : string) (l : list (string * A)) : option A :=
  match l with
  | [] => None
  | (k', a) :: l' => if String.eqb k' k then Some a else assoc k l'
  end.

(** Update in place, or append: the order of the existing keys is kept. *)
Fixpoint assoc_set {A} (k : string) (a : A) (l : list (string * A))
    : list (string * A) :=
  match l with
  | [] => [(k, a)]
  | (k', a') :: l' =>
      if String.eqb k' k then (k', a) :: l' else (k', a') :: assoc_set k a l'
  end.

Definition lookup_prop (o : obj) (k : string) : option prop :=
  match assoc k (own o) with
  | Some p => Some p
  | None => assoc k (inherited o)
  end.

(** [k in o] *)
Definition has_prop (o : obj) (k : string) : bool :=
  match lookup_prop o k with
  | Some _ => true
  | None => false
  end.

(** [v.k] *)
Definition read (h : gmap loc obj) (v : value) (k : string) : outcome value :=
  match v with
  | VUndef | VNull => Throw TypeError
  | VRef l =>
      match lookup_prop (obj_at h l) k with
      | Some (Data x) => Ok x
      | Some (Accessor e) => Throw e
      | None => Ok VUndef
      end
  | _ => Ok VUndef
  end.

(** [v.k = x] in strict mode (ES modules): an accessor throws, a data or
    missing property becomes an own data property. *)
Definition write (h : gmap loc obj) (v : value) (k : string) (x : value)
    : outcome (gmap loc obj) :=
  match v with
  | VRef l =>
      let o := obj_at h l in
      match lookup_prop o k with
      | Some (Accessor e) => Throw e
      | _ =>
          Ok (<[l := Obj (assoc_set k (Data x) (own o)) (inherited o)
                      (okind o)]> h)
      end
  | _ => Throw TypeError
  end.

Definition getp (v : value) (k : string) : M value :=
  lift (fun st => read (heap st) v k).

(** [v?.k] *)
Definition opt_getp (v : value) (k : string) : M value :=
  if nullish v then ret VUndef else getp v k.

Definition setp (v : value) (k : string) (x : value) : M unit :=
  fun st =>
    match write (heap st) v k x with
    | Ok h' => (Ok tt, set_heap h' st)
    | Throw e => (Throw e, st)
    end.

(** [k in v] *)
Definition in_op (k : string) (v : value) : M bool :=
  lift (fun st =>
    match v with
    | VRef l => Ok (has_prop (obj_at (heap st) l) k)
    | _ => Throw TypeError
    end).

Definition callable (st : State) (f : value) : bool :=
  String.eqb (typeof (heap st) f) "function".

(** [f.call(recv, ...args)] where [f] was read from [recv.k] *)
Definition call_value (recv : value) (k : string) (f : value)
    (args : list value) : M value :=
  let* c := gets (fun st => callable st f) in
  if c then host_call (Call recv k args) else throw TypeError.

(** [recv.k(...args)] *)
Definition invoke (recv : value) (k : string) (args : list value) : M value :=
  let* f := getp recv k in
  call_value recv k f args.

(** [recv.k?.(...args)] *)
Definition opt_invoke (recv : value) (k : string) (args : list value)
    : M value :=
  let* f := getp recv k in
  if nullish f then ret VUndef else call_value recv k f args.

(** Allocation of a new object. *)
Definition alloc (o : obj) : M value :=
  fun st =>
    let l := fresh (dom (heap st)) in
    (Ok (VRef l), set_heap (<[l := o]> (heap st)) st).

(** ** index.ts: the module locator *)

Definition globalThis : value := VRef 1%positive.

(** [Object.values(o)]: own values in order; an accessor is invoked. *)
Fixpoint object_values (ps : list (string * prop)) : outcome (list value) :=
  match ps with
  | [] => Ok []
  | (_, Data v) :: ps' =>
      match object_values ps' with
      | Ok vs => Ok (v :: vs)
      | Throw e => Throw e
      end
  | (_, Accessor e) :: _ => Throw e
  end.

(** The loop of [getModules] over [possible]. *)
Fixpoint first_registry (h : gmap loc obj) (possible : list value)
    : outcome (list value) :=
  match possible with
  | [] => Ok []
  | candidate :: rest =>
      if negb (truthy candidate) then first_registry h rest
      else
        match candidate with
        | VRef l =>
            match okind (obj_at h l) with
            | Array elems => Ok elems
            | Plain => object_values (own (obj_at h l))
            | Function _ => first_registry h rest
            end
        | _ => first_registry h rest
        end
  end.

Definition getModules : M (list value) :=
  emit (Enter InGetModules) >>
  let* g_modules := getp globalThis "modules" in
  let* r := getp globalThis "__r" in
  let* r_getModules :=
    if nullish r then ret VUndef else opt_invoke r "getModules" [] in
  let* r' := getp globalThis "__r" in
  let* r_modules := opt_getp r' "modules" in
  let* c := getp globalThis "__c" in
  let* c_modules := opt_getp c "modules" in
  lift (fun st =>
    first_registry (heap st) [g_modules; r_getModules; r_modules; c_modules]).

(** [props.every((p) => p in v)] *)
Fixpoint every_in (props : list string) (v : value) : M bool :=
  match props with
  | [] => ret true
  | p :: ps =>
      let* b := in_op p v in
      if b then every_in ps v else ret false
  end.

Definition is_object (st : State) (v : value) : bool :=
  truthy v && String.eqb (typeof (heap st) v) "object".

(** The body of the [try] in [findByProps], for one module: [Some v] is
    [return v], [None] falls through to the next module. *)
Definition probe (props : list string) (modl : value) : M (option value) :=
  let* e := opt_getp modl "exports" in
  let exp := if nullish e then modl else e in
  let* o := gets (fun st => is_object st exp) in
  if negb o then ret None
  else
    let* all := every_in props exp in
    if all then ret (Some exp)
    else
      let* d := getp exp "default" in
      let* od := gets (fun st => is_object st d) in
      if od then
        let* alld := every_in props d in
        if alld then ret (Some d) else ret None
      else ret None.

Fixpoint scan_props (props : list string) (mods : list value) : M value :=
  match mods with
  | [] => ret VNull
  | modl :: rest =>
      let* r := try_catch (probe props modl) (fun _ => ret None) in
      match r with
      | Some v => ret v
      | None => scan_props props rest
      end
  end.

Definition findByProps (props : list string) : M value :=
  let* mods := getModules in
  scan_props props mods.

(** [v === name] for a string [name] *)
Definition is_str (v : value) (name : string) : bool :=
  match v with
  | VStr s => String.eqb s name
  | _ => false
  end.

Fixpoint scan_name (name : string) (mods : list value) : M value :=
  match mods with
  | [] => ret VNull
  | modl :: rest =>
      let* e := opt_getp modl "exports" in
      let exp := if nullish e then modl else e in
      let* d := opt_getp exp "default" in
      let cand := if nullish d then exp else d in
      let* dn := opt_getp cand "displayName" in
      if is_str dn name then ret cand
      else
        let* n := opt_getp cand "name" in
        if is_str n name then ret cand else scan_name name rest
  end.

Definition findByDisplayName (name : string) : M value :=
  let* mods := getModules in
  scan_name name mods.

(** ** index.ts: settings and logging *)

Definition default_settings : obj :=
  Obj [("forceModeNormalOnWired", Data (VBool true));
       ("keepStereoMedia", Data (VBool true));
       ("disableAttenuation", Data (VBool true));
       ("relaxMicDSP", Data (VBool true));
       ("verboseLogs", Data (VBool false))] [] Plain.

(** [Settings.k] used as a condition.  [Settings] is the object literal of
    index.ts, whose properties are plain data properties. *)
Definition flag (k : string) (st : State) : bool :=
  match lookup_prop (obj_at (heap st) (Settings st)) k with
  | Some (Data v) => truthy v
  | _ => false
  end.

Definition log (args : list value) : M unit :=
  let* v := gets (flag "verboseLogs") in
  when v (emit (ConsoleLog (VStr "[TelegramCalls]" :: args))).

(** ** index.ts: policy actions *)

Definition isWiredHeadphones : M bool :=
  try_catch
    (let* dm := gets DeviceManager in
     let* m := opt_getp dm "isHeadsetConnected" in
     if truthy m then
       let* r := invoke dm "isHeadsetConnected" [] in
       ret (truthy r)
     else ret false)
    (fun _ => ret false).

Definition safeSetAudioModeNormal : M unit :=
  try_catch
    (let* am := gets AudioManagerNative in
     let* m := opt_getp am "setMode" in
     if negb (truthy m) then ret tt
     else
       invoke am "setMode" [VNum 0] >>
       log [VStr "Forced AudioManager.MODE_NORMAL"])
    (fun e => log [VStr "setMode failed"; e]).

Definition ensureMediaStreamNotDucked : M unit :=
  try_catch
    (let* a := gets AttenuationStore in
     let* m := opt_getp a "setAttenuation" in
     if negb (truthy m) then ret tt
     else
       invoke a "setAttenuation" [VNum 0] >>
       log [VStr "Attenuation set to 0%"])
    (fun e => log [VStr "Failed to set attenuation"; e]).

Definition relaxMicProcessing : M unit :=
  let* me := gets MediaEngine in
  if negb (truthy me) then ret tt
  else
    try_catch
      (opt_invoke me "setEchoCancellation" [VBool false] >>
       opt_invoke me "setNoiseSuppression" [VBool false] >>
       opt_invoke me "setAutomaticGainControl" [VBool false] >>
       opt_invoke me "setOpusEncoderEnableFEC" [VBool true] >>
       opt_invoke me "setOpusBitrate" [VNum 64000] >>
       log [VStr "Relaxed mic DSP and set bitrate"])
      (fun e => log [VStr "Mic DSP tuning failed"; e]).

Definition preferStereoOutput : M unit :=
  try_catch
    (let* p := findByProps ["setChannelCount"; "setSampleRate"] in
     let* Player :=
       if truthy p then ret p else findByProps ["setOutputConfig"] in
     let* cc := opt_getp Player "setChannelCount" in
     when (truthy cc) (invoke Player "setChannelCount" [VNum 2] >> ret tt) >>
     let* sr := opt_getp Player "setSampleRate" in
     when (truthy sr) (invoke Player "setSampleRate" [VNum 48000] >> ret tt) >>
     log [VStr "Preferred stereo, 48 kHz output"])
    (fun e => log [VStr "Stereo preference failed"; e]).

(** [if (Settings.k) action();] *)
Definition if_flag (k : string) (action : M unit) : M unit :=
  let* b := gets (flag k) in
  when b action.

Definition onCallStart : M unit :=
  emit (Enter InOnCallStart) >>
  if_flag "disableAttenuation" ensureMediaStreamNotDucked >>
  if_flag "keepStereoMedia" preferStereoOutput >>
  if_flag "relaxMicDSP" relaxMicProcessing >>
  if_flag "forceModeNormalOnWired"
    (let* w := isWiredHeadphones in
     when w safeSetAudioModeNormal).

Definition onCallEnd : M unit :=
  emit (Enter InOnCallEnd) >>
  try_catch
    (let* r := gets (flag "relaxMicDSP") in
     let* me := gets MediaEngine in
     if r && truthy me then
       opt_invoke me "setEchoCancellation" [VBool true] >>
       opt_invoke me "setNoiseSuppression" [VBool true] >>
       opt_invoke me "setAutomaticGainControl" [VBool true] >>
       log [VStr "Restored mic DSP defaults"]
     else ret tt)
    (fun _ => ret tt).

(** ** index.ts: the monkey patch helper and the join / leave wrappers *)

(** [patcher orig] is an async function expression: a new function object
    whose code closes over [orig]. *)
Definition monkeyPatch (o : value) (method : string)
    (patcher : value -> code) : M Unpatch :=
  let* orig := getp o method in
  let* w := alloc (Obj [] [] (Function (patcher orig))) in
  setp o method w >>
  ret (MkUnpatch o method orig).

(** Running the closure returned by [monkeyPatch]. *)
Definition run_unpatch (u : Unpatch) : M unit :=
  emit (Enter (InRevert u)) >>
  setp (u_obj u) (u_method u) (u_orig u).

(** [await orig.apply(this, args)] for an original that is host code: the
    call is recorded and the host answers with its settled result, a value
    or a rejection; an original that cannot be called rejects with a
    TypeError.  The original is treated as opaque: when the slot already
    held one of the plugin's own wrappers (a slot patched twice), calling
    it runs that wrapper and its policy once more, which the single
    [Apply] event does not show.  The statements on what a wrapper returns
    and how often it runs the policy are therefore made for a host
    original, [host_function]. *)
Definition apply_orig (orig this : value) (args : list value) : M value :=
  let* c := gets (fun st => callable st orig) in
  if c then host_call (Apply orig this args) else throw TypeError.

Definition joinWrapper (orig this : value) (args : list value) : M value :=
  let* res := apply_orig orig this args in
  onCallStart >>
  ret res.

Definition leaveWrapper (orig this : value) (args : list value) : M value :=
  try_finally
    (let* res := apply_orig orig this args in
     onCallEnd >>
     ret res)
    onCallEnd.

Definition push (u : Unpatch) : M unit :=
  modify (fun st => set_patches (patches st ++ [u]) st).

(** [a in o && b in o] *)
Definition both_in (a b : string) (o : value) : M bool :=
  let* x := in_op a o in
  if x then in_op b o else ret false.

Definition patchVoiceJoinLeave : M unit :=
  let* vc := gets VoiceConnection in
  if negb (truthy vc) then ret tt
  else
    let* explicit := both_in "joinCall" "leaveCall" vc in
    if explicit then
      let* u1 := monkeyPatch vc "joinCall" JoinHook in
      push u1 >>
      let* u2 := monkeyPatch vc "leaveCall" LeaveHook in
      push u2
    else
      let* generic := both_in "join" "leave" vc in
      if generic then
        let* u1 := monkeyPatch vc "join" JoinHook in
        push u1 >>
        let* u2 := monkeyPatch vc "leave" LeaveHook in
        push u2
      else ret tt.

(** The host calling [recv.k(...args)]: a patched slot runs the wrapper. *)
Definition host_calls (recv : value) (k : string) (args : list value)
    : M value :=
  let* f := getp recv k in
  let* c :=
    gets (fun st =>
      match f with
      | VRef l =>
          match okind (obj_at (heap st) l) with
          | Function c => Some c
          | _ => None
          end
      | _ => None
      end) in
  match c with
  | Some (JoinHook orig) => joinWrapper orig recv args
  | Some (LeaveHook orig) => leaveWrapper orig recv args
  | Some Native => host_call (Apply f recv args)
  | None => throw TypeError
  end.

(** ** index.ts: the watchdog *)

Definition period : Z := 2000.

(** [timers] is the host's table of live intervals: identifier to period
    in milliseconds.  Identifiers are positive, hence truthy. *)
Definition stopWatchdog : M unit :=
  modify (fun st =>
    match intervalId st with
    | Some i => set_timer (delete i (timers st)) None st
    | None => set_timer (timers st) None st
    end).

Definition startWatchdog : M unit :=
  stopWatchdog >>
  modify (fun st =>
    let i := fresh (dom (timers st)) in
    set_timer (<[i := period]> (timers st)) (Some i) st).

(** [VoiceStore?.isInCall?.()] *)
Definition isInCall : M value :=
  let* vs := gets VoiceStore in
  if nullish vs then ret VUndef else opt_invoke vs "isInCall" [].

(** The callback given to [setInterval]. *)
Definition tick : M unit :=
  let* c := isInCall in
  if negb (truthy c) then ret tt
  else
    if_flag "disableAttenuation" ensureMediaStreamNotDucked >>
    if_flag "keepStereoMedia" preferStereoOutput.

(** ** index.ts: the plugin API *)

Definition onLoad : M unit :=
  log [VStr "Loading TelegramCalls"] >>
  patchVoiceJoinLeave >>
  startWatchdog >>
  try_catch
    (let* c := isInCall in
     when (truthy c) onCallStart)
    (fun _ => ret tt).

(** [for (const un of ps) try { un(); } catch {}] *)
Fixpoint run_all (ps : list Unpatch) : M unit :=
  match ps with
  | [] => ret tt
  | un :: rest =>
      try_catch (run_unpatch un) (fun _ => ret tt) >>
      run_all rest
  end.

Definition onUnload : M unit :=
  log [VStr "Unloading TelegramCalls"] >>
  let* ps := gets patches in
  modify (set_patches []) >>
  run_all ps >>
  stopWatchdog >>
  onCallEnd.

(** ** Module evaluation *)

(** [a || b] with [b] evaluated lazily *)
Definition or_else (a : value) (b : M value) : M value :=
  if truthy a then ret a else b.

(** The top level of settings.tsx:
    [const Settings = globalThis.__TelegramCallsSettings ??= {...}] *)
Definition settings_tsx : M unit :=
  let* cur := getp globalThis "__TelegramCallsSettings" in
  let* s :=
    if nullish cur then
      let* o := alloc default_settings in
      setp globalThis "__TelegramCallsSettings" o >>
      ret o
    else ret cur in
  modify (fun st => set_bindings (Settings st) s st).

(** [upd(k, v)] of the settings form: [Settings[k] = v]. *)
Definition upd (k : string) (v : bool) : M unit :=
  let* s := gets ui_Settings in
  setp s k (VBool v).

(** The top level of index.ts, after its import of ./settings. *)
Definition index_ts : M unit :=
  let* s := alloc default_settings in
  modify (fun st =>
    match s with
    | VRef l => set_bindings l (ui_Settings st) st
    | _ => st
    end) >>
  let* vs := findByProps ["getCurrentVoiceChannelId"; "isInCall"] in
  let* me :=
    findByProps ["setSelfMute"; "setInputVolume"; "setNoiseSuppression"] in
  let* att := findByProps ["getAttenuation"; "setAttenuation"] in
  let* nm := getp globalThis "NativeModules" in
  let* rnc := opt_getp nm "RNCAudioManager" in
  let* am :=
    or_else rnc
      (let* nm' := getp globalThis "NativeModules" in
       let* a := opt_getp nm' "AudioManager" in
       or_else a (findByProps ["setMode"; "setSpeakerphoneOn"])) in
  let* dm := findByProps ["isHeadsetConnected"; "isBluetoothConnected"] in
  let* vc1 := findByProps ["join"; "leave"; "setLocalMute"] in
  let* vc := or_else vc1 (findByProps ["joinCall"; "leaveCall"]) in
  modify (fun st =>
    set_timer (timers st) None
      (set_patches [] (set_handles (MkHandles vs me att am dm vc) st))).

Definition load_modules : M unit :=
  settings_tsx >>
  index_ts.

(** * Specification vocabulary *)

(** ** Observations on traces *)

Definition calls_method (names : list string) (e : event) : bool :=
  match e with
  | Call _ m _ => existsb (String.eqb m) names
  | _ => false
  end.

(** [e] is not a call of one of the methods [names]. *)
Definition silent (names : list string) (e : event) : Prop :=
  calls_method names e = false.

Definition is_mark (m : mark) (e : event) : bool :=
  match e, m with
  | Enter InGetModules, InGetModules => true
  | Enter InOnCallStart, InOnCallStart => true
  | Enter InOnCallEnd, InOnCallEnd => true
  | _, _ => false
  end.

(** Number of times the function marked [m] was entered. *)
Definition entered (m : mark) (tr : list event) : nat :=
  length (filter (fun e => is_mark m e = true) tr).

Definition unmarked (m : mark) (e : event) : Prop := is_mark m e = false.

(** The reverts that ran, in order. *)
Definition reverts (tr : list event) : list Unpatch :=
  omap (fun e => match e with Enter (InRevert u) => Some u | _ => None end) tr.

Definition not_revert (e : event) : Prop :=
  match e with
  | Enter (InRevert _) => False
  | _ => True
  end.

(** Each setting with the host methods its policy action requests. *)
Definition governed : list (string * list string) :=
  [("disableAttenuation", ["setAttenuation"]);
   ("keepStereoMedia", ["setChannelCount"; "setSampleRate"]);
   ("relaxMicDSP",
    ["setEchoCancellation"; "setNoiseSuppression"; "setAutomaticGainControl";
     "setOpusEncoderEnableFEC"; "setOpusBitrate"]);
   ("forceModeNormalOnWired", ["setMode"])].

Definition one_shot : list string :=
  ["setEchoCancellation"; "setNoiseSuppression"; "setAutomaticGainControl";
   "setOpusEncoderEnableFEC"; "setOpusBitrate"; "setMode"].


(** ** A concrete host, for examples *)

Definition method (k : string) : string * prop := (k, Data (VRef 20%positive)).

Definition module_of (l : loc) : obj := Obj [("exports", Data (VRef l))] [] Plain.
Arguments module_of l%_positive.

(** A registry reached through [globalThis.modules]: a voice store whose
    methods sit on its prototype, a media engine without automatic gain
    control, an attenuation store, a player exported as [default], a voice
    connection with [joinCall] / [leaveCall], a device manager, and a
    module whose [exports] accessor throws. *)
Definition demo_heap : gmap loc obj :=
  list_to_map
    [(1%positive,
      Obj [("modules", Data (VRef 2)); ("NativeModules", Data (VRef 17))]
        [] Plain);
     (2%positive,
      Obj [] []
        (Array [VRef 13; VRef 3; VRef 5; VRef 7; VRef 9; VRef 11; VRef 15]));
     (3%positive, module_of 4);
     (4%positive,
      Obj [] [method "getCurrentVoiceChannelId"; method "isInCall"] Plain);
     (5%positive, module_of 6);
     (6%positive,
      Obj [method "setSelfMute"; method "setInputVolume";
           method "setNoiseSuppression"; method "setEchoCancellation"]
        [] Plain);
     (7%positive, module_of 8);
     (8%positive, Obj [method "getAttenuation"; method "setAttenuation"] [] Plain);
     (9%positive, module_of 10);
     (10%positive, Obj [("default", Data (VRef 14))] [] Plain);
     (11%positive, module_of 12);
     (12%positive,
      Obj [("joinCall", Data (VRef 21)); ("leaveCall", Data (VRef 22))]
        [] Plain);
     (13%positive, Obj [("exports", Accessor (VStr "boom"))] [] Plain);
     (14%positive, Obj [method "setChannelCount"; method "setSampleRate"] [] Plain);
     (15%positive, module_of 16);
     (16%positive,
      Obj [method "isHeadsetConnected"; method "isBluetoothConnected"] [] Plain);
     (17%positive, Obj [("AudioManager", Data (VRef 18))] [] Plain);
     (18%positive, Obj [method "setMode"] [] Plain);
     (20%positive, Obj [] [] (Function Native));
     (21%positive, Obj [] [] (Function Native));
     (22%positive, Obj [] [] (Function Native))].

(** A host in a call with a wired headset; the original join / leave
    settle as [settled]. *)
Definition demo_host (settled : outcome value) (tr : list event)
    : outcome value :=
  match last tr with
  | Some (Call _ "isInCall" _) => Ok (VBool true)
  | Some (Call _ "isHeadsetConnected" _) => Ok (VBool true)
  | Some (Apply _ _ _) => settled
  | _ => Ok VUndef
  end.

(** The state before the plugin's modules are evaluated. *)
Definition boot (h : gmap loc obj) (hst : list event -> outcome value)
    : State :=
  MkState h hst [] ∅ 1%positive VUndef VUndef VUndef VUndef VUndef VUndef []
    None VUndef.

Definition demo (settled : outcome value) : State :=
  snd (load_modules (boot demo_heap (demo_host settled))).


(** ** The original of a wrapper *)

(** [f] is a function of the host: a function object that is not one of
    the plugin's own two wrappers. *)
Definition host_function (h : gmap loc obj) (f : value) : bool :=
  match f with
  | VRef l =>
      match okind (obj_at h l) with
      | Function Native => true
      | _ => false
      end
  | _ => false
  end.

(** [e] is not a call of an original. *)
Definition not_apply (e : event) : Prop :=
  match e with
  | Apply _ _ _ => False
  | _ => True
  end.

(** ** Reverting, as a heap transformation *)

(** One iteration of the unload loop on the heap: [un()] inside
    [try { } catch {}] either performs its assignment or changes nothing. *)
Definition revert_heap (h : gmap loc obj) (u : Unpatch) : gmap loc obj :=
  match write h (u_obj u) (u_method u) (u_orig u) with
  | Ok h' => h'
  | Throw _ => h
  end.

Definition step_revert (st : State) (u : Unpatch) : State :=
  set_heap (revert_heap (heap st) u)
    (set_trace (trace st ++ [Enter (InRevert u)]) st).


(** ** Operations of the loaded plugin *)

Inductive operation : Type :=
| OpLoad
| OpUnload
| OpTick
| OpCallStart
| OpCallEnd
| OpJoin (orig this : value) (args : list value)
| OpLeave (orig this : value) (args : list value)
| OpUpd (k : string) (v : bool).

Definition exec (op : operation) (st : State) : State :=
  match op with
  | OpLoad => snd (onLoad st)
  | OpUnload => snd (onUnload st)
  | OpTick => snd (tick st)
  | OpCallStart => snd (onCallStart st)
  | OpCallEnd => snd (onCallEnd st)
  | OpJoin orig this args => snd (joinWrapper orig this args st)
  | OpLeave orig this args => snd (leaveWrapper orig this args st)
  | OpUpd k v => snd (upd k v st)
  end.

(** The operations from which [preferStereoOutput] can be reached. *)
Definition reaches_stereo (op : operation) : bool :=
  match op with
  | OpLoad | OpTick | OpCallStart | OpJoin _ _ _ => true
  | _ => false
  end.

(** Number of registry discoveries ([getModules] runs) in a trace. *)
Definition discoveries (tr : list event) : nat := entered InGetModules tr.



(** ** What the signature search is meant to return *)

(** The exported object of a module record: [modl?.exports ?? modl]. *)
Definition payload (h : gmap loc obj) (modl : value) : outcome value :=
  match (if nullish modl then Ok VUndef else read h modl "exports") with
  | Ok e => Ok (if nullish e then modl else e)
  | Throw e => Throw e
  end.

(** A non-null value of type "object". *)
Definition object_like (h : gmap loc obj) (v : value) : Prop :=
  exists l, v = VRef l /\ forall c, okind (obj_at h l) <> Function c.

(** [p in v]: an own or an inherited property. *)
Definition visible (h : gmap loc obj) (v : value) (p : string) : Prop :=
  exists l, v = VRef l /\ is_Some (lookup_prop (obj_at h l) p).

(** [p] is an own property of [v]. *)
Definition own_visible (h : gmap loc obj) (v : value) (p : string) : Prop :=
  exists l, v = VRef l /\ is_Some (assoc p (own (obj_at h l))).

(** Module [modl] offers [v] for the signature [props]: [v] is its exported
    object, or else that object's [default], and has every required member
    (for the notion [vis] of having a member). *)
Inductive offers (vis : gmap loc obj -> value -> string -> Prop)
    (h : gmap loc obj) (props : list string) (modl : value)
    : value -> Prop :=
| offers_export exp :
    payload h modl = Ok exp ->
    object_like h exp ->
    (forall p, p ∈ props -> vis h exp p) ->
    offers vis h props modl exp
| offers_default exp d :
    payload h modl = Ok exp ->
    object_like h exp ->
    ~ (forall p, p ∈ props -> vis h exp p) ->
    read h exp "default" = Ok d ->
    object_like h d ->
    (forall p, p ∈ props -> vis h d p) ->
    offers vis h props modl d.

(** [r] is what the first offering module of [mods] offers, or null when
    none offers anything. *)
Definition first_offer (vis : gmap loc obj -> value -> string -> Prop)
    (h : gmap loc obj) (props : list string) (mods : list value)
    (r : value) : Prop :=
  (exists i modl,
     mods !! i = Some modl /\ offers vis h props modl r /\
     forall j m, (j < i)%nat -> mods !! j = Some m ->
                 forall v, ~ offers vis h props m v) \/
  (r = VNull /\
   forall modl, modl ∈ mods -> forall v, ~ offers vis h props modl v).

(** The outcome of one probe, as a function of the heap. *)
Definition probe_object (h : gmap loc obj) (props : list string) (v : value)
    : option bool :=
  match v with
  | VRef l =>
      match okind (obj_at h l) with
      | Function _ => None
      | _ => Some (forallb (has_prop (obj_at h l)) props)
      end
  | _ => None
  end.

Definition probe_result (h : gmap loc obj) (props : list string)
    (modl : value) : option value :=
  match payload h modl with
  | Throw _ => None
  | Ok exp =>
      match probe_object h props exp with
      | None => None
      | Some true => Some exp
      | Some false =>
          match read h exp "default" with
          | Throw _ => None
          | Ok d =>
              match probe_object h props d with
              | Some true => Some d
              | _ => None
              end
          end
      end
  end.


(** A registry whose only module exports a store with its methods on the
    prototype, as class instances have them. *)
Definition proto_heap : gmap loc obj :=
  list_to_map
    [(1%positive, Obj [("modules", Data (VRef 2))] [] Plain);
     (2%positive, Obj [] [] (Array [VRef 3]));
     (3%positive, module_of 4);
     (4%positive, Obj [] [method "isInCall"] Plain);
     (20%positive, Obj [] [] (Function Native))].

Definition proto_state : State := boot proto_heap (demo_host (Ok VUndef)).


(** The events [m] adds to the trace when run from [st]. *)
Definition emitted {A} (m : M A) (st : State) : list event :=
  drop (length (trace st)) (trace (snd (m st))).

(** [st] with the flag [k] of the plugin's own [Settings] object set. *)
Definition with_flag (k : string) (b : bool) (st : State) : State :=
  match write (heap st) (VRef (Settings st)) k (VBool b) with
  | Ok h => set_heap h st
  | Throw _ => st
  end.

(** The loaded plugin in the demo host, the original calls resolving. *)
Definition demo_state : State := demo (Ok (VStr "done")).

(** The demo host outside a call: every host function answers false. *)
Definition idle_state : State :=
  snd (load_modules (boot demo_heap (fun _ => Ok (VBool false)))).

(** [e] is not a call of a host method. *)
Definition no_call (e : event) : Prop :=
  match e with
  | Call _ _ _ => False
  | _ => True
  end.

(** After load, the host makes the [joinCall] slot an accessor that
    throws, so that the first revert fails. *)
Definition broken_slot_state : State :=
  let st := snd (onLoad demo_state) in
  set_heap
    (<[12%positive :=
         Obj [("joinCall", Accessor (VStr "frozen"));
              ("leaveCall", Data (VRef 26))] [] Plain]> (heap st)) st.

(** After load, the host replaces the player module's [default] export by
    another object. *)
Definition swapped_player_state : State :=
  set_heap
    (<[30%positive :=
         Obj [method "setChannelCount"; method "setSampleRate"] [] Plain]>
       (<[10%positive := Obj [("default", Data (VRef 30))] [] Plain]>
          (heap demo_state))) demo_state.


(** ** Frames *)

(** [extends ok st st']: [st'] is [st] with more events, all in [ok]. *)
Definition extends (ok : event -> Prop) (st st' : State) : Prop :=
  exists tr, st' = set_trace (trace st ++ tr) st /\ Forall ok tr.

(** Invariants that do not look at the trace. *)
Class Stable (I : State -> Prop) : Prop :=
  stable : forall st tr, I st -> I (set_trace tr st).

(** [sat I ok m]: from a state satisfying [I], [m] only appends events,
    all in [ok], and changes nothing else. *)
Definition sat {A} (I : State -> Prop) (ok : event -> Prop) (m : M A) : Prop :=
  forall st, I st -> extends ok st (snd (m st)).

(** [total m]: [m] never throws. *)
Definition total {A} (m : M A) : Prop :=
  forall st, exists a, fst (m st) = Ok a.

(** [keeps f m]: [m] leaves the quantity [f] as it is. *)
Definition keeps {X A} (f : State -> X) (m : M A) : Prop :=
  forall st, f (snd (m st)) = f st.

Definition any_event : event -> Prop := fun _ => True.

(** [m] runs [getModules] at least once, from any state satisfying [I]. *)
Definition rediscovers {A} (I : State -> Prop) (m : M A) : Prop :=
  forall st, I st ->
    exists tr, snd (m st) = set_trace (trace st ++ tr) st /\
               (1 <= discoveries tr)%nat.

(** ** What the policy may ask of the host *)

(** [r] has something truthy in slot [k]. *)
Definition has_method (h : gmap loc obj) (r : value) (k : string) : Prop :=
  exists m, read h r k = Ok m /\ truthy m = true.

(** The host calls of a registry search followed by the stereo
    preference: the registry accessor of [globalThis.__r], and the two
    settings of the player, each on an object that has the method. *)
Definition stereo_call (h : gmap loc obj) (r : value) (m : string)
    (a : list value) : Prop :=
  (m = "getModules" /\ a = [] /\ read h globalThis "__r" = Ok r) \/
  (m = "setChannelCount" /\ a = [VNum 2] /\ has_method h r "setChannelCount") \/
  (m = "setSampleRate" /\ a = [VNum 48000] /\ has_method h r "setSampleRate").

(** The host calls of the call-start policy: each method on the handle it
    belongs to, with the arguments index.ts passes, and the calls of
    [preferStereoOutput]. *)
Definition start_event (h : gmap loc obj) (hs : Handles) (e : event) : Prop :=
  match e with
  | Call r m a =>
      In (r, m, a)
        [(h_AttenuationStore hs, "setAttenuation", [VNum 0]);
         (h_MediaEngine hs, "setEchoCancellation", [VBool false]);
         (h_MediaEngine hs, "setNoiseSuppression", [VBool false]);
         (h_MediaEngine hs, "setAutomaticGainControl", [VBool false]);
         (h_MediaEngine hs, "setOpusEncoderEnableFEC", [VBool true]);
         (h_MediaEngine hs, "setOpusBitrate", [VNum 64000]);
         (h_DeviceManager hs, "isHeadsetConnected", []);
         (h_AudioManagerNative hs, "setMode", [VNum 0])] \/
      stereo_call h r m a
  | Apply _ _ _ => False
  | ConsoleLog l => head l = Some (VStr "[TelegramCalls]")
  | Enter m => m = InOnCallStart \/ m = InGetModules
  end.

(** The host calls of the call-end policy. *)
Definition end_event (hs : Handles) (e : event) : Prop :=
  match e with
  | Call r m a =>
      In (r, m, a)
        [(h_MediaEngine hs, "setEchoCancellation", [VBool true]);
         (h_MediaEngine hs, "setNoiseSuppression", [VBool true]);
         (h_MediaEngine hs, "setAutomaticGainControl", [VBool true])]
  | Apply _ _ _ => False
  | ConsoleLog l => head l = Some (VStr "[TelegramCalls]")
  | Enter m => m = InOnCallEnd
  end.

(** The host calls of a watchdog tick. *)
Definition tick_event (h : gmap loc obj) (hs : Handles) (e : event) : Prop :=
  match e with
  | Call r m a =>
      In (r, m, a)
        [(h_VoiceStore hs, "isInCall", []);
         (h_AttenuationStore hs, "setAttenuation", [VNum 0])] \/
      stereo_call h r m a
  | Apply _ _ _ => False
  | ConsoleLog l => head l = Some (VStr "[TelegramCalls]")
  | Enter m => m = InGetModules
  end.

Definition not_log (e : event) : Prop :=
  match e with
  | ConsoleLog _ => False
  | _ => True
  end.


(** [a in v && b in v], as a function of the heap. *)
Definition has_both (h : gmap loc obj) (v : value) (a b : string) : bool :=
  match v with
  | VRef l => has_prop (obj_at h l) a && has_prop (obj_at h l) b
  | _ => false
  end.

(** The slots [patchVoiceJoinLeave] chooses on a connection object. *)
Definition chosen_slots (h : gmap loc obj) (vc : value) : list string :=
  if has_both h vc "joinCall" "leaveCall" then ["joinCall"; "leaveCall"]
  else if has_both h vc "join" "leave" then ["join"; "leave"]
  else [].


(** ** The DSP switches, method by method *)

Definition is_call (e : event) : bool :=
  match e with
  | Call _ _ _ => true
  | _ => false
  end.

(** The host calls among the events [m] emits from [st]. *)
Definition host_calls_of {A} (m : M A) (st : State) : list event :=
  List.filter is_call (emitted m st).

(** The engine has something to call in slot [k]. *)
Definition offered (h : gmap loc obj) (me : value) (k : string) : bool :=
  match read h me k with
  | Ok f => negb (nullish f)
  | Throw _ => false
  end.

Definition dsp_relaxed : list (string * list value) :=
  [("setEchoCancellation", [VBool false]);
   ("setNoiseSuppression", [VBool false]);
   ("setAutomaticGainControl", [VBool false]);
   ("setOpusEncoderEnableFEC", [VBool true]);
   ("setOpusBitrate", [VNum 64000])].

Definition dsp_restored : list (string * list value) :=
  [("setEchoCancellation", [VBool true]);
   ("setNoiseSuppression", [VBool true]);
   ("setAutomaticGainControl", [VBool true])].

(** The calls of [plan] that the engine offers, in order. *)
Definition planned (h : gmap loc obj) (me : value)
    (plan : list (string * list value)) : list event :=
  map (fun ka => Call me (fst ka) (snd ka))
    (List.filter (fun ka => offered h me (fst ka)) plan).

(** Each slot of [plan] reads as missing or as a function, and the host's
    functions return normally. *)
Definition cooperative (st : State) (me : value)
    (plan : list (string * list value)) : Prop :=
  (forall k a, In (k, a) plan ->
     exists f, read (heap st) me k = Ok f /\
               (nullish f = true \/ callable st f = true)) /\
  (forall tr, exists v, host st tr = Ok v).


(** A host whose registry is reached through [__r.getModules()], beside a
    usable [modules] array; the accessor throws. *)
Definition accessor_heap : gmap loc obj :=
  list_to_map
    [(1%positive,
      Obj [("modules", Data (VRef 2)); ("__r", Data (VRef 5))] [] Plain);
     (2%positive, Obj [] [] (Array [VRef 3]));
     (3%positive, module_of 4);
     (4%positive, Obj [method "getAttenuation"; method "setAttenuation"] [] Plain);
     (5%positive, Obj [method "getModules"] [] Plain);
     (20%positive, Obj [] [] (Function Native))].

Definition accessor_state : State :=
  boot accessor_heap (fun _ => Throw (VStr "not ready")).



(** ** Further example hosts *)

(** The plugin loaded in a host whose registry has a voice store only. *)
Definition bare_state : State :=
  snd (load_modules (boot proto_heap (demo_host (Ok VUndef)))).

(** A registry holding the plugin's own settings module: its default
    export is the component function, named as settings.tsx names it. *)
Definition named_heap : gmap loc obj :=
  list_to_map
    [(1%positive, Obj [("modules", Data (VRef 2))] [] Plain);
     (2%positive, Obj [] [] (Array [VRef 3]));
     (3%positive, module_of 4);
     (4%positive, Obj [("default", Data (VRef 5))] [] Plain);
     (5%positive,
      Obj [("name", Data (VStr "SettingsComponent"));
           ("displayName", Data (VStr "TelegramCallsSettings"))] []
        (Function Native))].

Definition named_state : State := boot named_heap (demo_host (Ok VUndef)).

(** A host without any of the registry access points. *)
Definition plain_state : State :=
  boot (list_to_map [(1%positive, Obj [] [] Plain)]) (demo_host (Ok VUndef)).

(** The loaded plugin beside a timer of the host's own. *)
Definition host_timer_state : State :=
  snd (startWatchdog (set_timer {[ 1%positive := 500 ]} None demo_state)).



(** * build.mjs: the repository builder *)

(** ** JSON values, as [JSON.parse] returns them *)

(** The members of an object are those of the parsed object, each key
    once, in the order of the object's own keys. *)

(** A number, by what the build script can observe of it: whether it is
    zero (and so falsy), and its text in a template literal. *)
Record number : Type := MkNumber { is_zero : bool; digits : string }.

#[warnings="-register-all"] Inductive json : Type :=
| JNull
| JBool (b : bool)
| JNum (n : number)
| JStr (s : string)
| JArr (items : list json)
| JObj (fields : list (string * json)).

(** Sequencing of code that may throw. *)
Definition and_then {A B} (m : outcome A) (k : A -> outcome B) : outcome B :=
  match m with
  | Ok a => k a
  | Throw e => Throw e
  end.

Notation "'let?' x ':=' m 'in' k" := (and_then m (fun x => k))
  (at level 10, x name, m at level 100, k at level 200) : js_scope.

Definition truthy_json (j : json) : bool :=
  match j with
  | JNull => false
  | JBool b => b
  | JNum n => negb (is_zero n)
  | JStr s => negb (String.eqb s "")
  | JArr _ | JObj _ => true
  end.

(** [j.k] for the keys the script reads, none of which is a built-in
    property of a string, an array, a number or a boolean; [None] is
    [undefined]. *)
Definition member (j : json) (k : string) : outcome (option json) :=
  match j with
  | JNull => Throw TypeError
  | JObj fields => Ok (assoc k fields)
  | _ => Ok None
  end.

(** [j.k] on a value that is not null. *)
Definition opt_member (j : json) (k : string) : option json :=
  match member j k with
  | Ok x => x
  | Throw _ => None
  end.

(** [x || d] *)
Definition or_json (x : option json) (d : json) : json :=
  match x with
  | Some j => if truthy_json j then j else d
  | None => d
  end.

(** [x ?? d] *)
Definition coalesce (x : option json) (d : json) : json :=
  match x with
  | Some JNull | None => d
  | Some j => j
  end.

(** [items.join(",")], given the text of an element. *)
Fixpoint join_texts (item : json -> outcome string) (items : list json)
    : outcome string :=
  match items with
  | [] => Ok ""
  | [x] => item x
  | x :: rest =>
      let? a := item x in
      let? b := join_texts item rest in
      Ok (a +:+ "," +:+ b)
  end.

(** The text of a value inside a template literal.  An object is
    converted through its [toString]: the inherited one gives
    "[object Object]", while an own member named [toString], which in JSON
    is never a function, leaves nothing to call ([valueOf] returns the
    object itself) and the conversion throws a TypeError.  An array joins
    the texts of its elements, null giving the empty text, and throws
    where an element does. *)
Fixpoint to_string (j : json) : outcome string :=
  match j with
  | JNull => Ok "null"
  | JBool true => Ok "true"
  | JBool false => Ok "false"
  | JNum n => Ok (digits n)
  | JStr s => Ok s
  | JArr items =>
      join_texts
        (fun x => match x with JNull => Ok "" | _ => to_string x end) items
  | JObj fields =>
      match assoc "toString" fields with
      | Some _ => Throw TypeError
      | None => Ok "[object Object]"
      end
  end.

(** ** getBaseUrl *)

(** A value of [process.env] counts when it is set and not empty. *)
Definition truthy_str (x : option string) : bool :=
  match x with
  | Some s => negb (String.eqb s "")
  | None => false
  end.

(** [s.replace(/\/+$/, "")] *)
Fixpoint strip_slashes (s : string) : string :=
  match s with
  | EmptyString => ""
  | String c rest =>
      let t := strip_slashes rest in
      if String.eqb (String c "") "/" && String.eqb t "" then "" else String c t
  end.

(** [None] is [undefined]: with [GITHUB_REPOSITORY] set the function runs
    off its end, the return statement of that branch being commented
    out. *)
Definition getBaseUrl (env : string -> option string) : option string :=
  let explicit :=
    if truthy_str (env "REPO_BASE_URL") then env "REPO_BASE_URL"
    else env "PAGES_BASE_URL" in
  if truthy_str explicit then option_map strip_slashes explicit
  else
    let repo := env "GITHUB_REPOSITORY" in
    if negb (truthy_str repo) then Some "http://localhost:4173"
    else None.

(** [`${baseUrl}`] *)
Definition show_url (baseUrl : option string) : string :=
  match baseUrl with
  | Some s => s
  | None => "undefined"
  end.

(** ** normalizeAuthor *)

(** [if (a.k) out.k = a.k] *)
Definition copy_if_truthy (k : string) (x : option json)
    (out : list (string * json)) : list (string * json) :=
  match x with
  | Some j => if truthy_json j then assoc_set k j out else out
  | None => out
  end.

Definition normalizeAuthor (a : json) : outcome json :=
  match a with
  | JStr _ => Ok (JObj [("name", a)])
  | _ =>
      let? name := member a "name" in
      let out := [("name", coalesce name (JStr "Unknown"))] in
      let? id := member a "id" in
      let out := copy_if_truthy "id" id out in
      let? icon := member a "icon" in
      let out := copy_if_truthy "icon" icon out in
      Ok (JObj out)
  end.

(** ** bundlePlugin: the descriptor *)

(** [items.map(f)], stopping at the first element on which [f] throws. *)
Fixpoint map_throwing {A B} (f : A -> outcome B) (items : list A)
    : outcome (list B) :=
  match items with
  | [] => Ok []
  | x :: rest =>
      let? y := f x in
      let? ys := map_throwing f rest in
      Ok (y :: ys)
  end.

(** [...(x ? { k: x } : {})] *)
Definition spread_if_truthy (k : string) (x : option json)
    : list (string * json) :=
  match x with
  | Some j => if truthy_json j then [(k, j)] else []
  | None => []
  end.

(** The name of the bundle in [dist/plugins]:
    [`${manifest.id || plugin.id}.js`]. *)
Definition bundle_name (manifest plugin_id : json) : outcome string :=
  let? mid := member manifest "id" in
  let? text := to_string (or_json mid plugin_id) in
  Ok (text +:+ ".js").

(** The descriptor [bundlePlugin] writes and returns, from the parsed
    manifest, the id found by discovery, the base URL and the hex digest
    of the bundle. *)
Definition pluginJson (manifest plugin_id : json) (baseUrl : option string)
    (hashHex : string) : outcome json :=
  let hash := "SHA-256:" +:+ hashHex in
  let? mid := member manifest "id" in
  let id := or_json mid plugin_id in
  let? text := to_string id in
  let jsUrl := show_url baseUrl +:+ "/plugins/" +:+ text +:+ ".js" in
  let? mauthors := member manifest "authors" in
  let? authors :=
    match mauthors with
    | Some (JArr items) => map_throwing normalizeAuthor items
    | Some a =>
        if truthy_json a then let? x := normalizeAuthor a in Ok [x]
        else Ok []
    | None => Ok []
    end in
  let? name := member manifest "name" in
  let? description := member manifest "description" in
  let? version := member manifest "version" in
  let? icon := member manifest "icon" in
  let? source := member manifest "source" in
  let? license := member manifest "license" in
  Ok (JObj
        ([("id", id);
          ("name", coalesce name id);
          ("description", coalesce description (JStr ""));
          ("version", coalesce version (JStr "0.0.0"));
          ("authors", JArr authors);
          ("updateUrl", JStr (show_url baseUrl +:+ "/index.json"));
          ("js", JStr jsUrl);
          ("hash", JStr hash)] ++
         spread_if_truthy "icon" icon ++
         spread_if_truthy "source" source ++
         spread_if_truthy "license" license)).

(** ** discoverPlugins *)

Record dirent : Type := MkDirent { d_name : string; isDirectory : bool }.

(** The file system as the discovery reads it: whether [fs.stat]
    succeeds, what [fs.readdir] lists, and what [readJSON] parses. *)
Record FS : Type := MkFS {
  fs_stat : string -> bool;
  fs_readdir : string -> outcome (list dirent);
  readJSON : string -> outcome json
}.

(** [process.cwd()] and the functions of [node:path] the script uses. *)
Record Paths : Type := MkPaths {
  ROOT : string;
  path_join : string -> string -> string;
  path_basename : string -> string
}.

Definition PLUGINS_DIR (px : Paths) : string := path_join px (ROOT px) "plugins".

Record plugin : Type := MkPlugin {
  p_id : json;
  p_dir : string;
  p_manifestPath : string
}.

(** [exists]: [fs.stat] inside [try { } catch { }]. *)
Definition exists_ (fs : FS) (p : string) : bool := fs_stat fs p.

Definition no_plugins : value :=
  VStr "No plugins found. Place them in ./plugins/<id>/manifest.json or provide ./manifest.json.".

(** The loop over the directory entries, pushing onto [plugins]. *)
Fixpoint scan_entries (px : Paths) (fs : FS) (entries : list dirent)
    (plugins : list plugin) : list plugin :=
  match entries with
  | [] => plugins
  | ent :: rest =>
      if negb (isDirectory ent) then scan_entries px fs rest plugins
      else
        let dir := path_join px (PLUGINS_DIR px) (d_name ent) in
        let manifestPath := path_join px dir "manifest.json" in
        if exists_ fs manifestPath then
          scan_entries px fs rest
            (plugins ++ [MkPlugin (JStr (d_name ent)) dir manifestPath])
        else scan_entries px fs rest plugins
  end.

Definition discoverPlugins (px : Paths) (fs : FS) : outcome (list plugin) :=
  let? plugins :=
    if exists_ fs (PLUGINS_DIR px) then
      let? entries := fs_readdir fs (PLUGINS_DIR px) in
      Ok (scan_entries px fs entries [])
    else
      let manifestPath := path_join px (ROOT px) "manifest.json" in
      if exists_ fs manifestPath then
        let? manifest := readJSON fs manifestPath in
        let? mid := member manifest "id" in
        let id := or_json mid (JStr (path_basename px (ROOT px))) in
        Ok [MkPlugin id (ROOT px) manifestPath]
      else Ok [] in
  if Nat.eqb (length plugins) 0 then Throw no_plugins else Ok plugins.

(** ** safePkgName and the name of the index *)

(** [None] is [undefined] (a package.json without a name). *)
Definition safePkgName (px : Paths) (fs : FS) : option json :=
  match (let? pkg := readJSON fs (path_join px (ROOT px) "package.json") in
         member pkg "name") with
  | Ok name => name
  | Throw _ => Some JNull
  end.

(** [(await safePkgName()) || "Plugin Repo"], the [name] of index.json. *)
Definition index_name (px : Paths) (fs : FS) : json :=
  or_json (safePkgName px fs) (JStr "Plugin Repo").

(** ** Vocabulary for the builder *)

(** [n] slashes. *)
Fixpoint slashes (n : nat) : string :=
  match n with
  | O => ""
  | S n' => "/" +:+ slashes n'
  end.

(** The shape [{ name, id?, icon? }] with a name that is not null and
    truthy optional members. *)
Definition author_shape (j : json) : bool :=
  match j with
  | JObj (("name", n) :: rest) =>
      match n with JNull => false | _ => true end &&
      forallb (fun kv => truthy_json (snd kv)) rest &&
      match map fst rest with
      | [] | ["id"] | ["icon"] | ["id"; "icon"] => true
      | _ => false
      end
  | _ => false
  end.

(** The own keys of an object, in order. *)
Definition keys (j : json) : list string :=
  match j with
  | JObj fields => map fst fields
  | _ => []
  end.

(** The directory entries discovery turns into plugins. *)
Definition has_manifest (px : Paths) (fs : FS) (ent : dirent) : bool :=
  isDirectory ent &&
  exists_ fs
    (path_join px (path_join px (PLUGINS_DIR px) (d_name ent)) "manifest.json").

(** The optional members a manifest passes on to its descriptor. *)
Definition optional_keys (manifest : json) : list string :=
  List.filter
    (fun k =>
       match opt_member manifest k with
       | Some j => truthy_json j
       | None => false
       end)
    ["icon"; "source"; "license"].

(** [j] is, or holds through arrays, an object with an own member named
    [toString]. *)
Fixpoint owns_toString (j : json) : bool :=
  match j with
  | JArr items => existsb owns_toString items
  | JObj fields =>
      match assoc "toString" fields with
      | Some _ => true
      | None => false
      end
  | _ => false
  end.

(** The text of a value that has one. *)
Definition text_of (j : json) : string :=
  match to_string j with
  | Ok s => s
  | Throw _ => ""
  end.

(** The descriptor, member by member, for given normalised authors. *)
Definition descriptor (m pid : json) (b : option string) (h : string)
    (authors : list json) : json :=
  let id := or_json (opt_member m "id") pid in
  JObj
    ([("id", id);
      ("name", coalesce (opt_member m "name") id);
      ("description", coalesce (opt_member m "description") (JStr ""));
      ("version", coalesce (opt_member m "version") (JStr "0.0.0"));
      ("authors", JArr authors);
      ("updateUrl", JStr (show_url b +:+ "/index.json"));
      ("js", JStr (show_url b +:+ "/plugins/" +:+ text_of id +:+ ".js"));
      ("hash", JStr ("SHA-256:" +:+ h))] ++
     spread_if_truthy "icon" (opt_member m "icon") ++
     spread_if_truthy "source" (opt_member m "source") ++
     spread_if_truthy "license" (opt_member m "license")).

(** The normalised authors of a manifest. *)
Definition authors_of (m : json) : outcome (list json) :=
  match opt_member m "authors" with
  | Some (JArr items) => map_throwing normalizeAuthor items
  | Some a =>
      if truthy_json a then let? x := normalizeAuthor a in Ok [x] else Ok []
  | None => Ok []
  end.

Definition plugin_of (px : Paths) (ent : dirent) : plugin :=
  MkPlugin (JStr (d_name ent))
    (path_join px (PLUGINS_DIR px) (d_name ent))
    (path_join px (path_join px (PLUGINS_DIR px) (d_name ent)) "manifest.json").


(** ** Example inputs for the builder *)

Definition pages_env (k : string) : option string :=
  if String.eqb k "PAGES_BASE_URL" then Some "https://example.org/repo//"
  else if String.eqb k "GITHUB_REPOSITORY" then Some "owner/repo"
  else None.

Definition actions_env (k : string) : option string :=
  if String.eqb k "GITHUB_REPOSITORY" then Some "owner/repo" else None.

Definition demo_manifest : json :=
  JObj [("name", JStr "TelegramCalls");
        ("description", JNull);
        ("authors", JArr [JStr "someone"; JObj [("id", JStr "42")]]);
        ("main", JStr "src/index.ts");
        ("license", JStr "MIT")].

Definition posix : Paths :=
  MkPaths "/repo" (fun a b => a +:+ "/" +:+ b) (fun _ => "repo").

(** A repository with [plugins/TelegramCalls/manifest.json], a stray file
    and an empty directory in [plugins], and a root manifest. *)
Definition demo_fs : FS :=
  MkFS
    (fun p =>
       String.eqb p "/repo/plugins" ||
       String.eqb p "/repo/plugins/TelegramCalls/manifest.json" ||
       String.eqb p "/repo/manifest.json")
    (fun p =>
       if String.eqb p "/repo/plugins" then
         Ok [MkDirent "README.md" false; MkDirent "TelegramCalls" true;
             MkDirent "drafts" true]
       else Throw (VStr "ENOENT"))
    (fun p =>
       if String.eqb p "/repo/plugins/TelegramCalls/manifest.json" then
         Ok demo_manifest
       else if String.eqb p "/repo/manifest.json" then
         Ok (JObj [("id", JStr "root")])
       else Throw (VStr "ENOENT")).

(** The same repository without its [plugins] directory. *)
Definition single_fs : FS :=
  MkFS (fun p => String.eqb p "/repo/manifest.json")
    (fs_readdir demo_fs) (readJSON demo_fs).


(** * Reasoning principles *)

(** ** Frames: code that only appends events *)

Lemma set_trace_id st : set_trace (trace st) st = st.
Proof. by destruct st. Qed.

Lemma set_trace_twice tr tr' st :
  set_trace tr (set_trace tr' st) = set_trace tr st.
Proof. done. Qed.

Lemma extends_refl ok st : extends ok st st.
Proof.
  exists []. split; [|constructor].
  by rewrite app_nil_r, set_trace_id.
Qed.

Lemma extends_trans ok st1 st2 st3 :
  extends ok st1 st2 -> extends ok st2 st3 -> extends ok st1 st3.
Proof.
  intros (tr & -> & H1) (tr' & -> & H2).
  exists (tr ++ tr'). split; [|by apply Forall_app].
  simpl. by rewrite set_trace_twice, app_assoc.
Qed.

Lemma extends_weaken (ok ok' : event -> Prop) st st' :
  (forall e, ok e -> ok' e) -> extends ok st st' -> extends ok' st st'.
Proof.
  intros Hw (tr & -> & H). exists tr. split; [done|].
  eapply Forall_impl; eauto.
Qed.

Lemma extends_one (ok : event -> Prop) e st :
  ok e -> extends ok st (set_trace (trace st ++ [e]) st).
Proof. intros H. exists [e]. split; [done|]. by repeat constructor. Qed.

#[global] Instance stable_true : Stable (fun _ => True).
Proof. by intros ? ? ?. Qed.

#[global] Instance stable_flag k b : Stable (fun st => flag k st = b).
Proof. by intros ? ? ?. Qed.

#[global] Instance stable_and I J :
  Stable I -> Stable J -> Stable (fun st => I st /\ J st).
Proof. intros HI HJ st tr [? ?]. split; by apply stable. Qed.

Section Frame.
Context {I : State -> Prop} `{!Stable I} {ok : event -> Prop}.

Lemma sat_ret {A} (a : A) : sat I ok (ret a).
Proof. intros st _. apply extends_refl. Qed.

Lemma sat_throw {A} e : sat I ok (@throw A e).
Proof. intros st _. apply extends_refl. Qed.

Lemma sat_gets {A} (f : State -> A) : sat I ok (gets f).
Proof. intros st _. apply extends_refl. Qed.

Lemma sat_lift {A} (f : State -> outcome A) : sat I ok (lift f).
Proof. intros st _. apply extends_refl. Qed.

Lemma sat_emit e : ok e -> sat I ok (emit e).
Proof. intros H st _. by apply extends_one. Qed.

Lemma sat_host_call e : ok e -> sat I ok (host_call e).
Proof. intros H st _. by apply extends_one. Qed.

Lemma extends_inv st st' : I st -> extends ok st st' -> I st'.
Proof. intros HI (tr & -> & _). by apply stable. Qed.

Lemma sat_bind {A B} (m : M A) (k : A -> M B) :
  sat I ok m -> (forall a, sat I ok (k a)) -> sat I ok (bind m k).
Proof.
  intros Hm Hk st HI. specialize (Hm st HI). unfold bind.
  destruct (m st) as [[a|e] st']; simpl in *; [|done].
  eapply extends_trans; [exact Hm|].
  apply Hk. eapply extends_inv; eauto.
Qed.

Lemma sat_try_catch {A} (m : M A) (h : value -> M A) :
  sat I ok m -> (forall e, sat I ok (h e)) -> sat I ok (try_catch m h).
Proof.
  intros Hm Hh st HI. specialize (Hm st HI). unfold try_catch.
  destruct (m st) as [[a|e] st']; simpl in *; [done|].
  eapply extends_trans; [exact Hm|].
  apply Hh. eapply extends_inv; eauto.
Qed.

Lemma sat_try_finally {A} (m : M A) (fin : M unit) :
  sat I ok m -> sat I ok fin -> sat I ok (try_finally m fin).
Proof.
  intros Hm Hf st HI. specialize (Hm st HI). unfold try_finally.
  destruct (m st) as [r st']; simpl in *.
  assert (extends ok st' (snd (fin st'))) as H'
    by (apply Hf; eapply extends_inv; eauto).
  destruct (fin st') as [[[]|e] st'']; simpl in *;
    eapply extends_trans; eauto.
Qed.

Lemma sat_when b (m : M unit) : (b = true -> sat I ok m) -> sat I ok (when b m).
Proof. destruct b; simpl; [auto|intros _; apply sat_ret]. Qed.

Lemma sat_if {A} (b : bool) (m1 m2 : M A) :
  (b = true -> sat I ok m1) -> (b = false -> sat I ok m2) ->
  sat I ok (if b then m1 else m2).
Proof. destruct b; auto. Qed.

(** A flag whose value the invariant fixes. *)
Lemma sat_flag {B} k b (K : bool -> M B) :
  (forall st, I st -> flag k st = b) ->
  sat I ok (K b) -> sat I ok (bind (gets (flag k)) K).
Proof.
  intros Hb HK st HI. unfold bind, gets. rewrite (Hb st HI). by apply HK.
Qed.
End Frame.

Section Totality.
Lemma total_ret {A} (a : A) : total (ret a).
Proof. intros st. by exists a. Qed.

Lemma total_gets {A} (f : State -> A) : total (gets f).
Proof. intros st. by exists (f st). Qed.

Lemma total_modify f : total (modify f).
Proof. intros st. by exists tt. Qed.

Lemma total_emit e : total (emit e).
Proof. apply total_modify. Qed.

Lemma total_bind {A B} (m : M A) (k : A -> M B) :
  total m -> (forall a, total (k a)) -> total (bind m k).
Proof.
  intros Hm Hk st. destruct (Hm st) as [a Ha]. unfold bind.
  destruct (m st) as [[a'|e] st']; simpl in *; [|done].
  apply Hk.
Qed.

Lemma total_try_catch {A} (m : M A) (h : value -> M A) :
  (forall e, total (h e)) -> total (try_catch m h).
Proof.
  intros Hh st. unfold try_catch.
  destruct (m st) as [[a|e] st']; [by exists a|apply Hh].
Qed.

Lemma total_when b (m : M unit) : total m -> total (when b m).
Proof. destruct b; [done|intros _; apply total_ret]. Qed.

Lemma total_if {A} (b : bool) (m1 m2 : M A) :
  total m1 -> total m2 -> total (if b then m1 else m2).
Proof. by destruct b. Qed.
End Totality.

Create HintDb frame.
#[global] Hint Resolve sat_ret sat_throw sat_gets sat_lift sat_bind
  sat_try_catch sat_try_finally sat_when sat_if : frame.
#[global] Hint Resolve total_ret total_gets total_modify total_emit
  total_bind total_try_catch total_when total_if : frame.

(** ** What each function of index.ts may emit *)

Ltac frame :=
  repeat first
    [ progress intros
    | apply sat_bind | apply sat_try_catch | apply sat_try_finally
    | apply sat_when | apply sat_if | apply sat_ret | apply sat_throw
    | apply sat_gets | apply sat_lift
    | apply sat_emit | apply sat_host_call
    | match goal with |- sat _ _ (if ?b then _ else _) => destruct b end
    | match goal with |- sat _ _ (match ?r with _ => _ end) => destruct r end
    | solve [eauto with frame] ].

Section Alphabet.
Context {I : State -> Prop} `{!Stable I} {ok : event -> Prop}.

Lemma sat_getp v k : sat I ok (getp v k).
Proof. apply sat_lift. Qed.

Lemma sat_opt_getp v k : sat I ok (opt_getp v k).
Proof. unfold opt_getp. destruct (nullish v); [apply sat_ret|apply sat_lift]. Qed.

Lemma sat_in_op k v : sat I ok (in_op k v).
Proof. apply sat_lift. Qed.

Lemma sat_call_value recv k f args :
  ok (Call recv k args) -> sat I ok (call_value recv k f args).
Proof. unfold call_value. frame. Qed.

Lemma sat_invoke recv k args :
  ok (Call recv k args) -> sat I ok (invoke recv k args).
Proof.
  intros. unfold invoke. apply sat_bind; [apply sat_getp|].
  intros. by apply sat_call_value.
Qed.

Lemma sat_opt_invoke recv k args :
  ok (Call recv k args) -> sat I ok (opt_invoke recv k args).
Proof.
  intros. unfold opt_invoke. apply sat_bind; [apply sat_getp|].
  intros f. destruct (nullish f); [apply sat_ret|by apply sat_call_value].
Qed.

Lemma sat_log args : (forall a, ok (ConsoleLog a)) -> sat I ok (log args).
Proof. intros. unfold log. frame. Qed.

Lemma sat_every_in props v : sat I ok (every_in props v).
Proof.
  induction props as [|p ps IH]; simpl; [apply sat_ret|].
  apply sat_bind; [apply sat_in_op|]. intros []; [done|apply sat_ret].
Qed.

Lemma sat_probe props modl : sat I ok (probe props modl).
Proof.
  unfold probe.
  apply sat_bind; [apply sat_opt_getp|intros e; cbv zeta].
  apply sat_bind; [apply sat_gets|intros o].
  destruct (negb o); [apply sat_ret|].
  apply sat_bind; [apply sat_every_in|intros all].
  destruct all; [apply sat_ret|].
  apply sat_bind; [apply sat_getp|intros d].
  apply sat_bind; [apply sat_gets|intros od].
  destruct od; [|apply sat_ret].
  apply sat_bind; [apply sat_every_in|intros []; apply sat_ret].
Qed.

Lemma sat_scan_props props mods : sat I ok (scan_props props mods).
Proof.
  induction mods as [|modl rest IH]; simpl; [apply sat_ret|].
  apply sat_bind.
  - apply sat_try_catch; [apply sat_probe|intros; apply sat_ret].
  - intros [v|]; [apply sat_ret|done].
Qed.

Lemma sat_isInCall :
  (forall r a, ok (Call r "isInCall" a)) -> sat I ok isInCall.
Proof.
  intros. unfold isInCall. apply sat_bind; [apply sat_gets|].
  intros vs. destruct (nullish vs); [apply sat_ret|by apply sat_opt_invoke].
Qed.

Lemma sat_isWiredHeadphones :
  (forall r a, ok (Call r "isHeadsetConnected" a)) ->
  sat I ok isWiredHeadphones.
Proof.
  intros. unfold isWiredHeadphones.
  apply sat_try_catch; [|intros; apply sat_ret].
  apply sat_bind; [apply sat_gets|]. intros dm.
  apply sat_bind; [apply sat_opt_getp|]. intros m.
  destruct (truthy m); [|apply sat_ret].
  apply sat_bind; [by apply sat_invoke|intros; apply sat_ret].
Qed.

Lemma sat_safeSetAudioModeNormal :
  (forall r a, ok (Call r "setMode" a)) -> (forall a, ok (ConsoleLog a)) ->
  sat I ok safeSetAudioModeNormal.
Proof.
  intros. unfold safeSetAudioModeNormal.
  apply sat_try_catch; [|intros; by apply sat_log].
  apply sat_bind; [apply sat_gets|]. intros am.
  apply sat_bind; [apply sat_opt_getp|]. intros m.
  destruct (negb (truthy m)); [apply sat_ret|].
  apply sat_bind; [by apply sat_invoke|intros; by apply sat_log].
Qed.

Lemma sat_ensureMediaStreamNotDucked :
  (forall r a, ok (Call r "setAttenuation" a)) ->
  (forall a, ok (ConsoleLog a)) ->
  sat I ok ensureMediaStreamNotDucked.
Proof.
  intros. unfold ensureMediaStreamNotDucked.
  apply sat_try_catch; [|intros; by apply sat_log].
  apply sat_bind; [apply sat_gets|]. intros am.
  apply sat_bind; [apply sat_opt_getp|]. intros m.
  destruct (negb (truthy m)); [apply sat_ret|].
  apply sat_bind; [by apply sat_invoke|intros; by apply sat_log].
Qed.

Lemma sat_relaxMicProcessing :
  (forall r a, ok (Call r "setEchoCancellation" a)) ->
  (forall r a, ok (Call r "setNoiseSuppression" a)) ->
  (forall r a, ok (Call r "setAutomaticGainControl" a)) ->
  (forall r a, ok (Call r "setOpusEncoderEnableFEC" a)) ->
  (forall r a, ok (Call r "setOpusBitrate" a)) ->
  (forall a, ok (ConsoleLog a)) ->
  sat I ok relaxMicProcessing.
Proof.
  intros. unfold relaxMicProcessing.
  apply sat_bind; [apply sat_gets|]. intros me.
  destruct (negb (truthy me)); [apply sat_ret|].
  apply sat_try_catch; [|intros; by apply sat_log].
  repeat (apply sat_bind; [by apply sat_opt_invoke|intros _]).
  by apply sat_log.
Qed.

Lemma sat_onCallEnd_body :
  (forall r a, ok (Call r "setEchoCancellation" a)) ->
  (forall r a, ok (Call r "setNoiseSuppression" a)) ->
  (forall r a, ok (Call r "setAutomaticGainControl" a)) ->
  (forall a, ok (ConsoleLog a)) ->
  sat I ok
    (try_catch
       (let* r := gets (flag "relaxMicDSP") in
        let* me := gets MediaEngine in
        if r && truthy me then
          opt_invoke me "setEchoCancellation" [VBool true] >>
          opt_invoke me "setNoiseSuppression" [VBool true] >>
          opt_invoke me "setAutomaticGainControl" [VBool true] >>
          log [VStr "Restored mic DSP defaults"]
        else ret tt)
       (fun _ => ret tt)).
Proof.
  intros.
  apply sat_try_catch; [|intros; apply sat_ret].
  apply sat_bind; [apply sat_gets|]. intros r.
  apply sat_bind; [apply sat_gets|]. intros me.
  destruct (r && truthy me); [|apply sat_ret].
  repeat (apply sat_bind; [by apply sat_opt_invoke|intros _]).
  by apply sat_log.
Qed.

Lemma sat_getModules :
  ok (Enter InGetModules) -> (forall r a, ok (Call r "getModules" a)) ->
  sat I ok getModules.
Proof.
  intros. unfold getModules.
  apply sat_bind; [by apply sat_emit|intros _].
  apply sat_bind; [apply sat_getp|intros gm].
  apply sat_bind; [apply sat_getp|intros r].
  apply sat_bind.
  { destruct (nullish r); [apply sat_ret|by apply sat_opt_invoke]. }
  intros rg.
  apply sat_bind; [apply sat_getp|intros r'].
  apply sat_bind; [apply sat_opt_getp|intros rm].
  apply sat_bind; [apply sat_getp|intros c].
  apply sat_bind; [apply sat_opt_getp|intros cm].
  apply sat_lift.
Qed.

Lemma sat_findByProps props :
  ok (Enter InGetModules) -> (forall r a, ok (Call r "getModules" a)) ->
  sat I ok (findByProps props).
Proof.
  intros. unfold findByProps.
  apply sat_bind; [by apply sat_getModules|intros; apply sat_scan_props].
Qed.

Lemma sat_preferStereoOutput :
  ok (Enter InGetModules) -> (forall r a, ok (Call r "getModules" a)) ->
  (forall r a, ok (Call r "setChannelCount" a)) ->
  (forall r a, ok (Call r "setSampleRate" a)) ->
  (forall a, ok (ConsoleLog a)) ->
  sat I ok preferStereoOutput.
Proof.
  intros. unfold preferStereoOutput.
  apply sat_try_catch; [|intros; by apply sat_log].
  apply sat_bind; [by apply sat_findByProps|intros p].
  apply sat_bind.
  { destruct (truthy p); [apply sat_ret|by apply sat_findByProps]. }
  intros Player.
  apply sat_bind; [apply sat_opt_getp|intros cc].
  apply sat_bind.
  { apply sat_when. intros _.
    apply sat_bind; [by apply sat_invoke|intros; apply sat_ret]. }
  intros _.
  apply sat_bind; [apply sat_opt_getp|intros sr].
  apply sat_bind.
  { apply sat_when. intros _.
    apply sat_bind; [by apply sat_invoke|intros; apply sat_ret]. }
  intros _. by apply sat_log.
Qed.
End Alphabet.

(** ** The policy actions never throw *)

Lemma total_log args : total (log args).
Proof.
  unfold log. apply total_bind; [apply total_gets|].
  intros v. apply total_when, total_emit.
Qed.

Lemma total_ensureMediaStreamNotDucked : total ensureMediaStreamNotDucked.
Proof. apply total_try_catch. intros. apply total_log. Qed.

Lemma total_preferStereoOutput : total preferStereoOutput.
Proof. apply total_try_catch. intros. apply total_log. Qed.

Lemma total_relaxMicProcessing : total relaxMicProcessing.
Proof.
  unfold relaxMicProcessing. apply total_bind; [apply total_gets|].
  intros me. apply total_if; [apply total_ret|].
  apply total_try_catch. intros. apply total_log.
Qed.

Lemma total_isWiredHeadphones : total isWiredHeadphones.
Proof. apply total_try_catch. intros. apply total_ret. Qed.

Lemma total_safeSetAudioModeNormal : total safeSetAudioModeNormal.
Proof. apply total_try_catch. intros. apply total_log. Qed.

Lemma total_if_flag k m : total m -> total (if_flag k m).
Proof.
  intros. unfold if_flag. apply total_bind; [apply total_gets|].
  intros b. by apply total_when.
Qed.

Lemma total_onCallStart : total onCallStart.
Proof.
  unfold onCallStart.
  apply total_bind; [apply total_emit|intros _].
  apply total_bind;
    [apply total_if_flag, total_ensureMediaStreamNotDucked|intros _].
  apply total_bind; [apply total_if_flag, total_preferStereoOutput|intros _].
  apply total_bind; [apply total_if_flag, total_relaxMicProcessing|intros _].
  apply total_if_flag.
  apply total_bind; [apply total_isWiredHeadphones|intros w].
  apply total_when, total_safeSetAudioModeNormal.
Qed.

Lemma total_onCallEnd : total onCallEnd.
Proof.
  unfold onCallEnd. apply total_bind; [apply total_emit|intros _].
  apply total_try_catch. intros. apply total_ret.
Qed.

(** ** Call start and the watchdog tick *)

Section Policy.
Context {I : State -> Prop} `{!Stable I} {ok : event -> Prop}.

Lemma sat_if_flag k m : sat I ok m -> sat I ok (if_flag k m).
Proof.
  intros. unfold if_flag. apply sat_bind; [apply sat_gets|].
  intros b. by apply sat_when.
Qed.

Lemma sat_if_flag_off k m :
  (forall st, I st -> flag k st = false) -> sat I ok (if_flag k m).
Proof. intros H. unfold if_flag. eapply sat_flag; [exact H|apply sat_ret]. Qed.

Lemma sat_wired_mode :
  (forall r a, ok (Call r "isHeadsetConnected" a)) ->
  (forall r a, ok (Call r "setMode" a)) -> (forall a, ok (ConsoleLog a)) ->
  sat I ok (let* w := isWiredHeadphones in when w safeSetAudioModeNormal).
Proof.
  intros. apply sat_bind; [by apply sat_isWiredHeadphones|].
  intros w. apply sat_when. intros _. by apply sat_safeSetAudioModeNormal.
Qed.
End Policy.

Ltac quiet := intros; reflexivity.

(** One guarded action of [onCallStart] or [tick]: either its flag is off
    under the invariant, or everything it emits is allowed. *)
Ltac guarded_action :=
  first
    [ apply sat_if_flag_off; intros ? ?; assumption
    | apply sat_if_flag;
      first [ apply sat_ensureMediaStreamNotDucked; quiet
            | apply sat_preferStereoOutput; quiet
            | apply sat_relaxMicProcessing; quiet
            | apply sat_wired_mode; quiet ] ].

Ltac policy_frame :=
  repeat first
    [ apply sat_bind; [first [guarded_action | apply sat_emit; quiet
                             | apply sat_isInCall; quiet]|intros ?]
    | guarded_action
    | apply sat_ret
    | match goal with |- sat _ _ (if ?b then _ else _) => destruct b end ].

Lemma flag_off_onCallStart k names st :
  (k, names) ∈ governed -> flag k st = false ->
  extends (silent names) st (snd (onCallStart st)).
Proof.
  intros Hin Hoff.
  assert (sat (fun s => flag k s = false) (silent names) onCallStart) as H;
    [|by apply H].
  unfold governed in Hin.
  repeat (apply elem_of_cons in Hin as [[= -> ->]|Hin]);
    [..|by apply elem_of_nil in Hin];
    unfold onCallStart; policy_frame.
Qed.

Lemma flag_off_tick k names st :
  (k, names) ∈ governed -> flag k st = false ->
  extends (silent names) st (snd (tick st)).
Proof.
  intros Hin Hoff.
  assert (sat (fun s => flag k s = false) (silent names) tick) as H;
    [|by apply H].
  unfold governed in Hin.
  repeat (apply elem_of_cons in Hin as [[= -> ->]|Hin]);
    [..|by apply elem_of_nil in Hin];
    unfold tick; policy_frame.
Qed.

(** C7: a setting that is off silences its action.  For each setting [k]
    with the host methods [names] its policy action requests: when
    [Settings.k] is false, neither the call-start policy nor a watchdog tick
    calls any of [names] (no attenuation request, no channel-count or
    sample-rate request, no mic-DSP change, no routing-mode request). *)
Theorem disabled_setting_never_requested k names st :
  (k, names) ∈ governed -> flag k st = false ->
  extends (silent names) st (snd (onCallStart st)) /\
  extends (silent names) st (snd (tick st)).
Proof.
  intros Hin Hoff. split;
    [by apply (flag_off_onCallStart k)|by apply (flag_off_tick k)].
Qed.

(** ** Counting entries of the policy functions *)

Lemma entered_app m tr tr' : entered m (tr ++ tr') = (entered m tr + entered m tr')%nat.
Proof. unfold entered. by rewrite filter_app, length_app. Qed.

Lemma entered_unmarked m tr : Forall (unmarked m) tr -> entered m tr = 0%nat.
Proof.
  unfold entered. induction 1 as [|e tr He _ IH]; [done|].
  rewrite filter_cons. unfold unmarked in He.
  destruct (decide (is_mark m e = true)); [congruence|done].
Qed.

Lemma entered_extends m st st' :
  extends (unmarked m) st st' -> entered m (trace st') = entered m (trace st).
Proof.
  intros (tr & -> & H). simpl.
  rewrite entered_app, (entered_unmarked _ _ H). lia.
Qed.

Lemma total_unit (m : M unit) st : total m -> m st = (Ok tt, snd (m st)).
Proof.
  intros H. destruct (H st) as [[] Ha].
  destruct (m st) as [r s]. simpl in *. by subst.
Qed.

Lemma apply_orig_extends (ok : event -> Prop) orig this args st :
  (forall c t a, ok (Apply c t a)) ->
  extends ok st (snd (apply_orig orig this args st)).
Proof.
  intros H.
  assert (sat (fun _ => True) ok (apply_orig orig this args)) as Hs;
    [|by apply Hs].
  unfold apply_orig. apply sat_bind; [apply sat_gets|].
  intros []; [by apply sat_host_call|apply sat_throw].
Qed.

(** The call-start policy enters [onCallStart] once. *)
Lemma onCallStart_once st :
  entered InOnCallStart (trace (snd (onCallStart st))) =
  S (entered InOnCallStart (trace st)).
Proof.
  set (st1 := set_trace (trace st ++ [Enter InOnCallStart]) st).
  assert (extends (unmarked InOnCallStart) st1 (snd (onCallStart st))) as H.
  { assert (sat (fun _ => True) (unmarked InOnCallStart)
              (if_flag "disableAttenuation" ensureMediaStreamNotDucked >>
               if_flag "keepStereoMedia" preferStereoOutput >>
               if_flag "relaxMicDSP" relaxMicProcessing >>
               if_flag "forceModeNormalOnWired"
                 (let* w := isWiredHeadphones in
                  when w safeSetAudioModeNormal))) as Hs
      by policy_frame.
    exact (Hs st1 Logic.I). }
  rewrite (entered_extends _ _ _ H). unfold st1. simpl.
  rewrite entered_app.
  change (entered InOnCallStart [Enter InOnCallStart]) with 1%nat. lia.
Qed.

(** The call-end policy enters [onCallEnd] once, and never throws. *)
Lemma onCallEnd_once st :
  entered InOnCallEnd (trace (snd (onCallEnd st))) =
  S (entered InOnCallEnd (trace st)).
Proof.
  set (st1 := set_trace (trace st ++ [Enter InOnCallEnd]) st).
  assert (extends (unmarked InOnCallEnd) st1 (snd (onCallEnd st))) as H.
  { refine (sat_onCallEnd_body (I := fun _ => True) _ _ _ _ st1 Logic.I);
      quiet. }
  rewrite (entered_extends _ _ _ H). unfold st1. simpl.
  rewrite entered_app.
  change (entered InOnCallEnd [Enter InOnCallEnd]) with 1%nat. lia.
Qed.

Lemma host_function_callable st f :
  host_function (heap st) f = true -> callable st f = true.
Proof.
  unfold host_function, callable, typeof. destruct f; try done.
  by destruct (okind (obj_at (heap st) l)) as [| |[]].
Qed.

Lemma apply_orig_host orig this args st :
  host_function (heap st) orig = true ->
  apply_orig orig this args st =
  (host st (trace st ++ [Apply orig this args]),
   set_trace (trace st ++ [Apply orig this args]) st).
Proof.
  intros H. unfold apply_orig, bind, gets.
  by rewrite (host_function_callable _ _ H).
Qed.

Lemma onCallStart_no_apply st :
  exists tr, trace (snd (onCallStart st)) = trace st ++ tr /\ Forall not_apply tr.
Proof.
  assert (sat (fun _ => True) not_apply onCallStart) as H.
  { unfold onCallStart. policy_frame. }
  destruct (H st Logic.I) as (tr & -> & Htr). by exists tr.
Qed.

Lemma onCallEnd_no_apply st :
  exists tr, trace (snd (onCallEnd st)) = trace st ++ tr /\ Forall not_apply tr.
Proof.
  assert (sat (fun _ => True) not_apply onCallEnd) as H.
  { unfold onCallEnd. apply sat_bind; [by apply sat_emit|intros _].
    apply sat_onCallEnd_body; quiet. }
  destruct (H st Logic.I) as (tr & -> & Htr). by exists tr.
Qed.

(** C10: the join wrapper, on an original that is a function of the
    host.  The wrapper calls the original first, once, with its own [this]
    and arguments.  When the host's call rejects, the wrapper rejects with
    the same reason, nothing else has happened and [onCallStart] is not
    entered; when it resolves with [res], the call-start policy then runs
    once, without calling the original again, and the wrapper resolves
    with [res].  There is no cleanup path. *)
Theorem join_wrapper_outcome orig this args st :
  host_function (heap st) orig = true ->
  let st1 := set_trace (trace st ++ [Apply orig this args]) st in
  match host st (trace st ++ [Apply orig this args]) with
  | Throw e =>
      joinWrapper orig this args st = (Throw e, st1) /\
      entered InOnCallStart (trace st1) = entered InOnCallStart (trace st)
  | Ok res =>
      joinWrapper orig this args st = (Ok res, snd (onCallStart st1)) /\
      entered InOnCallStart (trace (snd (onCallStart st1))) =
      S (entered InOnCallStart (trace st)) /\
      exists tr,
        trace (snd (onCallStart st1)) = trace st ++ Apply orig this args :: tr /\
        Forall not_apply tr
  end.
Proof.
  intros Hf st1.
  assert (entered InOnCallStart (trace st1) = entered InOnCallStart (trace st))
    as Hsame.
  { unfold st1. cbn [trace set_trace]. rewrite entered_app.
    change (entered _ [Apply orig this args]) with 0%nat. lia. }
  pose proof (apply_orig_host _ this args _ Hf) as Ha. fold st1 in Ha.
  unfold joinWrapper, bind. rewrite Ha.
  destruct (host st (trace st ++ [Apply orig this args])) as [res|e];
    [|by split].
  rewrite (total_unit onCallStart st1 total_onCallStart). cbn [fst snd].
  split; [done|]. split; [by rewrite onCallStart_once, Hsame|].
  destruct (onCallStart_no_apply st1) as (tr & -> & Htr).
  exists tr. split; [|done]. unfold st1. cbn [trace set_trace].
  by rewrite <- app_assoc.
Qed.

(** C2: the leave wrapper, on an original that is a function of the
    host.  The wrapper calls the original first, once, with its own [this]
    and arguments.  When the host's call rejects, [onCallEnd] is entered
    exactly once (the [finally] block) and the wrapper rejects with the
    same reason; when it resolves with [res], [onCallEnd] runs after the
    original and once more in the [finally] block, and the wrapper
    resolves with [res]. *)
Theorem leave_wrapper_outcome orig this args st :
  host_function (heap st) orig = true ->
  let st1 := set_trace (trace st ++ [Apply orig this args]) st in
  let st2 := snd (leaveWrapper orig this args st) in
  match host st (trace st ++ [Apply orig this args]) with
  | Throw e =>
      fst (leaveWrapper orig this args st) = Throw e /\
      st2 = snd (onCallEnd st1) /\
      entered InOnCallEnd (trace st2) = S (entered InOnCallEnd (trace st))
  | Ok res =>
      fst (leaveWrapper orig this args st) = Ok res /\
      st2 = snd (onCallEnd (snd (onCallEnd st1))) /\
      entered InOnCallEnd (trace st2) = S (S (entered InOnCallEnd (trace st)))
  end /\
  exists tr,
    trace st2 = trace st ++ Apply orig this args :: tr /\ Forall not_apply tr.
Proof.
  intros Hf st1 st2.
  assert (entered InOnCallEnd (trace st1) = entered InOnCallEnd (trace st))
    as Hsame.
  { unfold st1. cbn [trace set_trace]. rewrite entered_app.
    change (entered _ [Apply orig this args]) with 0%nat. lia. }
  assert (trace st1 = trace st ++ [Apply orig this args]) as Ht1 by done.
  pose proof (apply_orig_host _ this args _ Hf) as Ha. fold st1 in Ha.
  unfold st2, leaveWrapper, try_finally, bind. rewrite Ha.
  destruct (host st (trace st ++ [Apply orig this args])) as [res|e].
  - rewrite (total_unit onCallEnd st1 total_onCallEnd). unfold ret.
    rewrite (total_unit onCallEnd _ total_onCallEnd). cbn [fst snd].
    split.
    + split; [done|]. split; [done|]. by rewrite !onCallEnd_once, Hsame.
    + destruct (onCallEnd_no_apply st1) as (tr1 & E1 & H1).
      destruct (onCallEnd_no_apply (snd (onCallEnd st1))) as (tr2 & E2 & H2).
      exists (tr1 ++ tr2). split; [|by apply Forall_app].
      rewrite E2, E1, Ht1, <- !app_assoc. done.
  - rewrite (total_unit onCallEnd st1 total_onCallEnd). cbn [fst snd].
    split.
    + split; [done|]. split; [done|]. by rewrite onCallEnd_once, Hsame.
    + destruct (onCallEnd_no_apply st1) as (tr1 & E1 & H1).
      exists tr1. split; [|done]. rewrite E1, Ht1, <- !app_assoc. done.
Qed.

(** ** The heap: reads after writes and allocations *)

Lemma assoc_set_same {A} k (a : A) l : assoc k (assoc_set k a l) = Some a.
Proof.
  induction l as [|[k' a'] l IH]; simpl.
  - by rewrite String.eqb_refl.
  - destruct (String.eqb k' k) eqn:E; simpl; by rewrite E.
Qed.

Lemma assoc_set_other {A} k k' (a : A) l :
  k' <> k -> assoc k' (assoc_set k a l) = assoc k' l.
Proof.
  intros Hne. induction l as [|[k0 a0] l IH]; simpl.
  - apply String.eqb_neq in Hne. rewrite String.eqb_sym. by rewrite Hne.
  - destruct (String.eqb k0 k) eqn:E; simpl.
    + apply String.eqb_eq in E as ->.
      assert (String.eqb k k' = false) as ->; [|done].
      apply String.eqb_neq. congruence.
    + by rewrite IH.
Qed.

Lemma write_inv h v k x h' :
  write h v k x = Ok h' ->
  exists l, v = VRef l /\
    h' = <[l := Obj (assoc_set k (Data x) (own (obj_at h l)))
                  (inherited (obj_at h l)) (okind (obj_at h l))]> h.
Proof.
  destruct v; simpl; try done. intros H. exists l. split; [done|].
  destruct (lookup_prop (obj_at h l) k) as [[]|]; congruence.
Qed.

Lemma obj_at_insert h l o : obj_at (<[l := o]> h) l = o.
Proof. unfold obj_at. by rewrite lookup_insert_eq. Qed.

Lemma obj_at_insert_ne h l l' o : l <> l' -> obj_at (<[l := o]> h) l' = obj_at h l'.
Proof. intros. unfold obj_at. by rewrite lookup_insert_ne. Qed.

Lemma read_write_same h v k x h' : write h v k x = Ok h' -> read h' v k = Ok x.
Proof.
  intros (l & -> & ->)%write_inv. simpl.
  rewrite obj_at_insert. unfold lookup_prop. simpl.
  by rewrite assoc_set_same.
Qed.

Lemma read_write_other h v k x h' v' k' :
  write h v k x = Ok h' -> k' <> k -> read h' v' k' = read h v' k'.
Proof.
  intros (l & -> & ->)%write_inv Hne.
  destruct v' as [| | | | |l']; try done. simpl.
  destruct (decide (l = l')) as [<-|Hl].
  - rewrite obj_at_insert. unfold lookup_prop. simpl.
    by rewrite assoc_set_other.
  - by rewrite obj_at_insert_ne.
Qed.

(** An assignment succeeds exactly where a read does. *)
Lemma write_succeeds h l k x y :
  read h (VRef l) k = Ok y -> exists h', write h (VRef l) k x = Ok h'.
Proof.
  simpl. destruct (lookup_prop (obj_at h l) k) as [[]|]; try done; eauto.
Qed.

(** A new function object has no properties: no read sees it. *)
Lemma read_alloc_function h c v k :
  read (<[fresh (dom h) := Obj [] [] (Function c)]> h) v k = read h v k.
Proof.
  destruct v as [| | | | |l]; try done. simpl.
  destruct (decide (fresh (dom h) = l)) as [<-|Hl].
  - rewrite obj_at_insert. unfold obj_at.
    assert (h !! fresh (dom h) = None) as ->; [|done].
    apply not_elem_of_dom, is_fresh.
  - by rewrite obj_at_insert_ne.
Qed.

Lemma set_heap_id st : set_heap (heap st) st = st.
Proof. by destruct st. Qed.

(** ** C4: install, then revert *)

Lemma monkeyPatch_inv o method patcher st u st1 :
  monkeyPatch o method patcher st = (Ok u, st1) ->
  exists orig h1,
    read (heap st) o method = Ok orig /\
    u = MkUnpatch o method orig /\
    write (<[fresh (dom (heap st)) := Obj [] [] (Function (patcher orig))]>
             (heap st)) o method (VRef (fresh (dom (heap st)))) = Ok h1 /\
    st1 = set_heap h1 st.
Proof.
  unfold monkeyPatch, bind, getp, lift, alloc, setp, ret. simpl.
  destruct (read (heap st) o method) as [orig|e] eqn:Hr; [|done].
  destruct (write _ o method _) as [h1|e] eqn:Hw; [|done].
  intros [= <- <-]. exists orig, h1. by destruct st.
Qed.

Lemma run_unpatch_step u st :
  try_catch (run_unpatch u) (fun _ => ret tt) st = (Ok tt, step_revert st u).
Proof.
  unfold try_catch, run_unpatch, bind, emit, modify, setp, step_revert,
    revert_heap, ret. simpl.
  destruct (write (heap st) (u_obj u) (u_method u) (u_orig u)); [done|].
  by destruct st.
Qed.

Lemma run_all_spec ps st :
  run_all ps st = (Ok tt, foldl step_revert st ps).
Proof.
  revert st. induction ps as [|u ps IH]; intros st; [done|].
  simpl. unfold bind. by rewrite run_unpatch_step, IH.
Qed.

Lemma extends_untraced {X} (f : State -> X) ok st st' :
  (forall tr s, f (set_trace tr s) = f s) -> extends ok st st' -> f st' = f st.
Proof. intros Hf (tr & -> & _). apply Hf. Qed.

Lemma log_frame args st : extends (fun _ => True) st (snd (log args st)).
Proof. by apply (sat_log (I := fun _ => True)). Qed.

Lemma onCallEnd_frame st : extends (fun _ => True) st (snd (onCallEnd st)).
Proof.
  assert (sat (fun _ => True) (fun _ => True) onCallEnd) as H; [|by apply H].
  unfold onCallEnd. apply sat_bind; [by apply sat_emit|intros _].
  by apply sat_onCallEnd_body.
Qed.

Lemma onCallStart_frame st : extends (fun _ => True) st (snd (onCallStart st)).
Proof.
  assert (sat (fun _ => True) (fun _ => True) onCallStart) as H;
    [|by apply H].
  unfold onCallStart. policy_frame.
Qed.

Lemma tick_frame st : extends (fun _ => True) st (snd (tick st)).
Proof.
  assert (sat (fun _ => True) (fun _ => True) tick) as H; [|by apply H].
  unfold tick. policy_frame.
Qed.

Lemma heap_step_reverts ps st :
  heap (foldl step_revert st ps) = foldl revert_heap (heap st) ps.
Proof. revert st. induction ps as [|u ps IH]; intros st; [done|]. simpl. by rewrite IH. Qed.

Lemma onUnload_eq st :
  onUnload st =
  onCallEnd
    (snd (stopWatchdog
            (foldl step_revert
               (set_patches [] (snd (log [VStr "Unloading TelegramCalls"] st)))
               (patches st)))).
Proof.
  unfold onUnload, bind.
  rewrite (total_unit (log _) st (total_log _)).
  pose proof (extends_untraced patches _ _ _ (fun _ _ => eq_refl)
                (log_frame [VStr "Unloading TelegramCalls"] st)) as Hp.
  simpl. rewrite Hp, run_all_spec. done.
Qed.

Lemma heap_stopWatchdog st : heap (snd (stopWatchdog st)) = heap st.
Proof. unfold stopWatchdog, modify. simpl. by destruct (intervalId st). Qed.

Lemma heap_onUnload st :
  heap (snd (onUnload st)) = foldl revert_heap (heap st) (patches st).
Proof.
  rewrite onUnload_eq.
  rewrite (extends_untraced heap _ _ _ (fun _ _ => eq_refl)
             (onCallEnd_frame _)).
  rewrite heap_stopWatchdog, heap_step_reverts. simpl.
  by rewrite (extends_untraced heap _ _ _ (fun _ _ => eq_refl)
                (log_frame _ st)).
Qed.

Lemma revert_heap_ok h u h' :
  write h (u_obj u) (u_method u) (u_orig u) = Ok h' -> revert_heap h u = h'.
Proof. intros H. unfold revert_heap. by rewrite H. Qed.

(** Two patches on distinct slots of one object, reverted in order. *)
Lemma pair_roundtrip st vc m1 m2 p1 p2 u1 sA u2 sB :
  m1 <> m2 ->
  monkeyPatch vc m1 p1 st = (Ok u1, sA) ->
  monkeyPatch vc m2 p2 (set_patches (patches sA ++ [u1]) sA) = (Ok u2, sB) ->
  forall k,
    read (revert_heap (revert_heap (heap sB) u1) u2) vc k =
    read (heap st) vc k.
Proof.
  intros Hne (orig1 & h1 & Hr1 & -> & Hw1 & ->)%monkeyPatch_inv.
  intros (orig2 & h2 & Hr2 & -> & Hw2 & ->)%monkeyPatch_inv.
  simpl in *.
  assert (read h2 vc m1 = Ok (VRef (fresh (dom (heap st))))) as Hm1.
  { rewrite (read_write_other _ _ _ _ _ vc m1 Hw2 Hne), read_alloc_function.
    by apply read_write_same in Hw1. }
  destruct (write_inv _ _ _ _ _ Hw1) as (l & -> & _).
  destruct (write_succeeds _ _ _ orig1 _ Hm1) as [h3 Hw3].
  rewrite (revert_heap_ok h2 (MkUnpatch _ _ _) h3 Hw3).
  assert (read h3 (VRef l) m2 = Ok (VRef (fresh (dom h1)))) as Hm2.
  { rewrite (read_write_other _ _ _ _ _ (VRef l) m2 Hw3 (not_eq_sym Hne)).
    by apply read_write_same in Hw2. }
  destruct (write_succeeds _ _ _ orig2 _ Hm2) as [h4 Hw4].
  rewrite (revert_heap_ok h3 (MkUnpatch _ _ _) h4 Hw4).
  intros k.
  destruct (decide (k = m2)) as [->|Hk2].
  { rewrite (read_write_same _ _ _ _ _ Hw4), <- Hr2.
    rewrite (read_write_other _ _ _ _ _ (VRef l) m2 Hw1 (not_eq_sym Hne)).
    by rewrite read_alloc_function. }
  rewrite (read_write_other _ _ _ _ _ (VRef l) k Hw4 Hk2).
  destruct (decide (k = m1)) as [->|Hk1].
  { by rewrite (read_write_same _ _ _ _ _ Hw3). }
  rewrite (read_write_other _ _ _ _ _ (VRef l) k Hw3 Hk1).
  rewrite (read_write_other _ _ _ _ _ (VRef l) k Hw2 Hk2).
  rewrite read_alloc_function.
  rewrite (read_write_other _ _ _ _ _ (VRef l) k Hw1 Hk1).
  by rewrite read_alloc_function.
Qed.

Lemma patch_then_unload st st1 :
  patches st = [] -> patchVoiceJoinLeave st = (Ok tt, st1) ->
  forall k,
    read (heap (snd (onUnload st1))) (VoiceConnection st) k =
    read (heap st) (VoiceConnection st) k.
Proof.
  intros Hps Hpatch k. rewrite heap_onUnload.
  revert Hpatch. unfold patchVoiceJoinLeave, bind at 1, gets.
  destruct (negb (truthy (VoiceConnection st))).
  { intros [= <-]. by rewrite Hps. }
  unfold bind at 1.
  destruct (both_in "joinCall" "leaveCall" (VoiceConnection st) st)
    as [[[]|e] s0] eqn:Hb; [| |done].
  - assert (s0 = st) as ->.
    { revert Hb. unfold both_in, bind, in_op, lift.
      destruct (VoiceConnection st); try done.
      destruct (has_prop _ _); by intros [= ?]. }
    unfold bind at 1.
    destruct (monkeyPatch _ "joinCall" _ st) as [[u1|e] sA] eqn:H1; [|done].
    unfold bind at 1, push at 1, modify at 1.
    unfold bind at 1.
    destruct (monkeyPatch _ "leaveCall" _ _) as [[u2|e] sB] eqn:H2; [|done].
    unfold push, modify. intros [= <-]. simpl.
    pose proof (pair_roundtrip st _ "joinCall" "leaveCall" _ _ _ _ _ _
                  ltac:(done) H1 H2 k)
      as HH.
    assert (patches sB = [u1]) as ->; [|exact HH].
    apply monkeyPatch_inv in H1 as (o1 & h1 & _ & _ & _ & ->).
    apply monkeyPatch_inv in H2 as (o2 & h2 & _ & _ & _ & ->).
    simpl. by rewrite Hps.
  - assert (s0 = st) as ->.
    { revert Hb. unfold both_in, bind, in_op, lift.
      destruct (VoiceConnection st); try done.
      destruct (has_prop _ _); by intros [= ?]. }
    unfold bind at 1.
    destruct (both_in "join" "leave" (VoiceConnection st) st)
      as [[[]|e] s0] eqn:Hg; [| |done].
    + assert (s0 = st) as ->.
      { revert Hg. unfold both_in, bind, in_op, lift.
        destruct (VoiceConnection st); try done.
        destruct (has_prop _ _); by intros [= ?]. }
      unfold bind at 1.
      destruct (monkeyPatch _ "join" _ st) as [[u1|e] sA] eqn:H1; [|done].
      unfold bind at 1, push at 1, modify at 1.
      unfold bind at 1.
      destruct (monkeyPatch _ "leave" _ _) as [[u2|e] sB] eqn:H2; [|done].
      unfold push, modify. intros [= <-]. simpl.
      pose proof (pair_roundtrip st _ "join" "leave" _ _ _ _ _ _
                    ltac:(done) H1 H2 k)
        as HH.
      assert (patches sB = [u1]) as ->; [|exact HH].
      apply monkeyPatch_inv in H1 as (o1 & h1 & _ & _ & _ & ->).
      apply monkeyPatch_inv in H2 as (o2 & h2 & _ & _ & _ & ->).
      simpl. by rewrite Hps.
    + assert (s0 = st) as ->.
      { revert Hg. unfold both_in, bind, in_op, lift.
        destruct (VoiceConnection st); try done.
        destruct (has_prop _ _); by intros [= ?]. }
      intros [= <-]. by rewrite Hps.
Qed.

(** One patch: the slot holds the wrapper, then the original again. *)
Lemma monkeyPatch_roundtrip st o method patcher u st1 :
  monkeyPatch o method patcher st = (Ok u, st1) ->
  exists w st2,
    read (heap st1) o method = Ok (VRef w) /\
    okind (obj_at (heap st1) w) = Function (patcher (u_orig u)) /\
    run_unpatch u st1 = (Ok tt, st2) /\
    read (heap st) o method = Ok (u_orig u) /\
    read (heap st2) o method = Ok (u_orig u).
Proof.
  intros (orig & h1 & Hr & -> & Hw & ->)%monkeyPatch_inv.
  set (w := fresh (dom (heap st))) in *.
  pose proof (read_write_same _ _ _ _ _ Hw) as Hrw.
  destruct (write_inv _ _ _ _ _ Hw) as (l & -> & Hh1).
  destruct (write_succeeds _ _ _ orig _ Hrw) as [h2 Hw2].
  exists w, (set_heap h2
               (set_trace
                  (trace st ++ [Enter (InRevert (MkUnpatch (VRef l) method orig))])
                  st)).
  split; [done|]. split.
  { simpl. rewrite Hh1.
    destruct (decide (l = w)) as [->|Hl].
    - rewrite !obj_at_insert. done.
    - rewrite obj_at_insert_ne, obj_at_insert; done. }
  split.
  { unfold run_unpatch, bind, emit, modify, setp. simpl in *.
    by rewrite Hw2. }
  split; [done|].
  simpl. by apply read_write_same in Hw2.
Qed.

(** Once a slot is patched, the host calling it runs the wrapper around
    the captured original. *)
Lemma host_calls_patched st o method u st1 args :
  (monkeyPatch o method JoinHook st = (Ok u, st1) ->
   host_calls o method args st1 = joinWrapper (u_orig u) o args st1) /\
  (monkeyPatch o method LeaveHook st = (Ok u, st1) ->
   host_calls o method args st1 = leaveWrapper (u_orig u) o args st1).
Proof.
  split; intros (w & st2 & Hr & Hk & _)%monkeyPatch_roundtrip;
    unfold host_calls, bind, getp, lift, gets; rewrite Hr, Hk; done.
Qed.

(** C4: installing an interception and then invoking the returned revert
    restores the original method reference.  For every object, method name
    and patcher: after [monkeyPatch] the slot holds the new wrapper (a
    function closing over the original), and after the revert the slot
    reads the very reference that was read before patching.  For the
    voice connection, on the explicit joinCall / leaveCall path and on the
    generic join / leave path alike: patching and then unloading leaves
    every slot of the connection object reading what it read before. *)
Theorem install_revert_roundtrip :
  (forall st o method patcher u st1,
     monkeyPatch o method patcher st = (Ok u, st1) ->
     exists w st2,
       read (heap st1) o method = Ok (VRef w) /\
       okind (obj_at (heap st1) w) = Function (patcher (u_orig u)) /\
       run_unpatch u st1 = (Ok tt, st2) /\
       read (heap st) o method = Ok (u_orig u) /\
       read (heap st2) o method = Ok (u_orig u)) /\
  (forall st st1,
     patches st = [] -> patchVoiceJoinLeave st = (Ok tt, st1) ->
     forall k,
       read (heap (snd (onUnload st1))) (VoiceConnection st) k =
       read (heap st) (VoiceConnection st) k).
Proof.
  split.
  - intros st o method patcher u st1 Hp.
    destruct (monkeyPatch_roundtrip _ _ _ _ _ _ Hp)
      as (w & st2 & Hw & Hk & Hu & Hr & Hr2).
    exists w, st2. repeat split; assumption.
  - intros st st1 Hps Hp k. by apply patch_then_unload.
Qed.

(** ** C3: unloading *)

Lemma reverts_app tr tr' : reverts (tr ++ tr') = reverts tr ++ reverts tr'.
Proof. apply omap_app. Qed.

Lemma reverts_none tr : Forall not_revert tr -> reverts tr = [].
Proof.
  induction 1 as [|e tr He _ IH]; [done|].
  unfold reverts in *.
  destruct e as [| | |[]]; cbn in *; first [exact IH|done].
Qed.

Lemma reverts_extends st st' :
  extends not_revert st st' -> reverts (trace st') = reverts (trace st).
Proof.
  intros (tr & -> & H). simpl.
  by rewrite reverts_app, (reverts_none _ H), app_nil_r.
Qed.

Lemma reverts_marks ps : reverts (map (fun u => Enter (InRevert u)) ps) = ps.
Proof.
  induction ps as [|u ps IH]; [done|].
  unfold reverts in *. cbn. by rewrite IH.
Qed.

Lemma trace_step_reverts ps st :
  trace (foldl step_revert st ps) =
  trace st ++ map (fun u => Enter (InRevert u)) ps.
Proof.
  revert st. induction ps as [|u ps IH]; intros st; simpl.
  - by rewrite app_nil_r.
  - rewrite IH. simpl. by rewrite <- app_assoc.
Qed.

Lemma step_reverts_keep {X} (f : State -> X) ps st :
  (forall s u, f (step_revert s u) = f s) -> f (foldl step_revert st ps) = f st.
Proof.
  intros Hf. revert st. induction ps as [|u ps IH]; intros st; [done|].
  simpl. by rewrite IH, Hf.
Qed.

Lemma trace_stopWatchdog st : trace (snd (stopWatchdog st)) = trace st.
Proof. unfold stopWatchdog, modify. simpl. by destruct (intervalId st). Qed.

Lemma patches_stopWatchdog st : patches (snd (stopWatchdog st)) = patches st.
Proof. unfold stopWatchdog, modify. simpl. by destruct (intervalId st). Qed.

Lemma onCallEnd_no_revert st : extends not_revert st (snd (onCallEnd st)).
Proof.
  assert (sat (fun _ => True) not_revert onCallEnd) as H; [|by apply H].
  unfold onCallEnd. apply sat_bind; [by apply sat_emit|intros _].
  by apply sat_onCallEnd_body.
Qed.

Lemma log_no_revert args st : extends not_revert st (snd (log args st)).
Proof. by apply (sat_log (I := fun _ => True)). Qed.

Lemma onUnload_total st : fst (onUnload st) = Ok tt.
Proof. rewrite onUnload_eq. by rewrite (total_unit _ _ total_onCallEnd). Qed.

Lemma onUnload_patches st : patches (snd (onUnload st)) = [].
Proof.
  rewrite onUnload_eq.
  rewrite (extends_untraced patches _ _ _ (fun _ _ => eq_refl)
             (onCallEnd_frame _)).
  rewrite patches_stopWatchdog.
  by rewrite (step_reverts_keep patches) by done.
Qed.

Lemma onUnload_reverts st :
  reverts (trace (snd (onUnload st))) = reverts (trace st) ++ patches st.
Proof.
  rewrite onUnload_eq, (reverts_extends _ _ (onCallEnd_no_revert _)).
  rewrite trace_stopWatchdog, trace_step_reverts, reverts_app, reverts_marks.
  simpl. by rewrite (reverts_extends _ _ (log_no_revert _ st)).
Qed.

(** [n] calls of [onUnload] in a row. *)
Lemma unloads_reverts n st :
  let unloads := Nat.iter (S n) (fun s => snd (onUnload s)) st in
  patches unloads = [] /\
  reverts (trace unloads) = reverts (trace st) ++ patches st.
Proof.
  induction n as [|n [IHp IHr]]; simpl in *.
  - by rewrite onUnload_patches, onUnload_reverts.
  - rewrite onUnload_patches, onUnload_reverts, IHp, IHr.
    by rewrite app_nil_r.
Qed.

(** C3: unloading runs every installed revert exactly once.  [onUnload]
    never throws; the reverts it runs are exactly the installed patches,
    each once and in order, whatever reverts throw (a revert that throws
    leaves the heap as it is and the loop goes on with the next one); the
    patch collection is empty afterwards; and however many times
    [onUnload] is called, no revert runs a second time. *)
Theorem unload_runs_each_revert_once st :
  fst (onUnload st) = Ok tt /\
  patches (snd (onUnload st)) = [] /\
  reverts (trace (snd (onUnload st))) = reverts (trace st) ++ patches st /\
  heap (snd (onUnload st)) = foldl revert_heap (heap st) (patches st) /\
  forall n,
    reverts (trace (Nat.iter (S n) (fun s => snd (onUnload s)) st)) =
    reverts (trace st) ++ patches st.
Proof.
  split; [apply onUnload_total|].
  split; [apply onUnload_patches|].
  split; [apply onUnload_reverts|].
  split; [apply heap_onUnload|].
  intros n. apply (unloads_reverts n st).
Qed.

(** ** C8: the watchdog *)

Lemma isInCall_cases st :
  exists tr,
    snd (isInCall st) = set_trace (trace st ++ tr) st /\
    (tr = [] \/ tr = [Call (VoiceStore st) "isInCall" []]).
Proof.
  assert (snd (isInCall st) = st ->
          exists tr, snd (isInCall st) = set_trace (trace st ++ tr) st /\
            (tr = [] \/ tr = [Call (VoiceStore st) "isInCall" []])) as Hsame.
  { intros ->. exists []. by rewrite app_nil_r, set_trace_id; auto. }
  unfold isInCall, bind, gets in *.
  destruct (nullish (VoiceStore st)); [by apply Hsame|].
  unfold opt_invoke, bind, getp, lift in *.
  destruct (read (heap st) (VoiceStore st) "isInCall") as [f|e];
    [|by apply Hsame].
  destruct (nullish f); [by apply Hsame|].
  unfold call_value, bind, gets in *.
  destruct (callable st f); [|by apply Hsame].
  exists [Call (VoiceStore st) "isInCall" []]. auto.
Qed.

Lemma startWatchdog_eq st :
  startWatchdog st =
  (Ok tt,
   let s := snd (stopWatchdog st) in
   set_timer (<[fresh (dom (timers s)) := period]> (timers s))
     (Some (fresh (dom (timers s)))) s).
Proof. done. Qed.

Lemma load_tail_frame st :
  extends (fun _ => True) st
    (snd (try_catch (let* c := isInCall in when (truthy c) onCallStart)
            (fun _ => ret tt) st)).
Proof.
  assert (sat (fun _ => True) (fun _ => True)
            (try_catch (let* c := isInCall in when (truthy c) onCallStart)
               (fun _ => ret tt))) as H; [|by apply H].
  apply sat_try_catch; [|intros; apply sat_ret].
  apply sat_bind; [by apply sat_isInCall|intros c].
  apply sat_when. intros _ s _. apply onCallStart_frame.
Qed.

Lemma onLoad_eq st :
  onLoad st =
  match patchVoiceJoinLeave (snd (log [VStr "Loading TelegramCalls"] st)) with
  | (Ok _, s2) =>
      try_catch (let* c := isInCall in when (truthy c) onCallStart)
        (fun _ => ret tt) (snd (startWatchdog s2))
  | (Throw e, s2) => (Throw e, s2)
  end.
Proof.
  unfold onLoad, bind at 1.
  rewrite (total_unit (log _) st (total_log _)).
  unfold bind at 1.
  by destruct (patchVoiceJoinLeave _) as [[[]|e] s2].
Qed.

Lemma onLoad_interval st :
  fst (onLoad st) = Ok tt ->
  exists i, intervalId (snd (onLoad st)) = Some i /\
            timers (snd (onLoad st)) !! i = Some 2000.
Proof.
  rewrite onLoad_eq.
  destruct (patchVoiceJoinLeave _) as [[[]|e] s2]; [|done].
  intros _. rewrite startWatchdog_eq. cbv zeta.
  cbn [snd]. set (s3 := set_timer _ _ _).
  pose proof (load_tail_frame s3) as H.
  rewrite (extends_untraced intervalId _ _ _ (fun _ _ => eq_refl) H).
  rewrite (extends_untraced timers _ _ _ (fun _ _ => eq_refl) H).
  eexists. split; [done|]. unfold s3. simpl. apply lookup_insert_eq.
Qed.

Lemma onUnload_interval st :
  intervalId (snd (onUnload st)) = None /\
  forall i, intervalId st = Some i -> timers (snd (onUnload st)) !! i = None.
Proof.
  rewrite onUnload_eq.
  set (s := foldl step_revert _ _).
  pose proof (onCallEnd_frame (snd (stopWatchdog s))) as H.
  rewrite (extends_untraced intervalId _ _ _ (fun _ _ => eq_refl) H).
  rewrite (extends_untraced timers _ _ _ (fun _ _ => eq_refl) H).
  assert (intervalId s = intervalId st) as Hi.
  { unfold s. rewrite (step_reverts_keep intervalId) by done. simpl.
    by rewrite (extends_untraced intervalId _ _ _ (fun _ _ => eq_refl)
                  (log_frame _ st)). }
  unfold stopWatchdog, modify. simpl. rewrite Hi.
  split; [by destruct (intervalId st)|].
  intros i ->. simpl. apply lookup_delete_eq.
Qed.

(** C8, as the code has it: the watchdog.  [startWatchdog] leaves one interval registered with
    a period of 2000 ms, so does [onLoad] whenever it completes, and
    [onUnload] clears it; a tick leaves the timer alone.  On a tick: with
    the voice store unbound nothing at all happens; when the in-call query
    answers falsy the tick ends there, the query itself being the only
    host call it can have made; and in every case a tick calls none of
    the mic-DSP or routing-mode methods: in a call it runs the
    disable-attenuation and keep-stereo-media actions, each under its
    flag, and nothing else. *)
Theorem watchdog_period_and_tick st :
  (exists i, intervalId (snd (startWatchdog st)) = Some i /\
             timers (snd (startWatchdog st)) !! i = Some 2000) /\
  (fst (onLoad st) = Ok tt ->
   exists i, intervalId (snd (onLoad st)) = Some i /\
             timers (snd (onLoad st)) !! i = Some 2000) /\
  (intervalId (snd (onUnload st)) = None /\
   forall i, intervalId st = Some i ->
             timers (snd (onUnload st)) !! i = None) /\
  (intervalId (snd (tick st)) = intervalId st /\
   timers (snd (tick st)) = timers st) /\
  (nullish (VoiceStore st) = true -> tick st = (Ok tt, st)) /\
  (forall v, fst (isInCall st) = Ok v -> truthy v = false ->
     exists tr,
       tick st = (Ok tt, set_trace (trace st ++ tr) st) /\
       (tr = [] \/ tr = [Call (VoiceStore st) "isInCall" []])) /\
  (forall v, fst (isInCall st) = Ok v -> truthy v = true ->
     tick st =
     (if_flag "disableAttenuation" ensureMediaStreamNotDucked >>
      if_flag "keepStereoMedia" preferStereoOutput) (snd (isInCall st))) /\
  extends (silent one_shot) st (snd (tick st)).
Proof.
  split.
  { rewrite startWatchdog_eq. eexists. split; [done|].
    simpl. apply lookup_insert_eq. }
  split; [apply onLoad_interval|].
  split; [apply onUnload_interval|].
  split.
  { pose proof (tick_frame st) as H.
    by rewrite (extends_untraced intervalId _ _ _ (fun _ _ => eq_refl) H),
      (extends_untraced timers _ _ _ (fun _ _ => eq_refl) H). }
  split.
  { intros Hn. unfold tick, isInCall, bind, gets. by rewrite Hn. }
  split.
  { intros v Hv Hf. destruct (isInCall_cases st) as (tr & Htr & Hcases).
    exists tr. split; [|done].
    unfold tick, bind. destruct (isInCall st) as [[c|e] s]; simpl in *;
      [|done].
    injection Hv as ->. rewrite Hf. simpl. by rewrite Htr. }
  split.
  { intros v Hv Hin. unfold tick, bind at 1.
    destruct (isInCall st) as [[c|e] s]; simpl in *; [|done].
    injection Hv as ->. by rewrite Hin. }
  assert (sat (fun _ => True) (silent one_shot) tick) as H; [|by apply H].
  unfold tick. policy_frame.
Qed.

(** ** Quantities that an operation keeps *)

Section Keeps.
Context {X : Type} (f : State -> X).

Lemma keeps_ret {A} (a : A) : keeps f (ret a).
Proof. done. Qed.

Lemma keeps_throw {A} e : keeps f (@throw A e).
Proof. done. Qed.

Lemma keeps_gets {A} (g : State -> A) : keeps f (gets g).
Proof. done. Qed.

Lemma keeps_lift {A} (g : State -> outcome A) : keeps f (lift g).
Proof. done. Qed.

Lemma keeps_bind {A B} (m : M A) (k : A -> M B) :
  keeps f m -> (forall a, keeps f (k a)) -> keeps f (bind m k).
Proof.
  intros Hm Hk st. specialize (Hm st). unfold bind.
  destruct (m st) as [[a|e] st']; simpl in *; [|done].
  by rewrite Hk.
Qed.

Lemma keeps_try_catch {A} (m : M A) (h : value -> M A) :
  keeps f m -> (forall e, keeps f (h e)) -> keeps f (try_catch m h).
Proof.
  intros Hm Hh st. specialize (Hm st). unfold try_catch.
  destruct (m st) as [[a|e] st']; simpl in *; [done|].
  by rewrite Hh.
Qed.

Lemma keeps_sat {A} (m : M A) :
  (forall tr s, f (set_trace tr s) = f s) ->
  sat (fun _ => True) (fun _ => True) m -> keeps f m.
Proof. intros Hf Hm st. eapply extends_untraced; [done|by apply Hm]. Qed.

Lemma keeps_setp o k x :
  (forall s h', write (heap s) o k x = Ok h' -> f (set_heap h' s) = f s) ->
  keeps f (setp o k x).
Proof.
  intros Hf st. unfold setp.
  destruct (write (heap st) o k x) eqn:E; [|done]. by apply Hf.
Qed.

Lemma keeps_monkeyPatch o method patcher :
  (forall s c,
     f (set_heap (<[fresh (dom (heap s)) := Obj [] [] (Function c)]> (heap s))
          s) = f s) ->
  (forall s x h', write (heap s) o method x = Ok h' ->
                  f (set_heap h' s) = f s) ->
  keeps f (monkeyPatch o method patcher).
Proof.
  intros Ha Hw. unfold monkeyPatch.
  apply keeps_bind; [apply keeps_lift|intros orig].
  apply keeps_bind; [intros st; apply Ha|intros w].
  apply keeps_bind; [apply keeps_setp; eauto|intros; apply keeps_ret].
Qed.

Lemma keeps_both_in a b o : keeps f (both_in a b o).
Proof.
  unfold both_in. apply keeps_bind; [apply keeps_lift|].
  intros []; [apply keeps_lift|apply keeps_ret].
Qed.

(** [patchVoiceJoinLeave] keeps whatever ignores the patch list, new
    function objects, and assignments to the four patched slots. *)
Lemma keeps_patchVoiceJoinLeave :
  (forall ps s, f (set_patches ps s) = f s) ->
  (forall s c,
     f (set_heap (<[fresh (dom (heap s)) := Obj [] [] (Function c)]> (heap s))
          s) = f s) ->
  (forall s o k x h',
     k ∈ ["joinCall"; "leaveCall"; "join"; "leave"] ->
     write (heap s) o k x = Ok h' -> f (set_heap h' s) = f s) ->
  keeps f patchVoiceJoinLeave.
Proof.
  intros Hp Ha Hw.
  assert (forall u, keeps f (push u)) as Hpush by (intros u st; apply Hp).
  assert (forall o k p, k ∈ ["joinCall"; "leaveCall"; "join"; "leave"] ->
            keeps f (monkeyPatch o k p)) as Hmp.
  { intros. apply keeps_monkeyPatch; eauto. }
  unfold patchVoiceJoinLeave.
  apply keeps_bind; [apply keeps_gets|intros vc].
  destruct (negb (truthy vc)); [apply keeps_ret|].
  apply keeps_bind; [apply keeps_both_in|intros []].
  - apply keeps_bind; [apply Hmp; set_solver|intros u1].
    apply keeps_bind; [apply Hpush|intros _].
    apply keeps_bind; [apply Hmp; set_solver|intros u2]. apply Hpush.
  - apply keeps_bind; [apply keeps_both_in|intros []; [|apply keeps_ret]].
    apply keeps_bind; [apply Hmp; set_solver|intros u1].
    apply keeps_bind; [apply Hpush|intros _].
    apply keeps_bind; [apply Hmp; set_solver|intros u2]. apply Hpush.
Qed.
End Keeps.

Lemma flag_read k st :
  flag k st =
  match read (heap st) (VRef (Settings st)) k with
  | Ok v => truthy v
  | Throw _ => false
  end.
Proof.
  unfold flag. simpl.
  by destruct (lookup_prop (obj_at (heap st) (Settings st)) k) as [[]|].
Qed.

Lemma keeps_flag_patch k :
  k ∉ ["joinCall"; "leaveCall"; "join"; "leave"] ->
  keeps (flag k) patchVoiceJoinLeave.
Proof.
  intros Hk. apply keeps_patchVoiceJoinLeave.
  - done.
  - intros s c. rewrite !flag_read. cbn [heap Settings set_heap].
    by rewrite read_alloc_function.
  - intros s o k' x h' Hk' Hw. rewrite !flag_read. cbn [heap Settings set_heap].
    rewrite (read_write_other _ _ _ _ _ _ k Hw); [done|].
    intros ->. done.
Qed.

(** ** C9: handles and registry discovery *)

Section Wrappers.
Context {I : State -> Prop} `{!Stable I} {ok : event -> Prop}.

Lemma sat_apply_orig orig this args :
  (forall c t a, ok (Apply c t a)) -> sat I ok (apply_orig orig this args).
Proof.
  intros. unfold apply_orig. apply sat_bind; [apply sat_gets|].
  intros []; [by apply sat_host_call|apply sat_throw].
Qed.

Lemma sat_onCallEnd :
  ok (Enter InOnCallEnd) ->
  (forall r a, ok (Call r "setEchoCancellation" a)) ->
  (forall r a, ok (Call r "setNoiseSuppression" a)) ->
  (forall r a, ok (Call r "setAutomaticGainControl" a)) ->
  (forall a, ok (ConsoleLog a)) ->
  sat I ok onCallEnd.
Proof.
  intros. unfold onCallEnd. apply sat_bind; [by apply sat_emit|intros _].
  by apply sat_onCallEnd_body.
Qed.

Lemma sat_joinWrapper orig this args :
  (forall c t a, ok (Apply c t a)) -> sat I ok onCallStart ->
  sat I ok (joinWrapper orig this args).
Proof.
  intros. unfold joinWrapper.
  apply sat_bind; [by apply sat_apply_orig|intros res].
  apply sat_bind; [done|intros; apply sat_ret].
Qed.

Lemma sat_leaveWrapper orig this args :
  (forall c t a, ok (Apply c t a)) -> sat I ok onCallEnd ->
  sat I ok (leaveWrapper orig this args).
Proof.
  intros. unfold leaveWrapper. apply sat_try_finally; [|done].
  apply sat_bind; [by apply sat_apply_orig|intros res].
  apply sat_bind; [done|intros; apply sat_ret].
Qed.
End Wrappers.

Lemma sat_onCallStart_any : sat (fun _ => True) (fun _ => True) onCallStart.
Proof. intros st _. apply onCallStart_frame. Qed.

Lemma sat_onCallEnd_any : sat (fun _ => True) (fun _ => True) onCallEnd.
Proof. intros st _. apply onCallEnd_frame. Qed.

(** What [onLoad] and [onUnload] keep: anything that ignores the trace,
    the timer, the patch list and the heap changes of patching. *)
Lemma onLoad_keeps {X} (f : State -> X) :
  (forall tr s, f (set_trace tr s) = f s) ->
  (forall ts i s, f (set_timer ts i s) = f s) ->
  keeps f patchVoiceJoinLeave ->
  keeps f onLoad.
Proof.
  intros Htr Hti Hp st. rewrite onLoad_eq.
  specialize (Hp (snd (log [VStr "Loading TelegramCalls"] st))).
  rewrite (extends_untraced f _ _ _ Htr (log_frame _ st)) in Hp.
  destruct (patchVoiceJoinLeave _) as [[[]|e] s2]; simpl in Hp; [|done].
  rewrite (extends_untraced f _ _ _ Htr (load_tail_frame _)).
  rewrite startWatchdog_eq. cbn [snd]. rewrite Hti.
  unfold stopWatchdog, modify. cbn [snd].
  destruct (intervalId s2); by rewrite Hti.
Qed.

Lemma onUnload_keeps {X} (f : State -> X) :
  (forall tr s, f (set_trace tr s) = f s) ->
  (forall ts i s, f (set_timer ts i s) = f s) ->
  (forall ps s, f (set_patches ps s) = f s) ->
  (forall h s, f (set_heap h s) = f s) ->
  keeps f onUnload.
Proof.
  intros Htr Hti Hp Hh st. rewrite onUnload_eq.
  rewrite (extends_untraced f _ _ _ Htr (onCallEnd_frame _)).
  unfold stopWatchdog, modify. cbn [snd].
  assert (f (foldl step_revert
               (set_patches [] (snd (log [VStr "Unloading TelegramCalls"] st)))
               (patches st)) = f st) as Hs.
  { rewrite (step_reverts_keep f).
    - by rewrite Hp, (extends_untraced f _ _ _ Htr (log_frame _ st)).
    - intros s u. unfold step_revert. by rewrite Hh, Htr. }
  destruct (intervalId _); by rewrite Hti.
Qed.

Lemma handles_kept op st : handles (exec op st) = handles st.
Proof.
  destruct op; simpl.
  - apply onLoad_keeps; try done. by apply keeps_patchVoiceJoinLeave.
  - by apply onUnload_keeps.
  - apply (extends_untraced handles _ _ _ (fun _ _ => eq_refl) (tick_frame st)).
  - apply (extends_untraced handles _ _ _ (fun _ _ => eq_refl)
             (onCallStart_frame st)).
  - apply (extends_untraced handles _ _ _ (fun _ _ => eq_refl)
             (onCallEnd_frame st)).
  - apply keeps_sat; [done|].
    apply sat_joinWrapper; [done|apply sat_onCallStart_any].
  - apply keeps_sat; [done|].
    apply sat_leaveWrapper; [done|apply sat_onCallEnd_any].
  - unfold upd, bind, gets, setp.
    by destruct (write (heap st) (ui_Settings st) k (VBool v)).
Qed.

Lemma discoveries_extends st st' :
  extends (unmarked InGetModules) st st' ->
  discoveries (trace st') = discoveries (trace st).
Proof. apply entered_extends. Qed.

(** With [keepStereoMedia] off, the call-start policy and the tick do not
    search the registry. *)
Lemma sat_onCallStart_stereo_off :
  sat (fun s => flag "keepStereoMedia" s = false) (unmarked InGetModules)
    onCallStart.
Proof. unfold onCallStart. policy_frame. Qed.

Lemma sat_tick_stereo_off :
  sat (fun s => flag "keepStereoMedia" s = false) (unmarked InGetModules) tick.
Proof. unfold tick. policy_frame. Qed.

Lemma discoveries_onUnload st :
  discoveries (trace (snd (onUnload st))) = discoveries (trace st).
Proof.
  rewrite onUnload_eq.
  assert (extends (unmarked InGetModules)
            (snd (stopWatchdog
                    (foldl step_revert
                       (set_patches []
                          (snd (log [VStr "Unloading TelegramCalls"] st)))
                       (patches st))))
            (snd (onCallEnd
                    (snd (stopWatchdog
                            (foldl step_revert
                               (set_patches []
                                  (snd (log [VStr "Unloading TelegramCalls"] st)))
                               (patches st))))))) as H.
  { by apply (sat_onCallEnd (I := fun _ => True)). }
  rewrite (discoveries_extends _ _ H).
  rewrite trace_stopWatchdog, trace_step_reverts. unfold discoveries.
  rewrite entered_app.
  assert (entered InGetModules
            (map (fun u => Enter (InRevert u)) (patches st)) = 0%nat) as ->.
  { apply entered_unmarked, Forall_forall. intros e.
    rewrite list_elem_of_fmap. by intros (u & -> & _). }
  simpl.
  assert (extends (unmarked InGetModules) st
            (snd (log [VStr "Unloading TelegramCalls"] st))) as Hl
    by (by apply (sat_log (I := fun _ => True))).
  rewrite (entered_extends _ _ _ Hl). lia.
Qed.

Lemma stereo_not_patched :
  "keepStereoMedia" ∉ ["joinCall"; "leaveCall"; "join"; "leave"].
Proof.
  rewrite !not_elem_of_cons. repeat split; try done. apply not_elem_of_nil.
Qed.

Lemma discoveries_onLoad_stereo_off st :
  flag "keepStereoMedia" st = false ->
  discoveries (trace (snd (onLoad st))) = discoveries (trace st).
Proof.
  intros Hoff. rewrite onLoad_eq.
  assert (extends (unmarked InGetModules) st
            (snd (log [VStr "Loading TelegramCalls"] st))) as Hl
    by (by apply (sat_log (I := fun _ => True))).
  set (s1 := snd (log _ st)) in *.
  assert (flag "keepStereoMedia" s1 = false) as Hoff1.
  { by rewrite (extends_untraced (flag "keepStereoMedia") _ _ _
                  (fun _ _ => eq_refl) Hl). }
  pose proof (keeps_flag_patch "keepStereoMedia" stereo_not_patched s1) as Hf.
  pose proof (keeps_patchVoiceJoinLeave trace (fun _ _ => eq_refl)
                (fun _ _ => eq_refl) (fun _ _ _ _ _ _ _ => eq_refl) s1) as Ht.
  destruct (patchVoiceJoinLeave s1) as [[[]|e] s2]; simpl in Hf, Ht.
  - set (s3 := snd (startWatchdog s2)).
    assert (flag "keepStereoMedia" s3 = flag "keepStereoMedia" s2 /\
            trace s3 = trace s2) as [Hoff3 Ht3].
    { unfold s3. rewrite startWatchdog_eq. unfold stopWatchdog, modify.
      cbn [snd]. by destruct (intervalId s2). }
    rewrite Hf, Hoff1 in Hoff3.
    assert (extends (unmarked InGetModules) s3
              (snd (try_catch
                      (let* c := isInCall in when (truthy c) onCallStart)
                      (fun _ => ret tt) s3))) as Hx.
    { enough (sat (fun s => flag "keepStereoMedia" s = false)
                (unmarked InGetModules)
                (try_catch
                   (let* c := isInCall in when (truthy c) onCallStart)
                   (fun _ => ret tt))) as Hs by exact (Hs s3 Hoff3).
      apply sat_try_catch; [|intros; apply sat_ret].
      apply sat_bind; [by apply sat_isInCall|intros c].
      apply sat_when. intros _. apply sat_onCallStart_stereo_off. }
    rewrite (discoveries_extends _ _ Hx), Ht3, Ht.
    by apply discoveries_extends.
  - simpl. rewrite Ht. by apply discoveries_extends.
Qed.

Section Rediscovery.
Context {I : State -> Prop} `{!Stable I}.

Lemma rediscovers_emit : rediscovers I (emit (Enter InGetModules)).
Proof. intros st _. by exists [Enter InGetModules]. Qed.

Lemma rediscovers_then st st' st'' tr :
  st' = set_trace (trace st ++ tr) st -> (1 <= discoveries tr)%nat ->
  extends any_event st' st'' ->
  exists tr', st'' = set_trace (trace st ++ tr') st /\
              (1 <= discoveries tr')%nat.
Proof.
  intros -> Hn (tr2 & -> & _). exists (tr ++ tr2). split.
  - simpl. by rewrite set_trace_twice, app_assoc.
  - unfold discoveries in *. rewrite entered_app. lia.
Qed.

Lemma rediscovers_bind_l {A B} (m : M A) (k : A -> M B) :
  rediscovers I m -> (forall a, sat I any_event (k a)) -> rediscovers I (bind m k).
Proof.
  intros Hm Hk st HI. destruct (Hm st HI) as (tr & E & Hn). unfold bind.
  destruct (m st) as [[a|e] st']; simpl in *; [|by exists tr].
  eapply rediscovers_then; [exact E|done|].
  apply Hk. rewrite E. by apply stable.
Qed.

Lemma rediscovers_try_catch_l {A} (m : M A) (h : value -> M A) :
  rediscovers I m -> (forall e, sat I any_event (h e)) ->
  rediscovers I (try_catch m h).
Proof.
  intros Hm Hh st HI. destruct (Hm st HI) as (tr & E & Hn).
  unfold try_catch.
  destruct (m st) as [[a|e] st']; simpl in *; [by exists tr|].
  eapply rediscovers_then; [exact E|done|].
  apply Hh. rewrite E. by apply stable.
Qed.

Lemma rediscovers_bind_r {A B} (m : M A) (k : A -> M B) :
  total m -> sat I any_event m -> (forall a, rediscovers I (k a)) ->
  rediscovers I (bind m k).
Proof.
  intros Ht Hm Hk st HI. destruct (Ht st) as [a Ha].
  destruct (Hm st HI) as (tr & E & _). unfold bind.
  destruct (m st) as [[a'|e] st']; simpl in *; [|done].
  assert (I st') as HI' by (rewrite E; by apply stable).
  destruct (Hk a' st' HI') as (tr' & E' & Hn).
  exists (tr ++ tr'). split.
  - rewrite E', E. simpl. by rewrite set_trace_twice, app_assoc.
  - unfold discoveries in *. rewrite entered_app. lia.
Qed.

Lemma rediscovers_if_flag_on k m :
  (forall st, I st -> flag k st = true) -> rediscovers I m ->
  rediscovers I (if_flag k m).
Proof.
  intros Hon Hm st HI. unfold if_flag, bind, gets.
  rewrite (Hon st HI). by apply Hm.
Qed.

Lemma rediscovers_findByProps props : rediscovers I (findByProps props).
Proof.
  unfold findByProps.
  apply rediscovers_bind_l; [|intros; apply sat_scan_props].
  unfold getModules.
  apply rediscovers_bind_l; [apply rediscovers_emit|intros _].
  apply sat_bind; [apply sat_getp|intros gm].
  apply sat_bind; [apply sat_getp|intros r].
  apply sat_bind.
  { destruct (nullish r); [apply sat_ret|by apply sat_opt_invoke]. }
  intros rg.
  apply sat_bind; [apply sat_getp|intros r'].
  apply sat_bind; [apply sat_opt_getp|intros rm].
  apply sat_bind; [apply sat_getp|intros c].
  apply sat_bind; [apply sat_opt_getp|intros cm].
  apply sat_lift.
Qed.

Lemma rediscovers_preferStereoOutput : rediscovers I preferStereoOutput.
Proof.
  unfold preferStereoOutput.
  apply rediscovers_try_catch_l; [|intros; by apply sat_log].
  apply rediscovers_bind_l; [apply rediscovers_findByProps|intros p].
  apply sat_bind.
  { destruct (truthy p); [apply sat_ret|by apply sat_findByProps]. }
  intros Player.
  apply sat_bind; [apply sat_opt_getp|intros cc].
  apply sat_bind.
  { apply sat_when. intros _.
    apply sat_bind; [by apply sat_invoke|intros; apply sat_ret]. }
  intros _.
  apply sat_bind; [apply sat_opt_getp|intros sr].
  apply sat_bind.
  { apply sat_when. intros _.
    apply sat_bind; [by apply sat_invoke|intros; apply sat_ret]. }
  intros _. by apply sat_log.
Qed.
End Rediscovery.

Lemma rediscovers_onCallStart :
  rediscovers (fun s => flag "keepStereoMedia" s = true) onCallStart.
Proof.
  unfold onCallStart.
  apply rediscovers_bind_r; [apply total_emit|by apply sat_emit|intros _].
  apply rediscovers_bind_r;
    [apply total_if_flag, total_ensureMediaStreamNotDucked
    |by apply sat_if_flag, sat_ensureMediaStreamNotDucked|intros _].
  apply rediscovers_bind_l.
  - apply rediscovers_if_flag_on; [done|apply rediscovers_preferStereoOutput].
  - intros _. policy_frame.
Qed.

Lemma rediscovers_tick_in_call :
  rediscovers (fun s => flag "keepStereoMedia" s = true)
    (if_flag "disableAttenuation" ensureMediaStreamNotDucked >>
     if_flag "keepStereoMedia" preferStereoOutput).
Proof.
  apply rediscovers_bind_r;
    [apply total_if_flag, total_ensureMediaStreamNotDucked
    |by apply sat_if_flag, sat_ensureMediaStreamNotDucked|intros _].
  apply rediscovers_if_flag_on; [done|apply rediscovers_preferStereoOutput].
Qed.

Lemma rediscovers_more {A} I (m : M A) st :
  rediscovers I m -> I st ->
  (discoveries (trace st) < discoveries (trace (snd (m st))))%nat.
Proof.
  intros H HI. destruct (H st HI) as (tr & -> & Hn). simpl.
  unfold discoveries in *. rewrite entered_app. lia.
Qed.

(** C9, as the code has it: the six handles bound when index.ts is
    evaluated are changed by no operation of the loaded plugin, but the
    stereo / sample-rate output control is no stored handle.  The
    keep-stereo-media action searches the registry anew every time it
    runs: an operation that cannot reach it, or that runs with
    [keepStereoMedia] off, performs no discovery, while with
    [keepStereoMedia] on every call start and every in-call tick performs
    at least one. *)
Theorem handles_fixed_stereo_rediscovered op st :
  handles (exec op st) = handles st /\
  (reaches_stereo op = false ->
   discoveries (trace (exec op st)) = discoveries (trace st)) /\
  (flag "keepStereoMedia" st = false ->
   discoveries (trace (exec op st)) = discoveries (trace st)) /\
  (flag "keepStereoMedia" st = true ->
   (discoveries (trace st) < discoveries (trace (exec OpCallStart st)))%nat /\
   forall v, fst (isInCall st) = Ok v -> truthy v = true ->
     (discoveries (trace st) < discoveries (trace (exec OpTick st)))%nat).
Proof.
  split; [apply handles_kept|].
  assert (forall orig this args,
            discoveries (trace (exec (OpLeave orig this args) st)) =
            discoveries (trace st)) as Hleave.
  { intros. apply discoveries_extends.
    refine (sat_leaveWrapper (I := fun _ => True) _ _ _ _ _ st Logic.I);
      [done|]. by apply sat_onCallEnd. }
  assert (discoveries (trace (exec OpCallEnd st)) = discoveries (trace st))
    as Hend.
  { apply discoveries_extends.
    by refine (sat_onCallEnd (I := fun _ => True) _ _ _ _ _ st Logic.I). }
  assert (forall k v, discoveries (trace (exec (OpUpd k v) st)) =
                      discoveries (trace st)) as Hupd.
  { intros. simpl. unfold upd, bind, gets, setp.
    by destruct (write (heap st) (ui_Settings st) k (VBool v)). }
  split; [|split].
  - destruct op; try done; intros _; auto; apply discoveries_onUnload.
  - intros Hoff. destruct op; auto; try apply discoveries_onUnload.
    + by apply discoveries_onLoad_stereo_off.
    + apply discoveries_extends. by apply sat_tick_stereo_off.
    + apply discoveries_extends. by apply sat_onCallStart_stereo_off.
    + apply discoveries_extends.
      refine (sat_joinWrapper _ _ _ _ _ st Hoff); [done|].
      apply sat_onCallStart_stereo_off.
  - intros Hon. split.
    + by apply (rediscovers_more _ _ _ rediscovers_onCallStart).
    + intros v Hv Hc. simpl. unfold tick, bind.
      pose proof (sat_isInCall (I := fun s => flag "keepStereoMedia" s = true)
                    (ok := fun _ => True) ltac:(done) st Hon) as Hq.
      destruct (isInCall st) as [[c|e] s1]; simpl in *; [|done].
      injection Hv as ->. rewrite Hc. simpl.
      assert (flag "keepStereoMedia" s1 = true) as Hon1.
      { by rewrite (extends_untraced (flag "keepStereoMedia") _ _ _
                      (fun _ _ => eq_refl) Hq). }
      pose proof (rediscovers_more _ _ _ rediscovers_tick_in_call Hon1) as Hm.
      destruct Hq as (tr & -> & _). simpl in *.
      unfold bind in Hm.
      unfold discoveries in *. rewrite entered_app in Hm. lia.
Qed.

(** ** C5, C6: the locator *)

Lemma every_in_ref props l st :
  every_in props (VRef l) st =
  (Ok (forallb (has_prop (obj_at (heap st) l)) props), st).
Proof.
  induction props as [|p ps IH]; [done|].
  simpl. unfold bind, in_op, lift.
  destruct (has_prop (obj_at (heap st) l) p); [exact IH|done].
Qed.

Lemma is_object_probe st props v :
  is_object st v = true ->
  exists l, v = VRef l /\
    probe_object (heap st) props v =
    Some (forallb (has_prop (obj_at (heap st) l)) props).
Proof.
  unfold is_object, probe_object.
  destruct v as [| |b|n|s|l]; simpl; rewrite ?andb_false_r; try done.
  intros H. exists l. split; [done|].
  by destruct (okind (obj_at (heap st) l)).
Qed.

Lemma is_object_not st props v :
  is_object st v = false -> probe_object (heap st) props v = None.
Proof.
  unfold is_object, probe_object.
  destruct v as [| | | | |l]; simpl; try done.
  by destruct (okind (obj_at (heap st) l)).
Qed.

(** One iteration of the loop of [findByProps]: it never throws and
    changes nothing. *)
Lemma probe_step props modl st :
  try_catch (probe props modl) (fun _ => ret None) st =
  (Ok (probe_result (heap st) props modl), st).
Proof.
  unfold try_catch, probe, probe_result, payload, bind, opt_getp, getp, lift,
    gets, ret.
  destruct (nullish modl) eqn:Hn; simpl.
  - assert (is_object st modl = false) as Ho by by destruct modl.
    rewrite Ho. simpl. by rewrite (is_object_not _ _ _ Ho).
  - destruct (read (heap st) modl "exports") as [e|e]; [|done].
    set (exp := if nullish e then modl else e).
    destruct (is_object st exp) eqn:Ho; simpl.
    + destruct (is_object_probe st props exp Ho) as (l & -> & ->).
      rewrite every_in_ref.
      destruct (forallb _ props); [done|].
      destruct (read (heap st) (VRef l) "default") as [d|e']; [|done].
      destruct (is_object st d) eqn:Hd; simpl.
      * destruct (is_object_probe st props d Hd) as (l' & -> & ->).
        rewrite every_in_ref. by destruct (forallb _ props).
      * by rewrite (is_object_not _ _ _ Hd).
    + by rewrite (is_object_not _ _ _ Ho).
Qed.

(** The scan of [findByProps] never throws, whatever the modules do when
    their properties are read, and changes nothing. *)
Lemma scan_props_eq props mods st :
  scan_props props mods st =
  (Ok (default VNull (head (omap (probe_result (heap st) props) mods))), st).
Proof.
  induction mods as [|modl rest IH]; [done|].
  cbn [scan_props]. unfold bind at 1. rewrite probe_step.
  change (omap ?f (modl :: rest)) with
    (match f modl with Some y => y :: omap f rest | None => omap f rest end).
  destruct (probe_result (heap st) props modl); [done|exact IH].
Qed.

Lemma probe_object_Some h props v b :
  probe_object h props v = Some b ->
  object_like h v /\ (b = true <-> forall p, p ∈ props -> visible h v p).
Proof.
  unfold probe_object, object_like, visible.
  destruct v as [| | | | |l]; try done.
  intros Hk.
  assert (b = forallb (has_prop (obj_at h l)) props /\
          forall c, okind (obj_at h l) <> Function c) as [-> Hnf].
  { destruct (okind (obj_at h l)); by simplify_eq. }
  split; [by exists l|].
  rewrite forallb_forall. split.
  - intros H p Hp. exists l. split; [done|].
    apply list_elem_of_In, H in Hp. unfold has_prop in Hp.
    by destruct (lookup_prop (obj_at h l) p).
  - intros H p Hp. apply list_elem_of_In, H in Hp as (l' & [= <-] & [x Hx]).
    unfold has_prop. by rewrite Hx.
Qed.

Lemma probe_object_None h props v :
  probe_object h props v = None -> ~ object_like h v.
Proof.
  unfold probe_object, object_like.
  intros H (l & -> & Hnf).
  destruct (okind (obj_at h l)) eqn:E; try done. by eapply Hnf.
Qed.

Ltac same_outcome :=
  repeat match goal with
  | H : ?x = Ok _, H' : ?x = Ok _ |- _ => rewrite H in H'; simplify_eq
  | H : ?x = Ok _, H' : ?x = Throw _ |- _ => rewrite H in H'; simplify_eq
  end.

Lemma probe_result_offers h props modl :
  match probe_result h props modl with
  | Some v => offers visible h props modl v
  | None => forall v, ~ offers visible h props modl v
  end.
Proof.
  unfold probe_result.
  destruct (payload h modl) as [exp|e] eqn:Hp.
  2: { intros v Ho. inversion Ho; subst; same_outcome. }
  destruct (probe_object h props exp) as [b|] eqn:Hb.
  2: { apply probe_object_None in Hb.
       intros v Ho. inversion Ho; subst; same_outcome; done. }
  apply probe_object_Some in Hb as [Hobj Hall].
  destruct b.
  { apply offers_export; [done..|]. by apply Hall. }
  assert (~ forall p, p ∈ props -> visible h exp p) as Hnot.
  { intros H. by apply Hall in H. }
  destruct (read h exp "default") as [d|e] eqn:Hd.
  2: { intros v Ho. inversion Ho; subst; same_outcome; done. }
  destruct (probe_object h props d) as [b|] eqn:Hbd.
  2: { apply probe_object_None in Hbd.
       intros v Ho. inversion Ho; subst; same_outcome; done. }
  apply probe_object_Some in Hbd as [Hobjd Halld].
  destruct b.
  { eapply offers_default; eauto. by apply Halld. }
  intros v Ho. inversion Ho; subst; same_outcome; [done|].
  assert (false = true) by (by apply Halld). done.
Qed.

Lemma head_omap_first {A B} (f : A -> option B) (l : list A) :
  match head (omap f l) with
  | Some b =>
      exists i a, l !! i = Some a /\ f a = Some b /\
        forall j a', (j < i)%nat -> l !! j = Some a' -> f a' = None
  | None => forall a, a ∈ l -> f a = None
  end.
Proof.
  induction l as [|a l IH].
  { cbn. intros a Ha. by apply elem_of_nil in Ha. }
  change (omap f (a :: l)) with
    (match f a with Some y => y :: omap f l | None => omap f l end).
  destruct (f a) as [b|] eqn:Hfa.
  { cbn. exists 0%nat, a. repeat split; [done|]. intros; lia. }
  destruct (head (omap f l)) as [b|].
  - destruct IH as (i & a0 & Hi & Hf & Hlt).
    exists (S i), a0. repeat split; [done..|].
    intros [|j] a' Hj; cbn; [by intros [= <-]|].
    apply Hlt. lia.
  - intros a0 [->|Ha]%elem_of_cons; [done|by apply IH].
Qed.

Lemma scan_props_first_offer props mods st :
  exists r, scan_props props mods st = (Ok r, st) /\
            first_offer visible (heap st) props mods r.
Proof.
  rewrite scan_props_eq. eexists. split; [done|].
  pose proof (head_omap_first (probe_result (heap st) props) mods) as H.
  destruct (head (omap _ mods)) as [r|]; simpl.
  - destruct H as (i & modl & Hi & Hr & Hlt). left.
    exists i, modl. split; [done|]. split.
    + pose proof (probe_result_offers (heap st) props modl) as Ho.
      by rewrite Hr in Ho.
    + intros j m Hj Hm.
      pose proof (probe_result_offers (heap st) props m) as Ho.
      by rewrite (Hlt j m Hj Hm) in Ho.
  - right. split; [done|]. intros modl Hm.
    pose proof (probe_result_offers (heap st) props modl) as Ho.
    by rewrite (H modl Hm) in Ho.
Qed.

(** C6, as the code has it: the signature search returns what the first
    offering module of the registry offers (its exported object or else
    that object's [default]), where having a member is the [in] test, own
    or inherited, and null when no module offers anything; it does not
    throw once the registry has been obtained, and leaves the heap as it
    is. *)
Theorem findByProps_first_offer st props mods st' :
  getModules st = (Ok mods, st') ->
  exists r, findByProps props st = (Ok r, st') /\
            heap st' = heap st /\
            first_offer visible (heap st) props mods r.
Proof.
  intros Hg.
  assert (heap st' = heap st) as Hh.
  { pose proof (sat_getModules (I := fun _ => True) (ok := fun _ => True)
                  Logic.I ltac:(done) st Logic.I) as H.
    rewrite Hg in H.
    apply (extends_untraced heap _ _ _ (fun _ _ => eq_refl) H). }
  destruct (scan_props_first_offer props mods st') as (r & Hs & Hf).
  exists r. unfold findByProps, bind. rewrite Hg, Hs, <- Hh. done.
Qed.

(** C6 as stated, with own properties only, fails on a store whose
    methods are inherited: the search returns the store, although no
    module offers an object owning the member. *)
Lemma findByProps_own_counterexample :
  ~ (forall st props mods st',
       getModules st = (Ok mods, st') ->
       exists r, findByProps props st = (Ok r, st') /\
                 first_offer own_visible (heap st) props mods r).
Proof.
  intros H.
  destruct (H proto_state ["isInCall"] [VRef 3]
              (set_trace [Enter InGetModules] proto_state) eq_refl)
    as (r & Hr & Hf).
  vm_compute in Hr. injection Hr as <-.
  destruct Hf as [(i & modl & Hi & Ho & _)|[? _]]; [|done].
  destruct i as [|i]; [|done]. injection Hi as <-.
  assert (forall v, ~ own_visible (heap proto_state) v "isInCall" \/
                    v <> VRef 4) as Hown.
  { intros v. destruct (decide (v = VRef 4)) as [->|]; [left|by right].
    intros (l & [= <-] & [x Hx]). vm_compute in Hx. done. }
  inversion Ho as [exp Hp Hobj Hall|exp d Hp Hobj Hnot Hd Hobjd Hall];
    subst.
  - destruct (Hown (VRef 4)) as [Hn|]; [|done].
    apply Hn, Hall. by left.
  - vm_compute in Hp. injection Hp as <-. vm_compute in Hd. done.
Qed.

(** [findByDisplayName] has no [try] around its property reads: a module
    whose [exports] accessor throws makes the whole search throw. *)
Lemma scan_name_throws name l rest e st :
  lookup_prop (obj_at (heap st) l) "exports" = Some (Accessor e) ->
  scan_name name (VRef l :: rest) st = (Throw e, st).
Proof.
  intros H. cbn [scan_name]. unfold bind, opt_getp, getp, lift. simpl.
  by rewrite H.
Qed.

(** C5: on a registry whose first module has a throwing [exports]
    accessor, the signature search skips that module and answers, while
    the display-name search throws what the accessor throws. *)
Theorem findByDisplayName_throws_on_bad_module :
  fst (findByProps ["getAttenuation"; "setAttenuation"] demo_state) =
  Ok (VRef 8) /\
  fst (findByDisplayName "TelegramCallsSettings" demo_state) =
  Throw (VStr "boom").
Proof. split; vm_compute; reflexivity. Qed.

(** ** C1: the two Settings objects *)

(** A write of the settings form lands in the object of settings.tsx; the
    policy reads the object of index.ts. *)
Lemma upd_invisible st k v k' :
  ui_Settings st <> VRef (Settings st) ->
  flag k' (snd (upd k v st)) = flag k' st.
Proof.
  intros Hne. unfold upd, bind, gets, setp.
  destruct (write (heap st) (ui_Settings st) k (VBool v)) as [h'|e] eqn:Hw;
    [|done].
  apply write_inv in Hw as (l & Hl & ->). unfold flag. simpl.
  rewrite obj_at_insert_ne; [done|]. intros ->. by rewrite Hl in Hne.
Qed.

Lemma settings_tsx_binding st0 s1 :
  settings_tsx st0 = (Ok tt, s1) ->
  (forall l, read (heap st0) globalThis "__TelegramCallsSettings" = Ok (VRef l) ->
             l ∈ dom (heap st0)) ->
  forall l, ui_Settings s1 = VRef l -> l ∈ dom (heap s1).
Proof.
  unfold settings_tsx, bind at 1, getp, lift.
  destruct (read (heap st0) globalThis "__TelegramCallsSettings")
    as [cur|e] eqn:Hr; [|done].
  destruct (nullish cur) eqn:Hn.
  - unfold bind, alloc, setp, modify, ret. cbn [heap set_heap fst snd].
    destruct (write _ globalThis _ _) as [h'|e] eqn:Hw; [|done].
    intros [= <-] _ l. cbn. intros [= <-].
    apply write_inv in Hw as (l0 & _ & ->).
    apply elem_of_dom.
    destruct (decide (l0 = fresh (dom (heap st0)))) as [->|Hne].
    + rewrite lookup_insert_eq. eauto.
    + rewrite lookup_insert_ne, lookup_insert_eq by done. eauto.
  - unfold bind, modify, ret. intros [= <-] Hwf l. cbn. intros ->.
    by apply Hwf.
Qed.

Lemma or_else_sat (I : State -> Prop) `{!Stable I} ok a (b : M value) :
  sat I ok b -> sat I ok (or_else a b).
Proof. intros. unfold or_else. destruct (truthy a); [apply sat_ret|done]. Qed.

(** Evaluating the two modules leaves two distinct Settings objects: the
    one of index.ts is new, and holds the defaults. *)
Lemma load_modules_two_objects st0 st :
  load_modules st0 = (Ok tt, st) ->
  (forall l, read (heap st0) globalThis "__TelegramCallsSettings" = Ok (VRef l) ->
             l ∈ dom (heap st0)) ->
  ui_Settings st <> VRef (Settings st) /\
  obj_at (heap st) (Settings st) = default_settings.
Proof.
  unfold load_modules, bind at 1.
  destruct (settings_tsx st0) as [[[]|e] s1] eqn:Hs; [|done].
  intros Hi Hwf.
  pose proof (settings_tsx_binding _ _ Hs Hwf) as Hui.
  revert Hi. unfold index_ts, bind at 1, alloc. cbn [fst snd].
  unfold bind at 1, modify at 1. cbn [fst snd].
  set (l2 := fresh (dom (heap s1))).
  set (s2 := set_bindings l2 _ _).
  set (f := fun s : State => (Settings s, ui_Settings s, heap s)).
  match goal with
  | |- ?R s2 = _ -> _ => assert (keeps f R) as Hk
  end.
  { repeat first
      [ apply keeps_bind;
        [ apply keeps_sat; [done|];
          first [ by apply sat_findByProps | apply sat_getp
                | apply sat_opt_getp
                | apply or_else_sat; [apply _|] ]
        | intros ? ]
      | by apply sat_findByProps
      | apply sat_bind; [first [apply sat_getp|apply sat_opt_getp]|intros ?]
      | apply or_else_sat; [apply _|]
      | intros ? ].
    reflexivity. }
  intros Hi. specialize (Hk s2). rewrite Hi in Hk. cbn [snd] in Hk.
  unfold f in Hk. injection Hk as HS HU HH.
  rewrite HS, HU, HH. unfold s2. cbn. split.
  - intros E. apply Hui in E. by apply is_fresh in E.
  - apply obj_at_insert.
Qed.

(** Whatever the form writes, the policy keeps reading the defaults. *)
Lemma ui_writes_never_reach_policy st0 st k v :
  load_modules st0 = (Ok tt, st) ->
  (forall l, read (heap st0) globalThis "__TelegramCallsSettings" = Ok (VRef l) ->
             l ∈ dom (heap st0)) ->
  forall k', flag k' (snd (upd k v st)) = flag k' st /\
             flag k' st =
             match assoc k' (own default_settings) with
             | Some (Data x) => truthy x
             | _ => false
             end.
Proof.
  intros Hl Hwf k'.
  destruct (load_modules_two_objects _ _ Hl Hwf) as [Hne Hobj].
  split; [by apply upd_invisible|].
  unfold flag, lookup_prop. rewrite Hobj.
  by destruct (assoc k' (own default_settings)) as [[]|].
Qed.

(** C1: after the settings form switches [disableAttenuation] off, the
    form's own object holds false, but the policy still reads true from
    the [Settings] object of index.ts, and the call-start policy still
    requests 0% attenuation. *)
Theorem ui_toggle_not_seen_by_policy :
  let st := snd (upd "disableAttenuation" false demo_state) in
  ui_Settings st <> VRef (Settings st) /\
  read (heap st) (ui_Settings st) "disableAttenuation" = Ok (VBool false) /\
  flag "disableAttenuation" st = true /\
  emitted onCallStart st =
  [Enter InOnCallStart; Call (VRef 8) "setAttenuation" [VNum 0];
   Enter InGetModules; Call (VRef 14) "setChannelCount" [VNum 2];
   Call (VRef 14) "setSampleRate" [VNum 48000];
   Call (VRef 6) "setEchoCancellation" [VBool false];
   Call (VRef 6) "setNoiseSuppression" [VBool false];
   Call (VRef 16) "isHeadsetConnected" [];
   Call (VRef 18) "setMode" [VNum 0]].
Proof. repeat split; vm_compute; (reflexivity || discriminate). Qed.

(** ** Examples *)

(** A revert that throws does not stop the loop: the second revert still
    restores [leaveCall]. *)
Example unload_survives_throwing_revert :
  reverts (emitted onUnload broken_slot_state) =
  [MkUnpatch (VRef 12) "joinCall" (VRef 21);
   MkUnpatch (VRef 12) "leaveCall" (VRef 22)] /\
  read (heap (snd (onUnload broken_slot_state))) (VRef 12) "joinCall" =
  Throw (VStr "frozen") /\
  read (heap (snd (onUnload broken_slot_state))) (VRef 12) "leaveCall" =
  Ok (VRef 22).
Proof. repeat split; vm_compute; reflexivity. Qed.

(** The player is looked up in the registry as it is when the tick runs;
    the stored handles are the ones bound at load. *)
Example tick_uses_current_registry :
  emitted tick swapped_player_state =
  [Call (VRef 4) "isInCall" []; Call (VRef 8) "setAttenuation" [VNum 0];
   Enter InGetModules; Call (VRef 30) "setChannelCount" [VNum 2];
   Call (VRef 30) "setSampleRate" [VNum 48000]] /\
  handles (snd (tick swapped_player_state)) = handles demo_state.
Proof. split; vm_compute; reflexivity. Qed.

(** The host calling a patched slot runs the wrapper around the
    original. *)
Example patched_leaveCall_runs_wrapper :
  let st := snd (onLoad demo_state) in
  host_calls (VRef 12) "leaveCall" [] st = leaveWrapper (VRef 22) (VRef 12) [] st /\
  host_calls (VRef 12) "joinCall" [] st = joinWrapper (VRef 21) (VRef 12) [] st.
Proof. split; vm_compute; reflexivity. Qed.

(** ** Instances of the conditional theorems *)

Lemma disabled_setting_never_requested_witness :
  let st := with_flag "disableAttenuation" false demo_state in
  flag "disableAttenuation" st = false /\
  extends (silent ["setAttenuation"]) st (snd (onCallStart st)) /\
  extends (silent ["setAttenuation"]) st (snd (tick st)).
Proof.
  split; [vm_compute; reflexivity|].
  apply (disabled_setting_never_requested "disableAttenuation"
           ["setAttenuation"]).
  - apply elem_of_cons. by left.
  - vm_compute; reflexivity.
Defined.

Lemma watchdog_period_and_tick_witness :
  (exists i, intervalId (snd (onLoad demo_state)) = Some i /\
             timers (snd (onLoad demo_state)) !! i = Some 2000) /\
  tick (boot demo_heap (demo_host (Ok VUndef))) =
  (Ok tt, boot demo_heap (demo_host (Ok VUndef))) /\
  (exists tr,
     tick idle_state = (Ok tt, set_trace (trace idle_state ++ tr) idle_state) /\
     (tr = [] \/ tr = [Call (VoiceStore idle_state) "isInCall" []])) /\
  tick demo_state =
  (if_flag "disableAttenuation" ensureMediaStreamNotDucked >>
   if_flag "keepStereoMedia" preferStereoOutput) (snd (isInCall demo_state)).
Proof.
  split; [|split; [|split]].
  - apply (watchdog_period_and_tick demo_state). vm_compute; reflexivity.
  - apply (watchdog_period_and_tick (boot demo_heap (demo_host (Ok VUndef)))).
    vm_compute; reflexivity.
  - apply (proj1 (proj2 (proj2 (proj2 (proj2
             (proj2 (watchdog_period_and_tick idle_state))))))
             (VBool false)); vm_compute; reflexivity.
  - apply (proj1 (proj2 (proj2 (proj2 (proj2 (proj2
             (proj2 (watchdog_period_and_tick demo_state)))))))
             (VBool true)); vm_compute; reflexivity.
Defined.

Lemma install_revert_roundtrip_witness :
  (exists w st2,
     read (heap (snd (monkeyPatch (VRef 12) "leaveCall" LeaveHook demo_state)))
       (VRef 12) "leaveCall" = Ok (VRef w) /\
     okind (obj_at
              (heap (snd (monkeyPatch (VRef 12) "leaveCall" LeaveHook
                            demo_state))) w) =
     Function (LeaveHook (VRef 22)) /\
     run_unpatch (MkUnpatch (VRef 12) "leaveCall" (VRef 22))
       (snd (monkeyPatch (VRef 12) "leaveCall" LeaveHook demo_state)) =
     (Ok tt, st2) /\
     read (heap demo_state) (VRef 12) "leaveCall" = Ok (VRef 22) /\
     read (heap st2) (VRef 12) "leaveCall" = Ok (VRef 22)) /\
  read (heap (snd (onUnload (snd (patchVoiceJoinLeave demo_state)))))
    (VoiceConnection demo_state) "joinCall" =
  read (heap demo_state) (VoiceConnection demo_state) "joinCall".
Proof.
  split.
  - apply (proj1 install_revert_roundtrip demo_state (VRef 12) "leaveCall"
             LeaveHook (MkUnpatch (VRef 12) "leaveCall" (VRef 22))).
    vm_compute; reflexivity.
  - apply (proj2 install_revert_roundtrip demo_state).
    + vm_compute; reflexivity.
    + vm_compute; reflexivity.
Defined.

Lemma handles_fixed_stereo_rediscovered_witness :
  let off := with_flag "keepStereoMedia" false demo_state in
  discoveries (trace (exec OpTick off)) = discoveries (trace off) /\
  discoveries (trace (exec OpCallEnd demo_state)) =
  discoveries (trace demo_state) /\
  (discoveries (trace demo_state) <
   discoveries (trace (exec OpCallStart demo_state)))%nat /\
  (discoveries (trace demo_state) <
   discoveries (trace (exec OpTick demo_state)))%nat.
Proof.
  split; [|split; [|split]].
  - apply (proj1 (proj2 (proj2
             (handles_fixed_stereo_rediscovered OpTick
                (with_flag "keepStereoMedia" false demo_state))))).
    vm_compute; reflexivity.
  - apply (proj1 (proj2
             (handles_fixed_stereo_rediscovered OpCallEnd demo_state))).
    reflexivity.
  - apply (proj2 (proj2 (proj2
             (handles_fixed_stereo_rediscovered OpTick demo_state)))).
    vm_compute; reflexivity.
  - apply (proj2 (proj2 (proj2 (proj2
             (handles_fixed_stereo_rediscovered OpTick demo_state)))
             ltac:(vm_compute; reflexivity)) (VBool true));
      vm_compute; reflexivity.
Defined.

Lemma findByProps_first_offer_witness :
  exists r,
    findByProps ["setChannelCount"; "setSampleRate"] demo_state =
    (Ok r, snd (getModules demo_state)) /\
    heap (snd (getModules demo_state)) = heap demo_state /\
    first_offer visible (heap demo_state)
      ["setChannelCount"; "setSampleRate"]
      [VRef 13; VRef 3; VRef 5; VRef 7; VRef 9; VRef 11; VRef 15] r.
Proof.
  apply (findByProps_first_offer demo_state).
  vm_compute; reflexivity.
Defined.

(** C9 as stated, without the exception for the output control, fails:
    an in-call tick searches the registry again. *)
Lemma no_rediscovery_counterexample :
  ~ (forall op st,
       handles (exec op st) = handles st /\
       discoveries (trace (exec op st)) = discoveries (trace st)).
Proof.
  intros H. destruct (H OpTick demo_state) as [_ Hd].
  vm_compute in Hd. discriminate.
Qed.

(** C8 as stated fails where the voice store is bound and answers
    not-in-call: asking it is itself a call of a capability method. *)
Lemma tick_query_counterexample :
  ~ (forall st v,
       fst (isInCall st) = Ok v -> truthy v = false ->
       Forall no_call (emitted tick st)).
Proof.
  intros H.
  assert (Forall no_call (emitted tick idle_state)) as Hf.
  { apply (H idle_state (VBool false)); vm_compute; reflexivity. }
  vm_compute in Hf. inversion Hf as [|e tr Hcall _]. exact Hcall.
Qed.

Lemma join_wrapper_outcome_witness :
  let st1 :=
    set_trace (trace demo_state ++ [Apply (VRef 21) (VRef 12) []]) demo_state in
  match host demo_state (trace demo_state ++ [Apply (VRef 21) (VRef 12) []]) with
  | Throw e =>
      joinWrapper (VRef 21) (VRef 12) [] demo_state = (Throw e, st1) /\
      entered InOnCallStart (trace st1) =
      entered InOnCallStart (trace demo_state)
  | Ok res =>
      joinWrapper (VRef 21) (VRef 12) [] demo_state =
      (Ok res, snd (onCallStart st1)) /\
      entered InOnCallStart (trace (snd (onCallStart st1))) =
      S (entered InOnCallStart (trace demo_state)) /\
      exists tr,
        trace (snd (onCallStart st1)) =
        trace demo_state ++ Apply (VRef 21) (VRef 12) [] :: tr /\
        Forall not_apply tr
  end.
Proof.
  apply (join_wrapper_outcome (VRef 21) (VRef 12) [] demo_state).
  vm_compute; reflexivity.
Defined.

Lemma leave_wrapper_outcome_witness :
  let st := demo (Throw (VStr "hang-up failed")) in
  let st1 := set_trace (trace st ++ [Apply (VRef 22) (VRef 12) []]) st in
  let st2 := snd (leaveWrapper (VRef 22) (VRef 12) [] st) in
  match host st (trace st ++ [Apply (VRef 22) (VRef 12) []]) with
  | Throw e =>
      fst (leaveWrapper (VRef 22) (VRef 12) [] st) = Throw e /\
      st2 = snd (onCallEnd st1) /\
      entered InOnCallEnd (trace st2) = S (entered InOnCallEnd (trace st))
  | Ok res =>
      fst (leaveWrapper (VRef 22) (VRef 12) [] st) = Ok res /\
      st2 = snd (onCallEnd (snd (onCallEnd st1))) /\
      entered InOnCallEnd (trace st2) = S (S (entered InOnCallEnd (trace st)))
  end /\
  exists tr,
    trace st2 = trace st ++ Apply (VRef 22) (VRef 12) [] :: tr /\
    Forall not_apply tr.
Proof.
  intros st.
  apply (leave_wrapper_outcome (VRef 22) (VRef 12) [] st).
  vm_compute; reflexivity.
Defined.

(** * Further properties of index.ts *)

(** ** The policy actions, with receivers and arguments *)

Section Exact.
Context {I : State -> Prop} `{!Stable I} {ok : event -> Prop}.
Hypothesis Hlog : forall args, sat I ok (log args).

Lemma sat_gets_eq {A B} (f : State -> A) b (K : A -> M B) :
  (forall st, I st -> f st = b) ->
  sat I ok (K b) -> sat I ok (bind (gets f) K).
Proof.
  intros Hb HK st HI. unfold bind, gets. rewrite (Hb st HI). by apply HK.
Qed.

Lemma sat_ensure_at a :
  (forall st, I st -> AttenuationStore st = a) ->
  ok (Call a "setAttenuation" [VNum 0]) ->
  sat I ok ensureMediaStreamNotDucked.
Proof.
  intros Ha Hc. unfold ensureMediaStreamNotDucked.
  apply sat_try_catch; [|intros; apply Hlog].
  apply (sat_gets_eq _ a); [done|].
  apply sat_bind; [apply sat_opt_getp|intros m].
  destruct (negb (truthy m)); [apply sat_ret|].
  apply sat_bind; [by apply sat_invoke|intros; apply Hlog].
Qed.

Lemma sat_safeSet_at am :
  (forall st, I st -> AudioManagerNative st = am) ->
  ok (Call am "setMode" [VNum 0]) ->
  sat I ok safeSetAudioModeNormal.
Proof.
  intros Ha Hc. unfold safeSetAudioModeNormal.
  apply sat_try_catch; [|intros; apply Hlog].
  apply (sat_gets_eq _ am); [done|].
  apply sat_bind; [apply sat_opt_getp|intros m].
  destruct (negb (truthy m)); [apply sat_ret|].
  apply sat_bind; [by apply sat_invoke|intros; apply Hlog].
Qed.

Lemma sat_isWired_at dm :
  (forall st, I st -> DeviceManager st = dm) ->
  ok (Call dm "isHeadsetConnected" []) ->
  sat I ok isWiredHeadphones.
Proof.
  intros Ha Hc. unfold isWiredHeadphones.
  apply sat_try_catch; [|intros; apply sat_ret].
  apply (sat_gets_eq _ dm); [done|].
  apply sat_bind; [apply sat_opt_getp|intros m].
  destruct (truthy m); [|apply sat_ret].
  apply sat_bind; [by apply sat_invoke|intros; apply sat_ret].
Qed.

Lemma sat_relax_at me :
  (forall st, I st -> MediaEngine st = me) ->
  ok (Call me "setEchoCancellation" [VBool false]) ->
  ok (Call me "setNoiseSuppression" [VBool false]) ->
  ok (Call me "setAutomaticGainControl" [VBool false]) ->
  ok (Call me "setOpusEncoderEnableFEC" [VBool true]) ->
  ok (Call me "setOpusBitrate" [VNum 64000]) ->
  sat I ok relaxMicProcessing.
Proof.
  intros Ha H1 H2 H3 H4 H5. unfold relaxMicProcessing.
  apply (sat_gets_eq _ me); [done|].
  destruct (negb (truthy me)); [apply sat_ret|].
  apply sat_try_catch; [|intros; apply Hlog].
  repeat (apply sat_bind; [by apply sat_opt_invoke|intros _]).
  apply Hlog.
Qed.

Lemma sat_end_at me :
  (forall st, I st -> MediaEngine st = me) ->
  ok (Enter InOnCallEnd) ->
  ok (Call me "setEchoCancellation" [VBool true]) ->
  ok (Call me "setNoiseSuppression" [VBool true]) ->
  ok (Call me "setAutomaticGainControl" [VBool true]) ->
  sat I ok onCallEnd.
Proof.
  intros Ha H0 H1 H2 H3. unfold onCallEnd.
  apply sat_bind; [by apply sat_emit|intros _].
  apply sat_try_catch; [|intros; apply sat_ret].
  apply sat_bind; [apply sat_gets|intros r].
  apply (sat_gets_eq _ me); [done|].
  destruct (r && truthy me); [|apply sat_ret].
  repeat (apply sat_bind; [by apply sat_opt_invoke|intros _]).
  apply Hlog.
Qed.

Lemma sat_prefer_at :
  ok (Enter InGetModules) -> (forall r, ok (Call r "getModules" [])) ->
  (forall r, ok (Call r "setChannelCount" [VNum 2])) ->
  (forall r, ok (Call r "setSampleRate" [VNum 48000])) ->
  sat I ok preferStereoOutput.
Proof.
  intros H0 Hg H1 H2.
  assert (sat I ok getModules) as HgM.
  { unfold getModules.
    apply sat_bind; [by apply sat_emit|intros _].
    apply sat_bind; [apply sat_getp|intros gm].
    apply sat_bind; [apply sat_getp|intros r].
    apply sat_bind.
    { destruct (nullish r); [apply sat_ret|by apply sat_opt_invoke]. }
    intros rg.
    apply sat_bind; [apply sat_getp|intros r'].
    apply sat_bind; [apply sat_opt_getp|intros rm].
    apply sat_bind; [apply sat_getp|intros c].
    apply sat_bind; [apply sat_opt_getp|intros cm].
    apply sat_lift. }
  assert (forall props, sat I ok (findByProps props)) as Hf.
  { intros. unfold findByProps.
    apply sat_bind; [done|intros; apply sat_scan_props]. }
  unfold preferStereoOutput.
  apply sat_try_catch; [|intros; apply Hlog].
  apply sat_bind; [done|intros p].
  apply sat_bind; [destruct (truthy p); [apply sat_ret|done]|].
  intros Player.
  apply sat_bind; [apply sat_opt_getp|intros cc].
  apply sat_bind.
  { apply sat_when. intros _.
    apply sat_bind; [by apply sat_invoke|intros; apply sat_ret]. }
  intros _.
  apply sat_bind; [apply sat_opt_getp|intros sr].
  apply sat_bind.
  { apply sat_when. intros _.
    apply sat_bind; [by apply sat_invoke|intros; apply sat_ret]. }
  intros _. apply Hlog.
Qed.
End Exact.

Lemma sat_log_prefixed I `{!Stable I} (ok : event -> Prop) args :
  (forall l, ok (ConsoleLog (VStr "[TelegramCalls]" :: l))) ->
  sat I ok (log args).
Proof.
  intros H. unfold log. apply sat_bind; [apply sat_gets|intros v].
  apply sat_when. intros _. by apply sat_emit.
Qed.

Lemma sat_log_off I `{!Stable I} (ok : event -> Prop) args :
  (forall st, I st -> flag "verboseLogs" st = false) ->
  sat I ok (log args).
Proof.
  intros H. unfold log. eapply sat_flag; [exact H|apply sat_ret].
Qed.

#[global] Instance stable_handles hs : Stable (fun st => handles st = hs).
Proof. by intros ? ? ?. Qed.

Ltac in_table := simpl; tauto.

Section Pinned.
Context {I : State -> Prop} `{!Stable I} {ok : event -> Prop}.
Context (h : gmap loc obj).
Hypothesis Hheap : forall st, I st -> heap st = h.
Hypothesis Hlog : forall args, sat I ok (log args).

Lemma sat_getp_at {B} v k (K : value -> M B) :
  (forall x, read h v k = Ok x -> sat I ok (K x)) ->
  sat I ok (bind (getp v k) K).
Proof.
  intros HK st HI. unfold bind, getp, lift. rewrite (Hheap st HI).
  destruct (read h v k) as [x|e] eqn:Hr; [by apply HK|apply extends_refl].
Qed.

Lemma sat_opt_getp_at {B} v k (K : value -> M B) :
  (forall x, x = VUndef \/ read h v k = Ok x -> sat I ok (K x)) ->
  sat I ok (bind (opt_getp v k) K).
Proof.
  intros HK. unfold opt_getp. destruct (nullish v).
  - intros st HI. unfold bind, ret. apply HK; auto.
  - apply sat_getp_at. intros x Hx. apply HK; auto.
Qed.

Lemma sat_getModules_at :
  ok (Enter InGetModules) ->
  (forall r, read h globalThis "__r" = Ok r -> ok (Call r "getModules" [])) ->
  sat I ok getModules.
Proof.
  intros H0 Hg. unfold getModules.
  apply sat_bind; [by apply sat_emit|intros _].
  apply sat_bind; [apply sat_getp|intros gm].
  apply sat_getp_at. intros r Hr.
  apply sat_bind.
  { destruct (nullish r); [apply sat_ret|apply sat_opt_invoke; auto]. }
  intros rg.
  apply sat_bind; [apply sat_getp|intros r'].
  apply sat_bind; [apply sat_opt_getp|intros rm].
  apply sat_bind; [apply sat_getp|intros c].
  apply sat_bind; [apply sat_opt_getp|intros cm].
  apply sat_lift.
Qed.

Lemma sat_player_call {B} Player k args (K : M B) :
  (has_method h Player k -> ok (Call Player k args)) ->
  sat I ok K ->
  sat I ok
    (let* m := opt_getp Player k in
     when (truthy m) (invoke Player k args >> ret tt) >> K).
Proof.
  intros Hc HK. apply sat_opt_getp_at. intros m Hm.
  apply sat_bind; [|by intros _].
  destruct (truthy m) eqn:Ht; [|apply sat_ret]. cbn [when].
  apply sat_bind; [|intros; apply sat_ret].
  apply sat_invoke, Hc. exists m. split; [|done].
  by destruct Hm as [->|Hm].
Qed.

Lemma sat_prefer_pinned :
  ok (Enter InGetModules) ->
  (forall r m a, stereo_call h r m a -> ok (Call r m a)) ->
  sat I ok preferStereoOutput.
Proof.
  intros H0 Hs.
  assert (forall props, sat I ok (findByProps props)) as Hf.
  { intros. unfold findByProps.
    apply sat_bind; [|intros; apply sat_scan_props].
    apply sat_getModules_at; [done|]. intros r Hr. apply Hs. left. done. }
  unfold preferStereoOutput.
  apply sat_try_catch; [|intros; apply Hlog].
  apply sat_bind; [done|intros p].
  apply sat_bind; [destruct (truthy p); [apply sat_ret|done]|].
  intros Player.
  apply sat_player_call.
  { intros Hm. apply Hs. right. left. done. }
  apply sat_player_call.
  { intros Hm. apply Hs. right. right. done. }
  apply Hlog.
Qed.
End Pinned.

#[global] Instance stable_world h hs :
  Stable (fun st => handles st = hs /\ heap st = h).
Proof. by intros ? ? ?. Qed.

Lemma sat_onCallStart_table h hs :
  sat (fun st => handles st = hs /\ heap st = h) (start_event h hs) onCallStart.
Proof.
  set (I := fun st => handles st = hs /\ heap st = h).
  assert (forall args, sat I (start_event h hs) (log args)) as Hl
    by (intros; apply sat_log_prefixed; first [exact _|intros; exact eq_refl]).
  assert (forall (f : Handles -> value) (g : State -> value),
            (forall s, g s = f (handles s)) ->
            forall s, I s -> g s = f hs) as Hh.
  { intros f g Hfg s [Hs _]. by rewrite Hfg, Hs. }
  unfold onCallStart.
  apply sat_bind; [apply sat_emit; in_table|intros _].
  apply sat_bind; [|intros _].
  { apply sat_if_flag.
    apply (sat_ensure_at Hl (h_AttenuationStore hs));
      [by apply (Hh h_AttenuationStore)|in_table]. }
  apply sat_bind; [|intros _].
  { apply sat_if_flag.
    apply (sat_prefer_pinned h); [by intros s [_ ?]|done|in_table|].
    intros r m a Hs. by right. }
  apply sat_bind; [|intros _].
  { apply sat_if_flag.
    apply (sat_relax_at Hl (h_MediaEngine hs));
      [by apply (Hh h_MediaEngine)|in_table..]. }
  apply sat_if_flag.
  apply sat_bind.
  { apply (sat_isWired_at (h_DeviceManager hs));
      [by apply (Hh h_DeviceManager)|in_table]. }
  intros w. apply sat_when. intros _.
  apply (sat_safeSet_at Hl (h_AudioManagerNative hs));
    [by apply (Hh h_AudioManagerNative)|in_table].
Qed.

Lemma sat_tick_events h hs :
  sat (fun st => handles st = hs /\ heap st = h) (tick_event h hs) tick.
Proof.
  set (I := fun st => handles st = hs /\ heap st = h).
  assert (forall args, sat I (tick_event h hs) (log args)) as Hl
    by (intros; apply sat_log_prefixed; first [exact _|intros; exact eq_refl]).
  unfold tick. apply sat_bind.
  { unfold isInCall.
    apply (sat_gets_eq _ (h_VoiceStore hs)); [by intros ? [<- _]|].
    destruct (nullish _); [apply sat_ret|].
    apply sat_opt_invoke. in_table. }
  intros c. destruct (negb (truthy c)); [apply sat_ret|].
  apply sat_bind; [|intros _].
  { apply sat_if_flag.
    apply (sat_ensure_at Hl (h_AttenuationStore hs));
      [by intros ? [<- _]|in_table]. }
  apply sat_if_flag.
  apply (sat_prefer_pinned h); [by intros s [_ ?]|done|in_table|].
  intros r m a Hs. by right.
Qed.

(** X1: every host call of the call-start policy, of the call-end policy
    and of a watchdog tick is one of the calls written in index.ts, with
    the arguments given there.  On the stored handles: attenuation 0 on
    the attenuation store; echo cancellation, noise suppression and gain
    control off, FEC on and 64000 bit/s on the media engine; the headset
    query on the device manager; mode 0 on the audio bridge; the in-call
    query on the voice store.  In the stereo preference: [getModules()] on
    [globalThis.__r], and two channels and 48000 Hz, each on an object
    that has the method.  On call end the three DSP switches back on, and
    nothing else.  No original is applied, every console line starts with
    the plugin's tag, and nothing but the trace changes. *)
Theorem policy_calls_are_the_listed_ones st :
  extends (start_event (heap st) (handles st)) st (snd (onCallStart st)) /\
  extends (end_event (handles st)) st (snd (onCallEnd st)) /\
  extends (tick_event (heap st) (handles st)) st (snd (tick st)).
Proof.
  split; [by apply sat_onCallStart_table|]. split.
  - refine (sat_end_at (I := fun s => handles s = handles st) _
              (h_MediaEngine (handles st)) _ _ _ _ _ st eq_refl);
      try in_table.
    + intros; apply sat_log_prefixed; first [exact _|intros; exact eq_refl].
    + by intros ? <-.
  - by apply sat_tick_events.
Qed.

(** ** What can throw *)

Lemma total_tick_body :
  total (if_flag "disableAttenuation" ensureMediaStreamNotDucked >>
         if_flag "keepStereoMedia" preferStereoOutput).
Proof.
  apply total_bind;
    [apply total_if_flag, total_ensureMediaStreamNotDucked|intros _].
  apply total_if_flag, total_preferStereoOutput.
Qed.

Lemma total_load_tail :
  total (try_catch (let* c := isInCall in when (truthy c) onCallStart)
           (fun _ => ret tt)).
Proof. apply total_try_catch. intros. apply total_ret. Qed.

(** X2: the policy never throws into the host.  Whatever the host's
    methods return or throw, the call-start and call-end policies complete
    normally; a watchdog tick throws exactly when the in-call query
    itself throws; and [onLoad] throws exactly when installing the
    interceptions throws (the already-in-call check cannot make it
    fail). *)
Theorem policy_never_throws st :
  fst (onCallStart st) = Ok tt /\
  fst (onCallEnd st) = Ok tt /\
  fst (tick st) =
  match fst (isInCall st) with
  | Ok _ => Ok tt
  | Throw e => Throw e
  end /\
  fst (onLoad st) =
  fst (patchVoiceJoinLeave (snd (log [VStr "Loading TelegramCalls"] st))).
Proof.
  split; [by rewrite (total_unit _ st total_onCallStart)|].
  split; [by rewrite (total_unit _ st total_onCallEnd)|].
  split.
  - unfold tick, bind at 1.
    destruct (isInCall st) as [[c|e] s]; [|done]. cbn [fst].
    destruct (negb (truthy c)); [done|].
    by rewrite (total_unit _ s total_tick_body).
  - rewrite onLoad_eq.
    destruct (patchVoiceJoinLeave _) as [[[]|e] s2]; [|done].
    by rewrite (total_unit _ _ total_load_tail).
Qed.

(** ** Which slots are patched *)

Lemma both_in_eq a b l st :
  both_in a b (VRef l) st = (Ok (has_both (heap st) (VRef l) a b), st).
Proof.
  unfold both_in, bind, in_op, lift, has_both.
  by destruct (has_prop (obj_at (heap st) l) a).
Qed.

Lemma both_in_not_ref a b v st :
  (forall l, v <> VRef l) -> exists e, both_in a b v st = (Throw e, st).
Proof.
  intros H. unfold both_in, bind, in_op, lift.
  destruct v; try by eexists. by destruct (H l).
Qed.

Lemma monkeyPatch_fields o k p st u st1 :
  monkeyPatch o k p st = (Ok u, st1) ->
  u_obj u = o /\ u_method u = k /\ patches st1 = patches st /\
  read (heap st) o k = Ok (u_orig u).
Proof. by intros (orig & h1 & Hr & -> & _ & ->)%monkeyPatch_inv. Qed.

Lemma patch_pair_fields vc a b st st1 :
  (let* u1 := monkeyPatch vc a JoinHook in
   push u1 >>
   let* u2 := monkeyPatch vc b LeaveHook in
   push u2) st = (Ok tt, st1) ->
  exists u1 u2,
    patches st1 = patches st ++ [u1; u2] /\
    u_obj u1 = vc /\ u_obj u2 = vc /\ u_method u1 = a /\ u_method u2 = b.
Proof.
  unfold bind at 1.
  destruct (monkeyPatch vc a JoinHook st) as [[u1|e] sA] eqn:H1; [|done].
  unfold bind at 1, push at 1, modify at 1. unfold bind at 1.
  destruct (monkeyPatch vc b LeaveHook _) as [[u2|e] sB] eqn:H2; [|done].
  unfold push, modify. intros [= <-].
  apply monkeyPatch_fields in H1 as (? & ? & Hp1 & _).
  apply monkeyPatch_fields in H2 as (? & ? & Hp2 & _).
  exists u1, u2. cbn in *. rewrite Hp2, Hp1, <- app_assoc. done.
Qed.

(** X3: which interceptions are installed.  With no connection object
    nothing is touched.  Otherwise, when patching completes, it has appended
    to the patch list exactly one revert per chosen slot, all on the
    connection object: [joinCall] and [leaveCall] when both are present
    (even if [join] and [leave] are present too), else [join] and [leave]
    when both are present, else none. *)
Theorem patch_selects_one_pair st st1 :
  patchVoiceJoinLeave st = (Ok tt, st1) ->
  (truthy (VoiceConnection st) = false -> st1 = st) /\
  (truthy (VoiceConnection st) = true ->
   exists us,
     patches st1 = patches st ++ us /\
     map u_method us = chosen_slots (heap st) (VoiceConnection st) /\
     Forall (fun u => u_obj u = VoiceConnection st) us).
Proof.
  unfold patchVoiceJoinLeave, bind at 1, gets.
  destruct (truthy (VoiceConnection st)) eqn:Ht; simpl.
  2: { intros [= <-]. split; [done|]. intros [=]. }
  intros H. split; [intros [=]|intros _].
  destruct (VoiceConnection st) as [| | | | |l] eqn:Hvc.
  1-5: revert H; unfold bind at 1;
       edestruct (both_in_not_ref "joinCall" "leaveCall") as [e ->];
       [|done]; by intros l.
  revert H. unfold bind at 1. rewrite both_in_eq. unfold chosen_slots.
  destruct (has_both (heap st) (VRef l) "joinCall" "leaveCall").
  - intros (u1 & u2 & Hp & ? & ? & ? & ?)%patch_pair_fields.
    exists [u1; u2]. split; [done|]. split; [cbn; congruence|].
    by repeat constructor.
  - unfold bind at 1. rewrite both_in_eq.
    destruct (has_both (heap st) (VRef l) "join" "leave").
    + intros (u1 & u2 & Hp & ? & ? & ? & ?)%patch_pair_fields.
      exists [u1; u2]. split; [done|]. split; [cbn; congruence|].
      by repeat constructor.
    + intros [= <-]. exists []. by rewrite app_nil_r.
Qed.

(** ** The routing request needs a headset and a bridge *)

Lemma isWiredHeadphones_unbound st :
  nullish (DeviceManager st) = true -> isWiredHeadphones st = (Ok false, st).
Proof.
  intros H. unfold isWiredHeadphones, try_catch, bind, gets, opt_getp.
  by rewrite H.
Qed.

Lemma safeSetAudioModeNormal_unbound st :
  nullish (AudioManagerNative st) = true ->
  safeSetAudioModeNormal st = (Ok tt, st).
Proof.
  intros H. unfold safeSetAudioModeNormal, try_catch, bind, gets, opt_getp.
  by rewrite H.
Qed.

#[global] Instance stable_nullish_handle (f : Handles -> value) :
  Stable (fun st => nullish (f (handles st)) = true).
Proof. by intros ? ? ?. Qed.

(** X4: no routing-mode request without its two capabilities.  When the
    device manager is unbound the headset counts as absent, and when the
    audio bridge is unbound there is nothing to call: in both cases the
    call-start policy makes no [setMode] call, whatever the settings. *)
Theorem no_mode_request_without_capability st :
  nullish (DeviceManager st) = true \/ nullish (AudioManagerNative st) = true ->
  extends (silent ["setMode"]) st (snd (onCallStart st)).
Proof.
  intros [Hd|Ha].
  - assert (sat (fun s => nullish (h_DeviceManager (handles s)) = true)
              (silent ["setMode"]) onCallStart) as H; [|by apply H].
    unfold onCallStart.
    apply sat_bind; [by apply sat_emit|intros _].
    do 3 (apply sat_bind; [guarded_action|intros _]).
    apply sat_if_flag. intros s Hs.
    unfold bind. rewrite (isWiredHeadphones_unbound s Hs). apply extends_refl.
  - assert (sat (fun s => nullish (h_AudioManagerNative (handles s)) = true)
              (silent ["setMode"]) onCallStart) as H; [|by apply H].
    unfold onCallStart.
    apply sat_bind; [by apply sat_emit|intros _].
    do 3 (apply sat_bind; [guarded_action|intros _]).
    apply sat_if_flag.
    apply sat_bind; [by apply sat_isWiredHeadphones|intros w].
    apply sat_when. intros _ s Hs.
    rewrite (safeSetAudioModeNormal_unbound s Hs). apply extends_refl.
Qed.

(** ** Missing DSP methods are skipped *)

Lemma opt_invoke_cooperative st0 st me k args :
  (exists f, read (heap st0) me k = Ok f /\
             (nullish f = true \/ callable st0 f = true)) ->
  (forall tr, exists v, host st0 tr = Ok v) ->
  (exists tr, st = set_trace tr st0) ->
  exists v,
    opt_invoke me k args st =
    (Ok v,
     set_trace
       (trace st ++ if offered (heap st0) me k then [Call me k args] else [])
       st).
Proof.
  intros (f & Hr & Hf) Hh [tr ->].
  unfold opt_invoke, bind, getp, lift, offered. cbn [heap set_trace].
  rewrite Hr. destruct (nullish f) eqn:Hn; cbn [negb].
  - exists VUndef. unfold ret. by rewrite app_nil_r, set_trace_id.
  - destruct Hf as [|Hc]; [done|].
    unfold call_value, bind, gets.
    assert (callable (set_trace tr st0) f = true) as -> by exact Hc.
    unfold host_call. cbn [host trace set_trace].
    destruct (Hh (tr ++ [Call me k args])) as [v ->]. by exists v.
Qed.

Lemma log_events args st :
  exists lg, log args st = (Ok tt, set_trace (trace st ++ lg) st) /\
             List.filter is_call lg = [].
Proof.
  unfold log, bind, gets.
  destruct (flag "verboseLogs" st).
  - by eexists [_].
  - exists []. by rewrite app_nil_r, set_trace_id.
Qed.

Lemma emitted_appended {A} (m : M A) st tr :
  trace (snd (m st)) = trace st ++ tr -> emitted m st = tr.
Proof. intros H. unfold emitted. rewrite H. apply drop_app_length. Qed.

Lemma trace_set_trace tr st : trace (set_trace tr st) = tr.
Proof. done. Qed.

Lemma same_world_refl st : exists tr, st = set_trace tr st.
Proof. exists (trace st). by rewrite set_trace_id. Qed.

Lemma same_world_set tr st : exists tr', set_trace tr st = set_trace tr' st.
Proof. by exists tr. Qed.

Ltac cooperative_step st0 Hc Hh :=
  unfold bind at 1;
  match goal with
  | |- context [opt_invoke ?me ?k ?args ?s] =>
      let v := fresh "v" in
      let E := fresh "E" in
      let W := fresh "W" in
      let Hin := fresh "Hin" in
      assert (exists tr, s = set_trace tr st0) as W
        by first [apply same_world_refl|apply same_world_set];
      pose proof (Hc k args ltac:(cbv [dsp_relaxed dsp_restored In]; tauto))
        as Hin;
      destruct (opt_invoke_cooperative st0 s me k args Hin Hh W) as [v E];
      rewrite E; clear E W Hin;
      rewrite ?set_trace_twice, ?trace_set_trace
  end.

(** X5: a missing DSP method is skipped in silence.  On a media engine
    whose slots each hold a function or nothing, with host functions that
    return normally, relaxing the microphone processing calls exactly the
    offered ones of: echo cancellation off, noise suppression off, gain
    control off, FEC on, bitrate 64000, in this order; and the call-end
    policy (with [relaxMicDSP] on) calls exactly the offered ones of the
    three switches, back on. *)
Theorem dsp_calls_skip_missing_methods st :
  truthy (MediaEngine st) = true ->
  (cooperative st (MediaEngine st) dsp_relaxed ->
   host_calls_of relaxMicProcessing st =
   planned (heap st) (MediaEngine st) dsp_relaxed) /\
  (cooperative st (MediaEngine st) dsp_restored ->
   flag "relaxMicDSP" st = true ->
   host_calls_of onCallEnd st =
   planned (heap st) (MediaEngine st) dsp_restored).
Proof.
  intros Ht. split.
  - intros [Hc Hh]. unfold host_calls_of.
    assert (exists lg,
              trace (snd (relaxMicProcessing st)) =
              trace st ++
                map (fun ka => Call (MediaEngine st) (fst ka) (snd ka))
                  (List.filter (fun ka => offered (heap st) (MediaEngine st) (fst ka))
                     dsp_relaxed) ++ lg /\
              List.filter is_call lg = []) as (lg & Htr & Hlg).
    { unfold relaxMicProcessing, bind at 1, gets. rewrite Ht. cbn [negb].
      unfold try_catch.
      cooperative_step st Hc Hh. cooperative_step st Hc Hh.
      cooperative_step st Hc Hh. cooperative_step st Hc Hh.
      cooperative_step st Hc Hh.
      match goal with |- context [log ?a ?s] =>
        destruct (log_events a s) as (lg & -> & Hlg) end.
      exists lg. split; [|done].
      cbn [snd]. rewrite ?set_trace_twice, ?trace_set_trace.
      rewrite <- !app_assoc. f_equal.
      unfold dsp_relaxed. cbn [List.filter fst snd].
      repeat match goal with
      | |- context [offered ?h ?me ?k] => destruct (offered h me k)
      end; reflexivity. }
    rewrite (emitted_appended _ _ _ Htr), List.filter_app, Hlg, app_nil_r.
    unfold planned. apply forallb_filter_id.
    rewrite forallb_forall. intros e (ka & <- & _)%in_map_iff. done.
  - intros [Hc Hh] Hf. unfold host_calls_of.
    assert (exists lg,
              trace (snd (onCallEnd st)) =
              trace st ++ [Enter InOnCallEnd] ++
                map (fun ka => Call (MediaEngine st) (fst ka) (snd ka))
                  (List.filter (fun ka => offered (heap st) (MediaEngine st) (fst ka))
                     dsp_restored) ++ lg /\
              List.filter is_call lg = []) as (lg & Htr & Hlg).
    { unfold onCallEnd, bind at 1, emit, modify.
      unfold try_catch, bind at 1, gets.
      change (flag "relaxMicDSP" (set_trace _ st)) with
        (flag "relaxMicDSP" st). rewrite Hf.
      unfold bind at 1.
      change (MediaEngine (set_trace _ st)) with (MediaEngine st).
      rewrite Ht. cbn [andb].
      cooperative_step st Hc Hh. cooperative_step st Hc Hh.
      cooperative_step st Hc Hh.
      match goal with |- context [log ?a ?s] =>
        destruct (log_events a s) as (lg & -> & Hlg) end.
      exists lg. split; [|done].
      cbn [snd]. rewrite ?set_trace_twice, ?trace_set_trace.
      rewrite <- !app_assoc. do 2 f_equal.
      unfold dsp_restored. cbn [List.filter fst snd].
      repeat match goal with
      | |- context [offered ?h ?me ?k] => destruct (offered h me k)
      end; reflexivity. }
    rewrite (emitted_appended _ _ _ Htr), !List.filter_app, Hlg, app_nil_r.
    cbn [List.filter is_call app]. unfold planned. apply forallb_filter_id.
    rewrite forallb_forall. intros e (ka & <- & _)%in_map_iff. done.
Qed.

(** ** Restarting the watchdog *)

(** X6: the watchdog owns one interval.  [startWatchdog] clears the
    interval the plugin holds before registering the new one, so a
    restart does not add a timer; it never disturbs a timer that is not
    the plugin's own; and stopping after a start from a state without an
    interval gives back the timer table as it was. *)
Theorem watchdog_owns_one_interval st :
  (forall i, intervalId st = Some i -> is_Some (timers st !! i) ->
     size (timers (snd (startWatchdog st))) = size (timers st)) /\
  (forall k, is_Some (timers st !! k) -> intervalId st <> Some k ->
     timers (snd (startWatchdog st)) !! k = timers st !! k) /\
  (intervalId st = None ->
     timers (snd (stopWatchdog (snd (startWatchdog st)))) = timers st /\
     intervalId (snd (stopWatchdog (snd (startWatchdog st)))) = None).
Proof.
  rewrite startWatchdog_eq. unfold stopWatchdog, modify. cbn [snd].
  split; [|split].
  - intros i Hi [p Hp]. rewrite Hi. cbn.
    rewrite map_size_insert_None.
    + pose proof (map_size_delete i (timers st)) as Hs.
      rewrite Hp in Hs. assert (size (timers st) <> 0%nat).
      { intros H0. apply map_size_empty_inv in H0. by rewrite H0 in Hp. }
      lia.
    + apply not_elem_of_dom, is_fresh.
  - intros k Hk Hne.
    assert (forall ts : gmap positive Z,
              is_Some (ts !! k) -> <[fresh (dom ts) := period]> ts !! k = ts !! k)
      as Hfresh.
    { intros ts Hts. rewrite lookup_insert_ne; [done|].
      intros <-. apply elem_of_dom in Hts. by apply is_fresh in Hts. }
    destruct (intervalId st) as [i|] eqn:Hi; cbn.
    + assert (i <> k) by congruence.
      rewrite Hfresh; rewrite lookup_delete_ne; done.
    + by apply Hfresh.
  - intros ->. cbn. split; [|done].
    rewrite delete_insert_eq. apply delete_id.
    apply not_elem_of_dom, is_fresh.
Qed.

(** ** One slot at a time *)

Lemma read_write_elsewhere h l k x h' l' k' :
  write h (VRef l) k x = Ok h' -> l' <> l ->
  read h' (VRef l') k' = read h (VRef l') k'.
Proof.
  intros (l0 & [= <-] & ->)%write_inv Hne. simpl.
  by rewrite obj_at_insert_ne.
Qed.

(** X7: [monkeyPatch] changes one slot only.  Whether it completes or
    throws, every other slot of the object and every slot of every other
    object reads as before, and the patch list, the handles and the timer
    are untouched. *)
Theorem monkeyPatch_changes_one_slot o method patcher st v' k' :
  k' <> method \/ v' <> o ->
  let st1 := snd (monkeyPatch o method patcher st) in
  read (heap st1) v' k' = read (heap st) v' k' /\
  patches st1 = patches st /\ handles st1 = handles st /\
  intervalId st1 = intervalId st /\ timers st1 = timers st /\
  trace st1 = trace st.
Proof.
  intros Hother. cbn zeta.
  unfold monkeyPatch, bind, getp, lift, alloc, setp, ret. cbn [fst snd].
  destruct (read (heap st) o method) as [orig|e]; [|done].
  cbn [heap set_heap].
  destruct (write _ o method _) as [h1|e] eqn:Hw; cbn [fst snd].
  2: { split; [|done]. cbn. apply read_alloc_function. }
  split; [|done]. cbn [heap set_heap].
  rewrite <- (read_alloc_function (heap st) (patcher orig) v' k').
  destruct Hother as [Hk|Hv].
  - by apply (read_write_other _ _ _ _ _ _ _ Hw).
  - destruct (write_inv _ _ _ _ _ Hw) as (l & -> & _).
    destruct v' as [| | | | |l']; try done.
    apply (read_write_elsewhere _ _ _ _ _ _ _ Hw). congruence.
Qed.

(** ** Stacked patches *)

Lemma okind_write h v k x h' w :
  write h v k x = Ok h' -> okind (obj_at h' w) = okind (obj_at h w).
Proof.
  intros (l & -> & ->)%write_inv.
  destruct (decide (l = w)) as [->|Hne].
  - by rewrite obj_at_insert.
  - by rewrite obj_at_insert_ne.
Qed.

Lemma revert_heap_slot h u l y :
  u_obj u = VRef l ->
  read h (u_obj u) (u_method u) = Ok y ->
  exists h',
    write h (u_obj u) (u_method u) (u_orig u) = Ok h' /\
    revert_heap h u = h' /\
    read h' (u_obj u) (u_method u) = Ok (u_orig u).
Proof.
  intros Ho Hr. rewrite Ho in *.
  destruct (write_succeeds _ _ _ (u_orig u) _ Hr) as [h' Hw].
  exists h'. split; [done|]. split.
  - apply revert_heap_ok. by rewrite Ho.
  - by apply read_write_same in Hw.
Qed.

(** X8: reverts of stacked patches do not commute.  When the same slot is
    patched twice, running the two reverts newest first restores the
    original method, while running them in installation order (the order
    of the unload loop) leaves the slot holding the first wrapper, still
    a function closing over the original. *)
Theorem stacked_reverts_need_reverse_order st o method p1 p2 u1 s1 u2 s2 :
  monkeyPatch o method p1 st = (Ok u1, s1) ->
  monkeyPatch o method p2 s1 = (Ok u2, s2) ->
  read (foldl revert_heap (heap s2) [u2; u1]) o method =
  read (heap st) o method /\
  exists w,
    read (foldl revert_heap (heap s2) [u1; u2]) o method = Ok (VRef w) /\
    read (heap s1) o method = Ok (VRef w) /\
    okind (obj_at (foldl revert_heap (heap s2) [u1; u2]) w) =
    Function (p1 (u_orig u1)).
Proof.
  intros H1 H2.
  destruct (monkeyPatch_roundtrip _ _ _ _ _ _ H1)
    as (w1 & _ & Hr1 & Hk1 & _ & Horig1 & _).
  destruct (monkeyPatch_roundtrip _ _ _ _ _ _ H2)
    as (w2 & _ & Hr2 & _ & _ & Horig2 & _).
  apply monkeyPatch_fields in H1 as H1f. destruct H1f as (Ho1 & Hm1 & _ & _).
  apply monkeyPatch_fields in H2 as H2f. destruct H2f as (Ho2 & Hm2 & _ & _).
  assert (u_orig u2 = VRef w1) as Hu2 by congruence.
  assert (exists l, o = VRef l) as [l Hl].
  { apply monkeyPatch_inv in H1 as (? & ? & _ & _ & Hw & _).
    apply write_inv in Hw as (l & -> & _). by exists l. }
  cbn [foldl]. split.
  - destruct (revert_heap_slot (heap s2) u2 l (VRef w2))
      as (h3 & _ & -> & Hr3); [congruence|by rewrite Ho2, Hm2|].
    destruct (revert_heap_slot h3 u1 l (u_orig u2)) as (h4 & _ & -> & Hr4);
      [congruence|by rewrite Ho1, Hm1, <- Ho2, <- Hm2|].
    rewrite Ho1, Hm1 in Hr4. by rewrite Hr4, Horig1.
  - exists w1.
    destruct (revert_heap_slot (heap s2) u1 l (VRef w2))
      as (h3 & Hw3 & -> & Hr3); [congruence|by rewrite Ho1, Hm1|].
    destruct (revert_heap_slot h3 u2 l (u_orig u1)) as (h4 & Hw4 & -> & Hr4);
      [congruence|by rewrite Ho2, Hm2, <- Ho1, <- Hm1|].
    rewrite Ho2, Hm2, Hu2 in Hr4. split; [done|]. split; [done|].
    rewrite (okind_write _ _ _ _ _ w1 Hw4), (okind_write _ _ _ _ _ w1 Hw3).
    apply monkeyPatch_inv in H2 as (orig2 & h2 & _ & _ & Hw2 & ->).
    cbn [heap set_heap]. rewrite (okind_write _ _ _ _ _ w1 Hw2).
    rewrite obj_at_insert_ne; [done|].
    intros E. pose proof (is_fresh (dom (heap s1))) as Hfresh.
    rewrite E in Hfresh. apply Hfresh, elem_of_dom.
    apply monkeyPatch_inv in H1 as (orig1 & h1 & _ & _ & Hw1 & ->).
    cbn [heap set_heap] in *.
    unfold obj_at in Hk1.
    destruct (h1 !! w1) eqn:E1; [eauto|]. cbn in Hk1. done.
Qed.

(** ** The locator at its edges *)

Lemma getModules_no_access_point st :
  (forall k, In k ["modules"; "__r"; "__c"] ->
     exists v, read (heap st) globalThis k = Ok v /\ nullish v = true) ->
  getModules st = (Ok [], set_trace (trace st ++ [Enter InGetModules]) st).
Proof.
  intros H.
  destruct (H "modules" ltac:(simpl; tauto)) as (gm & Hgm & Ngm).
  destruct (H "__r" ltac:(simpl; tauto)) as (r & Hr & Nr).
  destruct (H "__c" ltac:(simpl; tauto)) as (c & Hc & Nc).
  unfold getModules, bind, emit, modify, getp, opt_getp, lift, ret.
  cbn [heap set_trace fst snd]. rewrite Hgm, Hr, Nr.
  cbn [heap set_trace]. rewrite Hr, Nr.
  cbn [heap set_trace]. rewrite Hc, Nc.
  cbn [heap set_trace]. by destruct gm.
Qed.

(** X9: an unavailable or empty registry gives "absent", not a failure.
    When [globalThis] has none of the access points [modules], [__r] and
    [__c], [getModules] returns the empty list; and whenever it returns
    the empty list, both locators return null. *)
Theorem locators_absent_on_empty_registry st :
  ((forall k, In k ["modules"; "__r"; "__c"] ->
      exists v, read (heap st) globalThis k = Ok v /\ nullish v = true) ->
   fst (getModules st) = Ok []) /\
  (fst (getModules st) = Ok [] ->
   forall props name,
     fst (findByProps props st) = Ok VNull /\
     fst (findByDisplayName name st) = Ok VNull).
Proof.
  split.
  - intros H. by rewrite (getModules_no_access_point st H).
  - intros H props name. unfold findByProps, findByDisplayName, bind.
    destruct (getModules st) as [[mods|e] s]; cbn in H; [|done].
    by injection H as ->.
Qed.

(** X10: the registry accessor is called eagerly and unguarded.
    [getModules] evaluates [__r.getModules()] before it looks at any
    candidate, so when that accessor throws, both locators throw the same
    error, even if [globalThis.modules] holds a usable array. *)
Theorem accessor_failure_escapes_locators st r f e :
  (forall e', read (heap st) globalThis "modules" <> Throw e') ->
  read (heap st) globalThis "__r" = Ok r -> nullish r = false ->
  read (heap st) r "getModules" = Ok f -> callable st f = true ->
  host st (trace st ++ [Enter InGetModules; Call r "getModules" []]) = Throw e ->
  forall props name,
    fst (findByProps props st) = Throw e /\
    fst (findByDisplayName name st) = Throw e.
Proof.
  intros Hgm Hr Nr Hf Hc Hh props name.
  assert (fst (getModules st) = Throw e) as Hg.
  { unfold getModules, bind, emit, modify, getp, opt_invoke, lift.
    cbn [heap set_trace fst snd].
    destruct (read (heap st) globalThis "modules") as [gm|e'] eqn:E;
      [|by destruct (Hgm e')].
    rewrite Hr, Nr. unfold bind, getp, lift. cbn [heap set_trace].
    rewrite Hf.
    assert (nullish f = false) as ->.
    { unfold callable in Hc. by destruct f. }
    unfold call_value, bind, gets.
    assert (callable (set_trace (trace st ++ [Enter InGetModules]) st) f = true)
      as -> by exact Hc.
    unfold host_call. cbn [host trace set_trace].
    rewrite <- app_assoc. cbn [app]. by rewrite Hh. }
  unfold findByProps, findByDisplayName, bind.
  destruct (getModules st) as [[mods|e'] s]; cbn in Hg; [done|].
  by injection Hg as ->.
Qed.

Lemma is_str_eq v name : is_str v name = true -> v = VStr name.
Proof.
  destruct v; try done. cbn. by intros ->%String.eqb_eq.
Qed.

Lemma opt_getp_str st v k name x s :
  opt_getp v k st = (Ok x, s) -> is_str x name = true ->
  s = st /\ read (heap st) v k = Ok (VStr name).
Proof.
  unfold opt_getp. destruct (nullish v).
  - intros [= <- <-]. done.
  - unfold getp, lift. intros [= Hr <-] ->%is_str_eq. done.
Qed.

Lemma scan_name_sound name mods st v s :
  scan_name name mods st = (Ok v, s) -> v <> VNull ->
  read (heap st) v "displayName" = Ok (VStr name) \/
  read (heap st) v "name" = Ok (VStr name).
Proof.
  induction mods as [|modl rest IH]; cbn [scan_name].
  { by intros [= <- <-]. }
  unfold bind at 1.
  destruct (opt_getp modl "exports" st) as [[e|?] s1] eqn:He; [|done].
  assert (s1 = st) as ->.
  { revert He. unfold opt_getp, getp, lift, ret.
    destruct (nullish modl); [by intros [= ]|].
    destruct (read _ _ _); by intros [= ]. }
  cbv zeta. unfold bind at 1.
  destruct (opt_getp (if nullish e then modl else e) "default" st)
    as [[d|?] s2] eqn:Hd; [|done].
  assert (s2 = st) as ->.
  { revert Hd. unfold opt_getp, getp, lift, ret.
    destruct (nullish (if nullish e then modl else e)); [by intros [= ]|].
    destruct (read _ _ _); by intros [= ]. }
  set (cand := if nullish d then _ else d). unfold bind at 1.
  destruct (opt_getp cand "displayName" st) as [[dn|?] s3] eqn:Hdn; [|done].
  destruct (is_str dn name) eqn:Sdn.
  { intros [= <- <-] _. left. by apply (opt_getp_str _ _ _ _ _ _ Hdn). }
  assert (s3 = st) as ->.
  { revert Hdn. unfold opt_getp, getp, lift, ret.
    destruct (nullish cand); [by intros [= ]|].
    destruct (read _ _ _); by intros [= ]. }
  unfold bind at 1.
  destruct (opt_getp cand "name" st) as [[n|?] s4] eqn:Hn; [|done].
  destruct (is_str n name) eqn:Sn.
  { intros [= <- <-] _. right. by apply (opt_getp_str _ _ _ _ _ _ Hn). }
  assert (s4 = st) as ->; [|exact IH].
  revert Hn. unfold opt_getp, getp, lift, ret.
  destruct (nullish cand); [by intros [= ]|].
  destruct (read _ _ _); by intros [= ].
Qed.

(** X11: what the display-name search returns carries the name.  When
    [findByDisplayName] returns an object, that object's [displayName] or
    its [name] is exactly the requested string. *)
Theorem findByDisplayName_sound name st v :
  fst (findByDisplayName name st) = Ok v -> v <> VNull ->
  read (heap st) v "displayName" = Ok (VStr name) \/
  read (heap st) v "name" = Ok (VStr name).
Proof.
  unfold findByDisplayName, bind.
  pose proof (sat_getModules (I := fun _ => True) (ok := fun _ => True)
                Logic.I ltac:(done) st Logic.I) as Hx.
  destruct (getModules st) as [[mods|e] s1]; [|done]. cbn [snd] in Hx.
  rewrite <- (extends_untraced heap _ _ _ (fun _ _ => eq_refl) Hx).
  destruct (scan_name name mods s1) as [[v'|e] s2] eqn:Hs; [|done].
  cbn. intros [= ->]. by apply (scan_name_sound _ _ _ _ _ Hs).
Qed.

(** ** Logging *)

(** X12: the plugin is silent unless asked.  With [verboseLogs] off, the
    call-start policy, the call-end policy, a watchdog tick and both
    wrappers write nothing to the console. *)
Theorem silent_unless_verbose st :
  flag "verboseLogs" st = false ->
  extends not_log st (snd (onCallStart st)) /\
  extends not_log st (snd (onCallEnd st)) /\
  extends not_log st (snd (tick st)) /\
  forall orig this args,
    extends not_log st (snd (joinWrapper orig this args st)) /\
    extends not_log st (snd (leaveWrapper orig this args st)).
Proof.
  intros Hoff.
  set (I := fun s => flag "verboseLogs" s = false /\ handles s = handles st).
  assert (I st) as HI by done.
  assert (forall args, sat I not_log (log args)) as Hl.
  { intros. apply sat_log_off; [apply _|]. by intros s [? _]. }
  assert (forall (f : Handles -> value) (g : State -> value),
            (forall s, g s = f (handles s)) ->
            forall s, I s -> g s = f (handles st)) as Hh.
  { intros f g Hfg s [_ Hs]. by rewrite Hfg, Hs. }
  assert (sat I not_log onCallStart) as Hstart.
  { unfold onCallStart.
    apply sat_bind; [by apply sat_emit|intros _].
    apply sat_bind; [|intros _].
    { apply sat_if_flag.
      apply (sat_ensure_at Hl (h_AttenuationStore (handles st)));
        [by apply (Hh h_AttenuationStore)|done]. }
    apply sat_bind; [|intros _].
    { apply sat_if_flag. by apply (sat_prefer_at Hl). }
    apply sat_bind; [|intros _].
    { apply sat_if_flag.
      apply (sat_relax_at Hl (h_MediaEngine (handles st)));
        [by apply (Hh h_MediaEngine)|done..]. }
    apply sat_if_flag. apply sat_bind.
    { apply (sat_isWired_at (h_DeviceManager (handles st)));
        [by apply (Hh h_DeviceManager)|done]. }
    intros w. apply sat_when. intros _.
    apply (sat_safeSet_at Hl (h_AudioManagerNative (handles st)));
      [by apply (Hh h_AudioManagerNative)|done]. }
  assert (sat I not_log onCallEnd) as Hend.
  { apply (sat_end_at Hl (h_MediaEngine (handles st)));
      [by apply (Hh h_MediaEngine)|done..]. }
  split; [by apply Hstart|]. split; [by apply Hend|]. split.
  - assert (sat I not_log tick) as Ht; [|by apply Ht].
    unfold tick. apply sat_bind; [by apply sat_isInCall|intros c].
    destruct (negb (truthy c)); [apply sat_ret|].
    apply sat_bind; [|intros _].
    { apply sat_if_flag.
      apply (sat_ensure_at Hl (h_AttenuationStore (handles st)));
        [by apply (Hh h_AttenuationStore)|done]. }
    apply sat_if_flag. by apply (sat_prefer_at Hl).
  - intros orig this args. split.
    + by apply (sat_joinWrapper (I := I)).
    + by apply (sat_leaveWrapper (I := I)).
Qed.

(** * Instances of the properties above *)

Lemma patch_selects_one_pair_witness :
  (truthy (VoiceConnection demo_state) = false ->
   snd (patchVoiceJoinLeave demo_state) = demo_state) /\
  (truthy (VoiceConnection demo_state) = true ->
   exists us,
     patches (snd (patchVoiceJoinLeave demo_state)) =
     patches demo_state ++ us /\
     map u_method us =
     chosen_slots (heap demo_state) (VoiceConnection demo_state) /\
     Forall (fun u => u_obj u = VoiceConnection demo_state) us).
Proof.
  apply (patch_selects_one_pair demo_state).
  vm_compute; reflexivity.
Defined.

Lemma no_mode_request_without_capability_witness :
  extends (silent ["setMode"]) bare_state (snd (onCallStart bare_state)).
Proof.
  apply (no_mode_request_without_capability bare_state).
  left. vm_compute; reflexivity.
Defined.

Lemma idle_cooperative plan :
  Forall (fun ka => In (fst ka) (map fst dsp_relaxed)) plan ->
  cooperative idle_state (MediaEngine idle_state) plan.
Proof.
  intros Hp. split.
  2: { intros tr. exists (VBool false).
       assert (host idle_state = fun _ => Ok (VBool false)) as ->
         by (vm_compute; reflexivity).
       reflexivity. }
  intros k a Hin. rewrite List.Forall_forall in Hp.
  apply Hp in Hin. cbn in Hin.
  destruct Hin as [<-|[<-|[<-|[<-|[<-|[]]]]]];
    eexists; (split; [vm_compute; reflexivity|]);
    first [left; vm_compute; reflexivity|right; vm_compute; reflexivity].
Qed.

Lemma dsp_calls_skip_missing_methods_witness :
  host_calls_of relaxMicProcessing idle_state =
  planned (heap idle_state) (MediaEngine idle_state) dsp_relaxed /\
  host_calls_of onCallEnd idle_state =
  planned (heap idle_state) (MediaEngine idle_state) dsp_restored.
Proof.
  assert (truthy (MediaEngine idle_state) = true) as Ht
    by (vm_compute; reflexivity).
  split.
  - apply (proj1 (dsp_calls_skip_missing_methods idle_state Ht)).
    apply idle_cooperative. repeat (apply List.Forall_cons; [cbn; auto 10|]); apply List.Forall_nil.
  - apply (proj2 (dsp_calls_skip_missing_methods idle_state Ht)).
    + apply idle_cooperative. repeat (apply List.Forall_cons; [cbn; auto 10|]); apply List.Forall_nil.
    + vm_compute; reflexivity.
Defined.

Lemma stacked_reverts_need_reverse_order_witness :
  let s1 := snd (monkeyPatch (VRef 12) "joinCall" JoinHook demo_state) in
  let s2 := snd (monkeyPatch (VRef 12) "joinCall" JoinHook s1) in
  let u1 := MkUnpatch (VRef 12) "joinCall" (VRef 21) in
  let u2 := MkUnpatch (VRef 12) "joinCall" (VRef 25) in
  read (foldl revert_heap (heap s2) [u2; u1]) (VRef 12) "joinCall" =
  read (heap demo_state) (VRef 12) "joinCall" /\
  exists w,
    read (foldl revert_heap (heap s2) [u1; u2]) (VRef 12) "joinCall" =
    Ok (VRef w) /\
    read (heap s1) (VRef 12) "joinCall" = Ok (VRef w) /\
    okind (obj_at (foldl revert_heap (heap s2) [u1; u2]) w) =
    Function (JoinHook (u_orig u1)).
Proof.
  intros s1 s2 u1 u2.
  apply (stacked_reverts_need_reverse_order demo_state (VRef 12) "joinCall"
           JoinHook JoinHook u1 s1 u2 s2).
  - vm_compute; reflexivity.
  - vm_compute; reflexivity.
Defined.

Lemma watchdog_owns_one_interval_witness :
  size (timers (snd (startWatchdog host_timer_state))) =
  size (timers host_timer_state) /\
  timers (snd (startWatchdog host_timer_state)) !! 1%positive =
  timers host_timer_state !! 1%positive /\
  timers (snd (stopWatchdog (snd (startWatchdog demo_state)))) =
  timers demo_state /\
  intervalId (snd (stopWatchdog (snd (startWatchdog demo_state)))) = None.
Proof.
  split; [|split].
  - apply (proj1 (watchdog_owns_one_interval host_timer_state) 2%positive).
    + vm_compute; reflexivity.
    + exists 2000. vm_compute; reflexivity.
  - apply (proj1 (proj2 (watchdog_owns_one_interval host_timer_state))).
    + exists 500. vm_compute; reflexivity.
    + vm_compute. discriminate.
  - apply (proj2 (proj2 (watchdog_owns_one_interval demo_state))).
    vm_compute; reflexivity.
Defined.

Lemma monkeyPatch_changes_one_slot_witness :
  let st1 := snd (monkeyPatch (VRef 12) "joinCall" JoinHook demo_state) in
  read (heap st1) (VRef 12) "leaveCall" =
  read (heap demo_state) (VRef 12) "leaveCall" /\
  patches st1 = patches demo_state /\ handles st1 = handles demo_state /\
  intervalId st1 = intervalId demo_state /\ timers st1 = timers demo_state /\
  trace st1 = trace demo_state.
Proof.
  apply (monkeyPatch_changes_one_slot (VRef 12) "joinCall" JoinHook demo_state
           (VRef 12) "leaveCall").
  left. discriminate.
Defined.

Lemma locators_absent_on_empty_registry_witness :
  fst (getModules plain_state) = Ok [] /\
  fst (findByProps ["join"; "leave"] plain_state) = Ok VNull /\
  fst (findByDisplayName "TelegramCallsSettings" plain_state) = Ok VNull.
Proof.
  split.
  - apply (proj1 (locators_absent_on_empty_registry plain_state)).
    intros k [<-|[<-|[<-|[]]]]; exists VUndef; split; vm_compute; reflexivity.
  - apply (proj2 (locators_absent_on_empty_registry plain_state)).
    vm_compute; reflexivity.
Defined.

Lemma accessor_failure_escapes_locators_witness :
  fst (findByProps ["getAttenuation"; "setAttenuation"] accessor_state) =
  Throw (VStr "not ready") /\
  fst (findByDisplayName "TelegramCallsSettings" accessor_state) =
  Throw (VStr "not ready").
Proof.
  apply (accessor_failure_escapes_locators accessor_state (VRef 5) (VRef 20)).
  - intros e'. vm_compute. discriminate.
  - vm_compute; reflexivity.
  - reflexivity.
  - vm_compute; reflexivity.
  - vm_compute; reflexivity.
  - vm_compute; reflexivity.
Defined.

Lemma findByDisplayName_sound_witness :
  fst (findByDisplayName "TelegramCallsSettings" named_state) = Ok (VRef 5) /\
  (read (heap named_state) (VRef 5) "displayName" =
   Ok (VStr "TelegramCallsSettings") \/
   read (heap named_state) (VRef 5) "name" =
   Ok (VStr "TelegramCallsSettings")).
Proof.
  assert (fst (findByDisplayName "TelegramCallsSettings" named_state) =
          Ok (VRef 5)) as H by (vm_compute; reflexivity).
  split; [exact H|].
  apply (findByDisplayName_sound "TelegramCallsSettings" named_state (VRef 5) H).
  discriminate.
Defined.

Lemma silent_unless_verbose_witness :
  extends not_log demo_state (snd (onCallStart demo_state)) /\
  extends not_log demo_state (snd (onCallEnd demo_state)) /\
  extends not_log demo_state (snd (tick demo_state)) /\
  forall orig this args,
    extends not_log demo_state (snd (joinWrapper orig this args demo_state)) /\
    extends not_log demo_state (snd (leaveWrapper orig this args demo_state)).
Proof.
  apply (silent_unless_verbose demo_state).
  vm_compute; reflexivity.
Defined.

(** * Properties of build.mjs *)

(** ** The base URL *)

Lemma append_eq_nil (s t : string) : s +:+ t = "" -> s = "" /\ t = "".
Proof. destruct s; [done|]. cbn. discriminate. Qed.

Lemma strip_slashes_spec s :
  (exists n, s = strip_slashes s +:+ slashes n) /\
  (forall t, strip_slashes s <> t +:+ "/").
Proof.
  induction s as [|c rest [[n Hn] Hend]]; cbn [strip_slashes].
  { split; [by exists 0%nat|]. intros t Ht. symmetry in Ht.
    by apply append_eq_nil in Ht as [_ ?]. }
  destruct (String.eqb (String c "") "/" && String.eqb (strip_slashes rest) "")
    eqn:E.
  - apply andb_true_iff in E as [Ec Et].
    apply String.eqb_eq in Ec. apply String.eqb_eq in Et.
    injection Ec as ->. rewrite Et in Hn. cbn in Hn. split.
    + exists (S n). cbn. by rewrite Hn.
    + intros t Ht. symmetry in Ht. by apply append_eq_nil in Ht as [_ ?].
  - split.
    + exists n.
      change (String c (strip_slashes rest) +:+ slashes n) with
        (String c (strip_slashes rest +:+ slashes n)).
      by rewrite <- Hn.
    + intros [|c2 t2]; cbn.
      * intros [= -> Ht]. rewrite Ht in E. by cbn in E.
      * intros [= _ Ht]. by apply (Hend t2).
Qed.

(** X13: an explicit base URL wins and loses its trailing slashes.  When
    [REPO_BASE_URL] is set and not empty, or else [PAGES_BASE_URL] is, the
    base URL is that value without the slashes at its end, and is
    otherwise unchanged; [GITHUB_REPOSITORY] is not looked at. *)
Theorem getBaseUrl_override env u :
  (env "REPO_BASE_URL" = Some u \/
   truthy_str (env "REPO_BASE_URL") = false /\ env "PAGES_BASE_URL" = Some u) ->
  u <> "" ->
  exists b n,
    getBaseUrl env = Some b /\ u = b +:+ slashes n /\
    forall t, b <> t +:+ "/".
Proof.
  intros Hsrc Hu.
  assert (truthy_str (Some u) = true) as Htu.
  { cbn. destruct (String.eqb u "") eqn:E; [|done].
    by apply String.eqb_eq in E. }
  assert (getBaseUrl env = Some (strip_slashes u)) as ->.
  { unfold getBaseUrl. destruct Hsrc as [Hr|[Hr Hp]].
    - rewrite Hr, Htu. cbv iota. by rewrite Htu.
    - rewrite Hr, Hp. cbv iota. by rewrite Htu. }
  destruct (strip_slashes_spec u) as [[n Hn] Hend]. eauto.
Qed.

Lemma null_or_not (j : json) : j = JNull \/ j <> JNull.
Proof. destruct j; first [by left|by right]. Qed.

Lemma member_not_null m k : m <> JNull -> member m k = Ok (opt_member m k).
Proof. by destruct m. Qed.

Lemma map_throwing_shape {A B} (f : A -> outcome B) (P : B -> Prop) items ys :
  (forall x y, f x = Ok y -> P y) ->
  map_throwing f items = Ok ys -> Forall P ys /\ length ys = length items.
Proof.
  intros Hf. revert ys. induction items as [|x rest IH]; cbn.
  { by intros ys [= <-]. }
  intros ys. destruct (f x) as [y|e] eqn:Hx; [|done]. cbn.
  destruct (map_throwing f rest) as [ys'|e]; [|done]. cbn.
  intros [= <-]. destruct (IH ys' eq_refl) as [? ?].
  split; [constructor; eauto|cbn; congruence].
Qed.

Lemma map_throwing_throws {A B} (f : A -> outcome B) items :
  (exists e, map_throwing f items = Throw e) <->
  Exists (fun x => exists e, f x = Throw e) items.
Proof.
  induction items as [|x rest IH]; cbn.
  { split; [by intros [? ?]|by intros ?%Exists_nil]. }
  rewrite Exists_cons, <- IH.
  destruct (f x) as [y|e]; cbn.
  - destruct (map_throwing f rest) as [ys|e]; cbn.
    + split; [by intros [? ?]|]. by intros [[? ?]|[? ?]].
    + split; [eauto|eauto].
  - split; eauto.
Qed.

Lemma pluginJson_eq m pid b h :
  m <> JNull ->
  pluginJson m pid b h =
  let? _ := to_string (or_json (opt_member m "id") pid) in
  let? authors := authors_of m in Ok (descriptor m pid b h authors).
Proof.
  intros Hm. unfold pluginJson, authors_of, descriptor, text_of.
  rewrite !(member_not_null m _ Hm). cbn [and_then].
  destruct (to_string (or_json (opt_member m "id") pid)) as [text|e];
    [|done].
  cbn [and_then].
  destruct (opt_member m "authors") as [[]|]; try done.
Qed.

Lemma join_texts_throws item items :
  (exists e, join_texts item items = Throw e) <->
  Exists (fun x => exists e, item x = Throw e) items.
Proof.
  induction items as [|x rest IH].
  { split; [by intros [? ?]|by intros ?%Exists_nil]. }
  rewrite Exists_cons, <- IH. clear IH. destruct rest as [|y rest'].
  { cbn. split; [by left|]. by intros [?|[? ?]]. }
  change (join_texts item (x :: y :: rest')) with
    (let? a := item x in
     let? b := join_texts item (y :: rest') in Ok (a +:+ "," +:+ b)).
  destruct (item x) as [a|e]; cbn [and_then].
  - destruct (join_texts item (y :: rest')) as [t|e]; cbn [and_then].
    + split; [by intros [? ?]|]. by intros [[? ?]|[? ?]].
    + split; eauto.
  - split; eauto.
Qed.

(** Induction on a JSON value, through the elements of arrays. *)
Lemma json_array_ind (P : json -> Prop) :
  (forall j, (forall items, j <> JArr items) -> P j) ->
  (forall items, Forall P items -> P (JArr items)) ->
  forall j, P j.
Proof.
  intros Hleaf Harr.
  refine (fix IH (j : json) : P j :=
            match j with
            | JArr items =>
                Harr items
                  ((fix all (l : list json) : Forall P l :=
                      match l with
                      | [] => @List.Forall_nil _ P
                      | x :: rest => @List.Forall_cons _ P x rest (IH x) (all rest)
                      end) items)
            | _ => Hleaf _ _
            end); discriminate.
Qed.

(** A text is missing exactly for a value that owns a [toString]. *)
Lemma to_string_throws j :
  (exists e, to_string j = Throw e) <-> owns_toString j = true.
Proof.
  induction j as [j Hj|items IH] using json_array_ind.
  - destruct j as [|b|n|s|items|fields]; cbn [to_string owns_toString].
    1, 3-4: split; [by intros [? ?]|done].
    + destruct b; (split; [by intros [? ?]|done]).
    + by destruct (Hj items).
    + destruct (assoc "toString" fields).
      * split; eauto.
      * split; [by intros [? ?]|done].
  - cbn [to_string owns_toString].
    rewrite join_texts_throws, existsb_exists, List.Exists_exists.
    rewrite List.Forall_forall in IH.
    assert (forall x, In x items ->
              (exists e, match x with JNull => Ok "" | _ => to_string x end =
                         Throw e) <-> owns_toString x = true) as Hx.
    { intros x Hin. rewrite <- (IH x Hin). destruct x; try done.
      split; by intros [? ?]. }
    split; intros (x & Hin & H); exists x; (split; [done|]); by apply Hx.
Qed.

Lemma opt_member_obj fields k : opt_member (JObj fields) k = assoc k fields.
Proof. done. Qed.

(** X14: without an override the base URL is the local preview, or
    undefined.  With [REPO_BASE_URL] and [PAGES_BASE_URL] unset or empty,
    the base URL is [http://localhost:4173] when [GITHUB_REPOSITORY] is
    unset or empty; when it is set, [getBaseUrl] returns undefined,
    whatever the repository, and every descriptor built with it links to
    [undefined/index.json] and to [undefined/plugins/] followed by the
    bundle's file name. *)
Theorem base_url_without_override env :
  truthy_str (env "REPO_BASE_URL") = false ->
  truthy_str (env "PAGES_BASE_URL") = false ->
  (truthy_str (env "GITHUB_REPOSITORY") = false ->
   getBaseUrl env = Some "http://localhost:4173") /\
  (truthy_str (env "GITHUB_REPOSITORY") = true ->
   getBaseUrl env = None /\
   forall m pid h d,
     pluginJson m pid (getBaseUrl env) h = Ok d ->
     opt_member d "updateUrl" = Some (JStr "undefined/index.json") /\
     exists file,
       bundle_name m pid = Ok file /\
       opt_member d "js" = Some (JStr ("undefined/plugins/" +:+ file))).
Proof.
  intros Hr Hp.
  assert (forall g, truthy_str (env "GITHUB_REPOSITORY") = g ->
            getBaseUrl env =
            if g then None else Some "http://localhost:4173") as Hb.
  { intros g <-. unfold getBaseUrl. rewrite Hr, Hp.
    by destruct (truthy_str (env "GITHUB_REPOSITORY")). }
  split; [by intros ->%Hb|]. intros ->%Hb. split; [done|].
  intros m pid h d.
  destruct (null_or_not m) as [->|Hm]; [done|].
  rewrite (pluginJson_eq _ _ _ _ Hm).
  destruct (to_string (or_json (opt_member m "id") pid)) as [text|e] eqn:Hid;
    [|done].
  cbn [and_then].
  destruct (authors_of m) as [authors|e]; [|done]. cbn [and_then].
  intros [= <-]. split; [done|].
  unfold bundle_name. rewrite (member_not_null m "id" Hm). cbn [and_then].
  rewrite Hid. cbn [and_then].
  eexists. split; [done|]. unfold descriptor, text_of. rewrite Hid. done.
Qed.

(** ** Authors *)

Lemma normalizeAuthor_obj fields :
  normalizeAuthor (JObj fields) =
  Ok (JObj
        (copy_if_truthy "icon" (assoc "icon" fields)
           (copy_if_truthy "id" (assoc "id" fields)
              [("name", coalesce (assoc "name" fields) (JStr "Unknown"))]))).
Proof. done. Qed.

Lemma normalizeAuthor_ok a :
  a <> JNull ->
  exists o,
    normalizeAuthor a = Ok o /\ author_shape o = true /\
    normalizeAuthor o = Ok o.
Proof.
  intros Ha. destruct a as [|b|n|s|items|fields]; [done|..].
  1-2, 4: by eexists.
  { by eexists. }
  rewrite normalizeAuthor_obj.
  set (n := coalesce (assoc "name" fields) (JStr "Unknown")).
  assert (n <> JNull) as Hn.
  { unfold n. destruct (assoc "name" fields) as [[]|]; done. }
  assert (coalesce (Some n) (JStr "Unknown") = n) as Hc by by destruct n.
  eexists. split; [done|].
  destruct (assoc "id" fields) as [i|]; cbn [copy_if_truthy];
    [destruct (truthy_json i) eqn:Hi|];
    (destruct (assoc "icon" fields) as [c|]; cbn [copy_if_truthy];
     [destruct (truthy_json c) eqn:Hci|]);
    cbn; rewrite ?Hi, ?Hci; clear Hc; clearbody n; by destruct n.
Qed.

Lemma normalizeAuthor_throws a :
  (exists e, normalizeAuthor a = Throw e) <-> a = JNull.
Proof.
  split.
  - intros [e He]. destruct (null_or_not a) as [|Ha]; [done|].
    destruct (normalizeAuthor_ok a Ha) as (o & Ho & _). congruence.
  - intros ->. by eexists.
Qed.

(** X15: [normalizeAuthor] gives [{ name, id?, icon? }] and is
    idempotent.  On null it throws; on every other JSON value it returns
    an object whose first member is a [name] that is not null, followed
    by at most a truthy [id] and a truthy [icon], in this order, and
    normalising that object again returns it unchanged. *)
Theorem normalizeAuthor_shape_idempotent a :
  (a = JNull -> normalizeAuthor a = Throw TypeError) /\
  (a <> JNull ->
   exists o,
     normalizeAuthor a = Ok o /\ author_shape o = true /\
     normalizeAuthor o = Ok o).
Proof.
  split; [by intros ->|apply normalizeAuthor_ok].
Qed.

(** ** The descriptor *)

Lemma authors_of_throws m :
  (exists e, authors_of m = Throw e) <->
  exists items, opt_member m "authors" = Some (JArr items) /\ In JNull items.
Proof.
  unfold authors_of.
  destruct (opt_member m "authors") as [a|] eqn:Ha.
  2: { split; [by intros [? ?]|by intros (? & ? & _)]. }
  assert (forall items,
            (exists e, map_throwing normalizeAuthor items = Throw e) <->
            In JNull items) as Hmap.
  { intros items. rewrite map_throwing_throws, List.Exists_exists. split.
    - by intros (x & Hx & ->%normalizeAuthor_throws).
    - intros Hin. exists JNull.
      split; [done|]. by apply normalizeAuthor_throws. }
  destruct a as [|b|n|s|items|fields].
  5: { rewrite Hmap. split; [eauto|]. by intros (? & [= <-] & ?). }
  all: split; [|by intros (? & [=] & _)].
  all: cbn [truthy_json];
    repeat match goal with
    | |- context [if ?b then _ else _] => destruct b
    end; by intros [? ?].
Qed.

(** X16: when building a descriptor fails.  The descriptor step throws
    exactly when the manifest is null, or the id (the manifest's [id] when
    truthy, else the discovered one) has no text for the template literal
    of the bundle URL, being or holding through arrays an object with an
    own member named [toString], or the [authors] array holds a null
    entry; every other manifest, whatever the types of its members, gets
    a descriptor. *)
Theorem descriptor_fails_iff m pid b h :
  (exists e, pluginJson m pid b h = Throw e) <->
  m = JNull \/
  owns_toString (or_json (opt_member m "id") pid) = true \/
  exists items, opt_member m "authors" = Some (JArr items) /\ In JNull items.
Proof.
  destruct (null_or_not m) as [->|Hm].
  { split; [by left|]. intros _. by eexists. }
  rewrite (pluginJson_eq _ _ _ _ Hm), <- authors_of_throws, <- to_string_throws.
  destruct (to_string (or_json (opt_member m "id") pid)) as [text|e];
    cbn [and_then].
  - destruct (authors_of m) as [authors|e]; cbn [and_then].
    + split; [by intros [? ?]|]. by intros [?|[[? ?]|[? ?]]].
    + split; eauto.
  - split; eauto.
Qed.

Lemma authors_of_shape m authors :
  authors_of m = Ok authors -> forallb author_shape authors = true.
Proof.
  assert (forall x y, normalizeAuthor x = Ok y -> author_shape y = true) as Hn.
  { intros x y Hx. destruct (null_or_not x) as [->|Hne]; [done|].
    destruct (normalizeAuthor_ok x Hne) as (o & Ho & Hs & _). congruence. }
  unfold authors_of.
  destruct (opt_member m "authors") as [a|]; [|by intros [= <-]].
  assert (truthy_json a = true ->
          (let? x := normalizeAuthor a in Ok [x]) = Ok authors ->
          forallb author_shape authors = true) as Hone.
  { intros _. destruct (normalizeAuthor a) as [x|e] eqn:Hx; [|done].
    cbn. intros [= <-]. cbn. by rewrite (Hn _ _ Hx). }
  destruct a as [|b|n|s|items|fields].
  5: { intros [Hall _]%(map_throwing_shape _ (fun y => author_shape y = true));
         [|exact Hn].
       apply forallb_forall. rewrite List.Forall_forall in Hall. exact Hall. }
  all: destruct (truthy_json _) eqn:Ht; [by apply Hone|by intros [= <-]].
Qed.

Lemma spread_keys m :
  map fst
    (spread_if_truthy "icon" (opt_member m "icon") ++
     spread_if_truthy "source" (opt_member m "source") ++
     spread_if_truthy "license" (opt_member m "license")) =
  optional_keys m.
Proof.
  unfold optional_keys, spread_if_truthy. cbn [List.filter].
  destruct (opt_member m "icon") as [i|]; [destruct (truthy_json i)|];
    (destruct (opt_member m "source") as [s|]; [destruct (truthy_json s)|]);
    (destruct (opt_member m "license") as [l|]; [destruct (truthy_json l)|]);
    reflexivity.
Qed.

(** X17: what a descriptor holds.  A descriptor has the members [id],
    [name], [description], [version], [authors], [updateUrl], [js] and
    [hash], in this order, followed by those of [icon], [source] and
    [license] that are truthy in the manifest.  Its [id] is the manifest's
    when truthy and the discovered one otherwise; [description] and
    [version] are never null; every author has the normalised shape; and
    [js] is the base URL, [/plugins/] and the file name of the bundle. *)
Theorem descriptor_members m pid b h d :
  pluginJson m pid b h = Ok d ->
  keys d =
  ["id"; "name"; "description"; "version"; "authors"; "updateUrl"; "js";
   "hash"] ++ optional_keys m /\
  opt_member d "id" = Some (or_json (opt_member m "id") pid) /\
  (forall k, k = "description" \/ k = "version" ->
     exists v, opt_member d k = Some v /\ v <> JNull) /\
  (exists authors,
     opt_member d "authors" = Some (JArr authors) /\
     forallb author_shape authors = true) /\
  (exists file,
     bundle_name m pid = Ok file /\
     opt_member d "js" = Some (JStr (show_url b +:+ "/plugins/" +:+ file))) /\
  opt_member d "hash" = Some (JStr ("SHA-256:" +:+ h)).
Proof.
  destruct (null_or_not m) as [->|Hm]; [done|].
  rewrite (pluginJson_eq _ _ _ _ Hm).
  destruct (to_string (or_json (opt_member m "id") pid)) as [text|e] eqn:Hid;
    [|done].
  cbn [and_then].
  destruct (authors_of m) as [authors|e] eqn:Ha; [|done]. cbn [and_then].
  intros [= <-]. unfold descriptor, text_of. rewrite Hid. cbv zeta.
  split; [|split; [|split; [|split; [|split]]]].
  - cbn [keys]. rewrite map_app, spread_keys. done.
  - done.
  - intros k [->| ->]; eexists; (split; [reflexivity|]).
    + by destruct (opt_member m "description") as [[]|].
    + by destruct (opt_member m "version") as [[]|].
  - exists authors. split; [done|]. by apply (authors_of_shape m).
  - unfold bundle_name. rewrite (member_not_null m "id" Hm). cbn [and_then].
    rewrite Hid. cbn [and_then]. eexists. split; [done|]. done.
  - done.
Qed.

(** ** Discovery *)

Lemma scan_entries_spec px fs entries acc :
  scan_entries px fs entries acc =
  acc ++ map (plugin_of px) (List.filter (has_manifest px fs) entries).
Proof.
  revert acc. induction entries as [|ent rest IH]; intros acc; cbn.
  { by rewrite app_nil_r. }
  unfold has_manifest at 1. destruct (isDirectory ent); cbn.
  - destruct (exists_ fs _); cbn; rewrite IH; [|done].
    by rewrite <- app_assoc.
  - by rewrite IH.
Qed.

(** X18: with a [plugins] directory the root manifest plays no part.
    When [./plugins] exists and can be listed, discovery returns one
    plugin per sub-directory holding a [manifest.json], named after the
    directory, in listing order; plain files and directories without a
    manifest are passed over.  When that leaves nothing it throws "No
    plugins found", whether or not [./manifest.json] exists; and when the
    listing fails, so does discovery. *)
Theorem discovery_in_plugins_dir px fs :
  exists_ fs (PLUGINS_DIR px) = true ->
  (forall entries,
     fs_readdir fs (PLUGINS_DIR px) = Ok entries ->
     discoverPlugins px fs =
     match List.filter (has_manifest px fs) entries with
     | [] => Throw no_plugins
     | found => Ok (map (plugin_of px) found)
     end) /\
  (forall e,
     fs_readdir fs (PLUGINS_DIR px) = Throw e ->
     discoverPlugins px fs = Throw e).
Proof.
  intros Hdir. unfold discoverPlugins. rewrite Hdir. split.
  - intros entries ->. cbn [and_then]. rewrite scan_entries_spec.
    by destruct (List.filter _ entries).
  - by intros e ->.
Qed.

(** X19: what discovery returns can be built.  Whenever discovery
    returns, the list is not empty, and each plugin's manifest path is
    [manifest.json] inside its directory and exists; without a [plugins]
    directory the list is the single plugin at the root, with the
    manifest's [id] when truthy and the directory's base name
    otherwise. *)
Theorem discovery_sound px fs plugins :
  discoverPlugins px fs = Ok plugins ->
  plugins <> [] /\
  Forall
    (fun p =>
       p_manifestPath p = path_join px (p_dir p) "manifest.json" /\
       exists_ fs (p_manifestPath p) = true)
    plugins /\
  (exists_ fs (PLUGINS_DIR px) = false ->
   exists manifest,
     readJSON fs (path_join px (ROOT px) "manifest.json") = Ok manifest /\
     plugins =
     [MkPlugin
        (or_json (opt_member manifest "id")
           (JStr (path_basename px (ROOT px))))
        (ROOT px) (path_join px (ROOT px) "manifest.json")]).
Proof.
  unfold discoverPlugins.
  destruct (exists_ fs (PLUGINS_DIR px)) eqn:Hdir.
  - destruct (fs_readdir fs (PLUGINS_DIR px)) as [entries|e]; [|done].
    cbn [and_then]. rewrite scan_entries_spec. cbn [app].
    destruct (map _ _) as [|p ps] eqn:Hps; [done|]. cbn.
    intros [= <-]. split; [done|]. split; [|done].
    rewrite <- Hps. apply Forall_map, List.Forall_forall.
    intros ent [_ Hent]%filter_In. split; [done|].
    unfold has_manifest in Hent. by apply andb_true_iff in Hent as [_ ?].
  - destruct (exists_ fs (path_join px (ROOT px) "manifest.json")) eqn:Hm.
    2: done.
    destruct (readJSON fs _) as [manifest|e]; [|done]. cbn [and_then].
    destruct (null_or_not manifest) as [->|Hne]; [done|].
    rewrite (member_not_null manifest "id" Hne). cbn.
    intros [= <-]. split; [done|]. split.
    + by repeat constructor.
    + intros _. by exists manifest.
Qed.

(** ** The name of the index *)

Lemma or_json_truthy x d : truthy_json d = true -> truthy_json (or_json x d) = true.
Proof.
  intros Hd. unfold or_json. destruct x as [j|]; [|done].
  by destruct (truthy_json j) eqn:Hj.
Qed.

(** X20: the index always has a name.  Whatever [package.json] holds,
    and whether or not it can be read or parsed, computing the name of
    the index does not throw and gives a truthy value: the package's
    [name] when that is truthy, and ["Plugin Repo"] in every other
    case. *)
Theorem index_always_named px fs :
  truthy_json (index_name px fs) = true /\
  (forall pkg,
     readJSON fs (path_join px (ROOT px) "package.json") = Ok pkg ->
     index_name px fs = or_json (opt_member pkg "name") (JStr "Plugin Repo")) /\
  (forall e,
     readJSON fs (path_join px (ROOT px) "package.json") = Throw e ->
     index_name px fs = JStr "Plugin Repo").
Proof.
  split; [by apply or_json_truthy|]. unfold index_name, safePkgName. split.
  - intros pkg ->. cbn [and_then]. by destruct pkg.
  - by intros e ->.
Qed.

(** * Instances for the builder *)

Lemma getBaseUrl_override_witness :
  exists b n,
    getBaseUrl pages_env = Some b /\
    "https://example.org/repo//" = b +:+ slashes n /\
    forall t, b <> t +:+ "/".
Proof.
  apply (getBaseUrl_override pages_env "https://example.org/repo//").
  - right. split; reflexivity.
  - discriminate.
Defined.

Lemma base_url_without_override_witness :
  getBaseUrl actions_env = None /\
  forall m pid h d,
    pluginJson m pid (getBaseUrl actions_env) h = Ok d ->
    opt_member d "updateUrl" = Some (JStr "undefined/index.json") /\
    exists file,
      bundle_name m pid = Ok file /\
      opt_member d "js" = Some (JStr ("undefined/plugins/" +:+ file)).
Proof.
  apply (base_url_without_override actions_env); reflexivity.
Defined.

Lemma normalizeAuthor_shape_idempotent_witness :
  exists o,
    normalizeAuthor (JObj [("id", JStr "42")]) = Ok o /\
    author_shape o = true /\ normalizeAuthor o = Ok o.
Proof.
  apply (normalizeAuthor_shape_idempotent (JObj [("id", JStr "42")])).
  discriminate.
Defined.

Lemma descriptor_fails_iff_witness :
  exists e,
    pluginJson
      (JObj [("id", JObj [("toString", JNum (MkNumber false "1"))])])
      (JStr "TelegramCalls") None "00" = Throw e.
Proof.
  apply (descriptor_fails_iff
           (JObj [("id", JObj [("toString", JNum (MkNumber false "1"))])])).
  right. left. reflexivity.
Defined.

Lemma descriptor_members_witness :
  let d :=
    descriptor demo_manifest (JStr "TelegramCalls")
      (Some "https://example.org/repo") "00"
      [JObj [("name", JStr "someone")];
       JObj [("name", JStr "Unknown"); ("id", JStr "42")]] in
  keys d =
  ["id"; "name"; "description"; "version"; "authors"; "updateUrl"; "js";
   "hash"] ++ optional_keys demo_manifest /\
  opt_member d "id" =
  Some (or_json (opt_member demo_manifest "id") (JStr "TelegramCalls")) /\
  (forall k, k = "description" \/ k = "version" ->
     exists v, opt_member d k = Some v /\ v <> JNull) /\
  (exists authors,
     opt_member d "authors" = Some (JArr authors) /\
     forallb author_shape authors = true) /\
  (exists file,
     bundle_name demo_manifest (JStr "TelegramCalls") = Ok file /\
     opt_member d "js" =
     Some (JStr (show_url (Some "https://example.org/repo") +:+
                 "/plugins/" +:+ file))) /\
  opt_member d "hash" = Some (JStr ("SHA-256:" +:+ "00")).
Proof.
  intros d.
  apply (descriptor_members demo_manifest (JStr "TelegramCalls")
           (Some "https://example.org/repo") "00" d).
  reflexivity.
Defined.

Lemma discovery_in_plugins_dir_witness :
  discoverPlugins posix demo_fs =
  Ok [MkPlugin (JStr "TelegramCalls") "/repo/plugins/TelegramCalls"
        "/repo/plugins/TelegramCalls/manifest.json"].
Proof.
  assert (exists_ demo_fs (PLUGINS_DIR posix) = true) as Hdir by reflexivity.
  exact (proj1 (discovery_in_plugins_dir posix demo_fs Hdir)
           [MkDirent "README.md" false; MkDirent "TelegramCalls" true;
            MkDirent "drafts" true] eq_refl).
Defined.

Lemma discovery_sound_witness :
  let root :=
    [MkPlugin (JStr "root") "/repo" "/repo/manifest.json"] in
  root <> [] /\
  Forall
    (fun p =>
       p_manifestPath p = path_join posix (p_dir p) "manifest.json" /\
       exists_ single_fs (p_manifestPath p) = true)
    root /\
  (exists_ single_fs (PLUGINS_DIR posix) = false ->
   exists manifest,
     readJSON single_fs (path_join posix (ROOT posix) "manifest.json") =
     Ok manifest /\
     root =
     [MkPlugin
        (or_json (opt_member manifest "id")
           (JStr (path_basename posix (ROOT posix))))
        (ROOT posix) (path_join posix (ROOT posix) "manifest.json")]).
Proof.
  intros root. apply (discovery_sound posix single_fs root). reflexivity.
Defined.

Lemma index_always_named_witness :
  index_name posix demo_fs = JStr "Plugin Repo".
Proof.
  apply (proj2 (proj2 (index_always_named posix demo_fs)) (VStr "ENOENT")).
  reflexivity.
Defined.
